(** * The SST-anomaly dashboard: opener, field standardizer, bounding-box selector

    A shallow embedding of the data-retrieval layer of [streamlit_app.py]:

    - [_open_ds]                  (lines 35-40),
    - [_standardize_anom_field]   (lines 42-73),
    - [load_anomaly]              (lines 86-114).

    The three functions are written against xarray and pandas.  The part of
    those libraries that the functions call is modelled here, once, in the
    first half of the file: labelled n-dimensional arrays, the label lookups
    of a pandas index ([get_loc], [get_slice_bound], [slice_indexer], the
    nearest-neighbour indexer) and the array operations built on them
    ([sel], [squeeze], [rename], [concat]).

    Conventions of the model:

    - a coordinate label (a latitude or longitude in degrees, a depth, a
      timestamp in nanoseconds) is a rational number: the code only compares
      labels and takes absolute differences of timestamps, and on finite
      floating-point numbers and on integer timestamps these agree with the
      same operations on rationals (NaN and NaT labels are outside the model,
      except for the NaT that the minimum of an empty index produces);
    - the labels of an index are numbers of one dtype (float32 for the
      latitudes and longitudes of the service).  A bound of a slice is a
      Python float, and where pandas converts it to the dtype of the index
      before it looks it up, the model rounds it with the [cast] of that
      index; an index of fewer than a million labels is assumed, above which
      pandas looks labels up by binary search;
    - a timestamp is an int64 count of nanoseconds, and so is the difference
      of two timestamps: a difference that does not fit raises
      [OverflowError];
    - the data values of a field are never inspected by the code, so their
      type [V] is a parameter;
    - a Python exception is a value of type [exn]; a computation that may
      raise returns a [result]. *)

From Stdlib Require Import String List Bool Arith Lia ZArith QArith Qabs Lqa.
Import ListNotations.

Open Scope string_scope.
Open Scope list_scope.
Open Scope nat_scope.

Set Implicit Arguments.

(** ** Exceptions and results *)

(** The exception classes that the modelled code can raise.  All of them derive
    from Python's [Exception], which is what the handler of [_open_ds]
    catches.  [OpenError] stands for whatever [xr.open_dataset] raises on a
    failed open (an [OSError], a [FileNotFoundError], ...); its payload keeps
    two failures apart.  [Unmodelled] is no Python exception: it marks the
    library behaviour that the model leaves out (see [xr_concat] and
    [timedelta]). *)
Inductive exn : Type :=
| KeyError
| IndexError
| ValueError
| InvalidIndexError
| OverflowError
| OpenError (msg : string)
| Unmodelled.

Inductive result (A : Type) : Type :=
| Ok (a : A)
| Raise (e : exn).

Arguments Ok {A} a.
Arguments Raise {A} e.

Definition bind {A B : Type} (r : result A) (k : A -> result B) : result B :=
  match r with
  | Ok a => k a
  | Raise e => Raise e
  end.

Notation "x <- r ;; k" := (bind r (fun x => k))
  (at level 61, r at next level, right associativity).
Notation "' p <- r ;; k" := (bind r (fun x => let p := x in k))
  (at level 61, p pattern, r at next level, right associativity).

(** ** Comparisons on labels *)

Definition Qlt_bool (x y : Q) : bool := negb (Qle_bool y x).

(** ** A pandas index: a list of labels *)

Abbreviation Index := (list Q) (only parsing).

(** [Index.is_monotonic_increasing] and [Index.is_monotonic_decreasing]: both
    are the non-strict notions. *)
Fixpoint is_monotonic_increasing (idx : Index) : bool :=
  match idx with
  | [] => true
  | x :: tl =>
      match tl with
      | [] => true
      | y :: _ => Qle_bool x y && is_monotonic_increasing tl
      end
  end.

Fixpoint is_monotonic_decreasing (idx : Index) : bool :=
  match idx with
  | [] => true
  | x :: tl =>
      match tl with
      | [] => true
      | y :: _ => Qle_bool y x && is_monotonic_decreasing tl
      end
  end.

(** [Index.is_unique]. *)
Fixpoint is_unique (idx : Index) : bool :=
  match idx with
  | [] => true
  | x :: tl => negb (existsb (Qeq_bool x) tl) && is_unique tl
  end.

(** Length of the longest prefix on which [p] holds. *)
Fixpoint prefix_len {A : Type} (p : A -> bool) (l : list A) : nat :=
  match l with
  | [] => 0
  | x :: tl => if p x then S (prefix_len p tl) else 0
  end.

(** [numpy.searchsorted] on an ascending array: the insertion point that keeps
    the array sorted, before ([side = "left"]) or after ([side = "right"]) the
    entries equal to the label. *)
Inductive Side : Type := SideLeft | SideRight.

Definition flip_side (s : Side) : Side :=
  match s with SideLeft => SideRight | SideRight => SideLeft end.

Definition searchsorted (idx : Index) (x : Q) (side : Side) : nat :=
  match side with
  | SideLeft => prefix_len (fun y => Qlt_bool y x) idx
  | SideRight => prefix_len (fun y => Qle_bool y x) idx
  end.

(** [Index._searchsorted_monotonic]: a descending index is searched through
    its reversal, with the side and the resulting position mirrored; an index
    that is neither ascending nor descending raises [ValueError]. *)
Definition _searchsorted_monotonic (idx : Index) (x : Q) (side : Side)
  : result nat :=
  if is_monotonic_increasing idx then Ok (searchsorted idx x side)
  else if is_monotonic_decreasing idx then
    Ok (length idx - searchsorted (rev idx) x (flip_side side))
  else Raise ValueError.

(** The result of [Index.get_loc] for a key of the dtype of the index: a
    position when the key occurs once, otherwise the boolean mask of its
    occurrences (on an ascending index pandas returns the equivalent
    slice). *)
Inductive Loc : Type :=
| LocInt (p : nat)
| LocMask (m : list bool).

Definition count_true (m : list bool) : nat := length (filter (fun b => b) m).

Definition label_mask (idx : Index) (x : Q) : list bool :=
  map (fun y => Qeq_bool y x) idx.

Definition get_loc (idx : Index) (x : Q) : result Loc :=
  let m := label_mask idx x in
  match count_true m with
  | 0 => Raise KeyError
  | 1 => Ok (LocInt (prefix_len negb m))
  | _ => Ok (LocMask m)
  end.

(** The key that the engine of an index looks up for the number [x].  The
    hash table of a unique index takes its key in the dtype of the index, and
    so does the comparison that gives the mask of an index that is neither
    unique nor ascending: there the key is [x] rounded by [cast].  An
    ascending index with repeated labels is searched with [searchsorted],
    which compares the labels with [x] as it is.  The rounding is applied to
    [x] in lowest terms: it is a function of the number, not of the fraction
    that denotes it. *)
Definition held_as (cast : Q -> Q) (x : Q) : Q := cast (Qred x).

Definition engine_key (cast : Q -> Q) (idx : Index) (x : Q) : Q :=
  if is_unique idx then held_as cast x
  else if is_monotonic_increasing idx then x
  else held_as cast x.

(** [lib.maybe_booleans_to_slice]: the slice selected by a mask whose true
    entries are contiguous (the empty slice at 0 for a mask without a true
    entry), nothing when they are not. *)
Definition maybe_booleans_to_slice (m : list bool) : option (nat * nat) :=
  let start := prefix_len negb m in
  if length m <=? start then Some (0, 0)
  else
    let rest := skipn start m in
    let run := prefix_len (fun b => b) rest in
    if existsb (fun b => b) (skipn run rest) then None
    else Some (start, start + run).

(** [Index.get_slice_bound]: the position at which a slice bounded by the
    number [x] starts ([SideLeft]) or stops ([SideRight]).  A bound whose key
    occurs in the index is looked up; one whose key does not is located by
    binary search on [x] itself, which needs a monotonic index. *)
Definition get_slice_bound (cast : Q -> Q) (idx : Index) (x : Q) (side : Side)
  : result nat :=
  match get_loc idx (engine_key cast idx x) with
  | Ok (LocInt p) =>
      Ok (match side with SideLeft => p | SideRight => S p end)
  | Ok (LocMask m) =>
      match maybe_booleans_to_slice m with
      | Some (start, stop) =>
          Ok (match side with SideLeft => start | SideRight => stop end)
      | None => Raise KeyError
      end
  | Raise _ =>
      match _searchsorted_monotonic idx x side with
      | Ok p => Ok p
      | Raise _ => Raise KeyError
      end
  end.

(** [Index.slice_indexer(start, stop)]: the positional slice for the labels
    between [start] and [stop], both included. *)
Definition slice_indexer (cast : Q -> Q) (idx : Index) (start stop : Q)
  : result (nat * nat) :=
  s <- get_slice_bound cast idx start SideLeft ;;
  e <- get_slice_bound cast idx stop SideRight ;;
  Ok (s, e).

(** A Python slice [l[s:e]] with non-negative bounds. *)
Definition py_slice {A : Type} (s e : nat) (l : list A) : list A :=
  skipn s (firstn e l).

(** Selection by a boolean mask. *)
Fixpoint mask_select {A : Type} (m : list bool) (l : list A) : list A :=
  match m, l with
  | b :: m', x :: l' => if b then x :: mask_select m' l' else mask_select m' l'
  | _, _ => []
  end.

(** *** Nearest-neighbour lookup *)

Inductive FillMethod : Type := Pad | Backfill.

(** The position of a label that occurs exactly once. *)
Definition exact_indexer (idx : Index) (t : Q) : option nat :=
  match get_loc idx t with
  | Ok (LocInt p) => Some p
  | _ => None
  end.

(** [Index._get_fill_indexer] for one target label; [None] is pandas's [-1],
    "no such position".  On an ascending index [Pad] is the last position whose
    label is at most the target and [Backfill] the first position whose label
    is at least the target.  Any other index goes through
    [_get_fill_indexer_searchsorted], which needs it to be descending. *)
Definition _get_fill_indexer (idx : Index) (t : Q) (method : FillMethod)
  : result (option nat) :=
  if is_monotonic_increasing idx then
    Ok (match method with
        | Pad =>
            match searchsorted idx t SideRight with
            | 0 => None
            | S p => Some p
            end
        | Backfill =>
            let p := searchsorted idx t SideLeft in
            if p <? length idx then Some p else None
        end)
  else if is_monotonic_decreasing idx then
    match exact_indexer idx t with
    | Some p => Ok (Some p)
    | None =>
        match method with
        | Pad =>
            p <- _searchsorted_monotonic idx t SideLeft ;;
            Ok (match p with 0 => None | S q => Some q end)
        | Backfill =>
            p <- _searchsorted_monotonic idx t SideRight ;;
            Ok (if p =? length idx then None else Some p)
        end
    end
  else Raise ValueError.

(** The label at a position, with Python's reading of [-1] as the last one. *)
Definition label_at (idx : Index) (o : option nat) : Q :=
  match o with
  | Some p => nth p idx 0%Q
  | None => last idx 0%Q
  end.

Definition is_none {A : Type} (o : option A) : bool :=
  match o with None => true | Some _ => false end.

(** The largest int64. *)
Definition int64_max : Q := 9223372036854775807 # 1.

(** The difference of two timestamps, a count of nanoseconds in int64: the
    subtraction is checked and raises [OverflowError] when the difference
    does not fit.  The one int64 below [- int64_max] is the bit pattern of
    [NaT]; what the comparison of distances does with it is left out of the
    model. *)
Definition timedelta (x y : Q) : result Q :=
  let d := (x - y)%Q in
  if Qle_bool (- int64_max)%Q d && Qle_bool d int64_max then Ok d
  else if Qeq_bool d (- int64_max - 1)%Q then Raise Unmodelled
  else Raise OverflowError.

(** [Index._difference_compat]: the distance of the target from the label at
    a position. *)
Definition _difference_compat (idx : Index) (t : Q) (o : option nat)
  : result Q :=
  d <- timedelta (label_at idx o) t ;;
  Ok (Qabs d).

(** [Index._get_nearest_indexer]: of the two neighbours the closer one is
    taken; the comparison is strict on an ascending index, so that a tie goes
    to the right-hand neighbour there. *)
Definition _get_nearest_indexer (idx : Index) (t : Q) : result (option nat) :=
  match idx with
  | [] => _get_fill_indexer idx t Pad
  | _ :: _ =>
      left <- _get_fill_indexer idx t Pad ;;
      right <- _get_fill_indexer idx t Backfill ;;
      left_distance <- _difference_compat idx t left ;;
      right_distance <- _difference_compat idx t right ;;
      let op := if is_monotonic_increasing idx then Qlt_bool else Qle_bool in
      Ok (if op left_distance right_distance || is_none right
          then left else right)
  end.

(** [Index.get_indexer([t], method="nearest")], which refuses an index with
    repeated labels, followed by xarray's check that a position was found. *)
Definition nearest_position (idx : Index) (t : Q) : result nat :=
  if is_unique idx then
    o <- _get_nearest_indexer idx t ;;
    match o with
    | Some p => Ok p
    | None => Raise KeyError
    end
  else Raise InvalidIndexError.

(** [Index.min()] and [Index.max()]; [None] is the [NaT] of an empty index. *)
Definition Qmin_bool (x y : Q) : Q := if Qle_bool x y then x else y.
Definition Qmax_bool (x y : Q) : Q := if Qle_bool x y then y else x.

Definition index_min (idx : Index) : option Q :=
  match idx with
  | [] => None
  | x :: tl => Some (fold_left Qmin_bool tl x)
  end.

Definition index_max (idx : Index) : option Q :=
  match idx with
  | [] => None
  | x :: tl => Some (fold_left Qmax_bool tl x)
  end.

(** ** Labelled n-dimensional arrays *)

Section Arrays.

Variable V : Type.

Unset Elimination Schemes.

(** The values of an array, nested by axis: a cell, or the list of the
    sub-arrays along the outermost axis. *)
Inductive nd : Type :=
| Cell (v : V)
| Axis (xs : list nd).

Set Elimination Schemes.

(** [has_shape sh a]: [a] is rectangular with the axis lengths [sh]. *)
Fixpoint has_shape (sh : list nat) (a : nd) : bool :=
  match sh, a with
  | [], Cell _ => true
  | n :: sh', Axis xs => (length xs =? n) && forallb (has_shape sh') xs
  | _, _ => false
  end.

(** Apply [f] to the list of sub-arrays along axis [k]. *)
Fixpoint nd_on_axis (f : list nd -> list nd) (k : nat) (a : nd) : nd :=
  match a with
  | Cell v => Cell v
  | Axis xs =>
      match k with
      | 0 => Axis (f xs)
      | S k' => Axis (map (nd_on_axis f k') xs)
      end
  end.

(** Position [p] along axis [k], the axis being dropped.  On a well-shaped
    array the position is one the axis has ([has_shape_take]). *)
Fixpoint nd_take (k p : nat) (a : nd) : nd :=
  match a with
  | Cell v => Cell v
  | Axis xs =>
      match k with
      | 0 => nth p xs (Axis [])
      | S k' => Axis (map (nd_take k' p) xs)
      end
  end.

Definition zip_with {A B C : Type} (f : A -> B -> C)
  : list A -> list B -> list C :=
  fix go (l : list A) (r : list B) : list C :=
    match l, r with
    | x :: l', y :: r' => f x y :: go l' r'
    | _, _ => []
    end.

(** Two arrays joined along axis [k]. *)
Fixpoint nd_concat (k : nat) (a b : nd) {struct k} : nd :=
  match a, b with
  | Axis xs, Axis ys =>
      match k with
      | 0 => Axis (xs ++ ys)
      | S k' => Axis (zip_with (nd_concat k') xs ys)
      end
  | _, _ => a
  end.

(** An [xarray.DataArray]: its dimensions in order, each with its index
    coordinate; its scalar (non-dimension) coordinates; its values.  Every
    dimension carries an index, as the dimensions of a gridded dataset do. *)
Record DataArray : Type := mkDA {
  da_dims : list (string * Index);
  da_scalars : list (string * Q);
  da_values : nd
}.

Definition dim_names (da : DataArray) : list string := map fst (da_dims da).

(** The keys of [da.coords]. *)
Definition coord_names (da : DataArray) : list string :=
  dim_names da ++ map fst (da_scalars da).

(** The shape that the index coordinates announce. *)
Definition sizes (da : DataArray) : list nat :=
  map (fun d => length (snd d)) (da_dims da).

(** The invariant xarray keeps on every array it builds: the values are
    rectangular and as long, along each axis, as the index of the axis. *)
Definition well_shaped (da : DataArray) : bool :=
  has_shape (sizes da) (da_values da).

Definition name_in (n : string) (l : list string) : bool :=
  existsb (String.eqb n) l.

(** Axis number and index of a dimension. *)
Fixpoint find_dim (name : string) (dims : list (string * Index))
  : option (nat * Index) :=
  match dims with
  | [] => None
  | (n, idx) :: tl =>
      if String.eqb n name then Some (0, idx)
      else match find_dim name tl with
           | Some (k, i) => Some (S k, i)
           | None => None
           end
  end.

Fixpoint remove_nth {A : Type} (k : nat) (l : list A) : list A :=
  match l, k with
  | [], _ => []
  | _ :: tl, 0 => tl
  | x :: tl, S k' => x :: remove_nth k' tl
  end.

Fixpoint update_nth {A : Type} (k : nat) (f : A -> A) (l : list A) : list A :=
  match l, k with
  | [], _ => []
  | x :: tl, 0 => f x :: tl
  | x :: tl, S k' => x :: update_nth k' f tl
  end.

(** *** Positional indexing, [DataArray.isel] *)

(** [da.isel({name: p}, drop=drop)] for an integer [p] on axis [k]: the axis
    goes; its coordinate stays as a scalar coordinate unless [drop]. *)
Definition isel_int (k : nat) (name : string) (idx : Index) (p : nat)
  (drop : bool) (da : DataArray) : DataArray :=
  {| da_dims := remove_nth k (da_dims da);
     da_scalars := if drop then da_scalars da
                   else da_scalars da ++ [(name, nth p idx 0%Q)];
     da_values := nd_take k p (da_values da) |}.

(** [da.isel({name: slice(s, e)})] on axis [k]. *)
Definition isel_slice (k s e : nat) (da : DataArray) : DataArray :=
  {| da_dims := update_nth k (fun d => (fst d, py_slice s e (snd d)))
                  (da_dims da);
     da_scalars := da_scalars da;
     da_values := nd_on_axis (py_slice s e) k (da_values da) |}.

(** [da.isel({name: m})] for a boolean mask [m] on axis [k]. *)
Definition isel_mask (k : nat) (m : list bool) (da : DataArray) : DataArray :=
  {| da_dims := update_nth k (fun d => (fst d, mask_select m (snd d)))
                  (da_dims da);
     da_scalars := da_scalars da;
     da_values := nd_on_axis (mask_select m) k (da_values da) |}.

(** *** Label-based indexing, [DataArray.sel] *)

(** [da.sel({name: x})] for a scalar label that is a number of the dtype of
    the index, as the first label of the index itself is: a name that is not
    a dimension with an index raises [KeyError], and so does a label the
    index lacks. *)
Definition sel_label (name : string) (x : Q) (da : DataArray)
  : result DataArray :=
  match find_dim name (da_dims da) with
  | None => Raise KeyError
  | Some (k, idx) =>
      loc <- get_loc idx x ;;
      Ok (match loc with
          | LocInt p => isel_int k name idx p false da
          | LocMask m => isel_mask k m da
          end)
  end.

(** [da.sel({name: t}, method="nearest")] for a scalar label. *)
Definition sel_nearest (name : string) (t : Q) (da : DataArray)
  : result DataArray :=
  match find_dim name (da_dims da) with
  | None => Raise KeyError
  | Some (k, idx) =>
      p <- nearest_position idx t ;;
      Ok (isel_int k name idx p false da)
  end.

(** [da.sel({name: slice(a, b)})].  [casts name] is the rounding to the
    dtype of the index of the dimension [name].  A name that is a scalar
    coordinate only has no dimension to slice, which raises [ValueError]; a
    name that is no coordinate at all raises [KeyError]. *)
Definition sel_slice (casts : string -> Q -> Q) (name : string) (a b : Q)
  (da : DataArray) : result DataArray :=
  match find_dim name (da_dims da) with
  | None =>
      if name_in name (map fst (da_scalars da)) then Raise ValueError
      else Raise KeyError
  | Some (k, idx) =>
      '(s, e) <- slice_indexer (casts name) idx a b ;;
      Ok (isel_slice k s e da)
  end.

(** [da[name].values[0]], for a dimension [name]. *)
Definition first_label (name : string) (da : DataArray) : result Q :=
  match find_dim name (da_dims da) with
  | None => Raise KeyError
  | Some (_, idx) =>
      match idx with
      | [] => Raise IndexError
      | x :: _ => Ok x
      end
  end.

(** *** [DataArray.squeeze(drop=True)] *)

(** Every axis of length one is indexed at position 0 and dropped together
    with its coordinate; [k] is the axis number of the head of [dims] in the
    values as they now are. *)
Fixpoint squeeze_axes (k : nat) (dims : list (string * Index)) (v : nd)
  : list (string * Index) * nd :=
  match dims with
  | [] => ([], v)
  | d :: tl =>
      if length (snd d) =? 1 then squeeze_axes k tl (nd_take k 0 v)
      else let '(dims', v') := squeeze_axes (S k) tl v in (d :: dims', v')
  end.

Definition squeeze_drop (da : DataArray) : DataArray :=
  let '(dims, v) := squeeze_axes 0 (da_dims da) (da_values da) in
  {| da_dims := dims; da_scalars := da_scalars da; da_values := v |}.

(** *** [DataArray.rename(name_dict)] *)

Definition rename_name (m : list (string * string)) (n : string) : string :=
  match find (fun kv => String.eqb (fst kv) n) m with
  | Some kv => snd kv
  | None => n
  end.

Fixpoint has_dup (l : list string) : bool :=
  match l with
  | [] => false
  | x :: tl => name_in x tl || has_dup tl
  end.

(** Dimensions and coordinates are renamed together.  xarray raises
    [ValueError] for a key that names nothing and for a new name that
    conflicts with another coordinate. *)
Definition rename (da : DataArray) (m : list (string * string))
  : result DataArray :=
  if negb (forallb (fun kv => name_in (fst kv) (coord_names da)) m)
  then Raise ValueError
  else
    let da' :=
      {| da_dims := map (fun d => (rename_name m (fst d), snd d)) (da_dims da);
         da_scalars :=
           map (fun c => (rename_name m (fst c), snd c)) (da_scalars da);
         da_values := da_values da |} in
    if has_dup (coord_names da') then Raise ValueError else Ok da'.

(** *** [xr.concat([l, r], dim=name)] *)

Definition index_eqb (i j : Index) : bool :=
  (length i =? length j) && forallb (fun p => Qeq_bool (fst p) (snd p)) (combine i j).

Definition dim_eqb (d e : string * Index) : bool :=
  String.eqb (fst d) (fst e) && index_eqb (snd d) (snd e).

Fixpoint dims_eqb (ds es : list (string * Index)) : bool :=
  match ds, es with
  | [], [] => true
  | d :: ds', e :: es' => dim_eqb d e && dims_eqb ds' es'
  | _, _ => false
  end.

Definition scalar_eqb (c d : string * Q) : bool :=
  String.eqb (fst c) (fst d) && Qeq_bool (snd c) (snd d).

Fixpoint scalars_eqb (cs ds : list (string * Q)) : bool :=
  match cs, ds with
  | [], [] => true
  | c :: cs', d :: ds' => scalar_eqb c d && scalars_eqb cs' ds'
  | _, _ => false
  end.

(** Two arrays joined along a dimension both have: the index of the
    dimension and the values are those of [l] followed by those of [r].
    The arrays that [load_anomaly] joins are two slices of one array and so
    agree on everything else ([concat_of_slices] below).  What xarray does
    with arrays that do not (it aligns them by an outer join, or stacks them
    along a new dimension) is left out of the model. *)
Definition xr_concat (l r : DataArray) (name : string)
  : result DataArray :=
  match find_dim name (da_dims l), find_dim name (da_dims r) with
  | Some (k, il), Some (k', ir) =>
      if (k =? k')
         && dims_eqb (remove_nth k (da_dims l)) (remove_nth k (da_dims r))
         && scalars_eqb (da_scalars l) (da_scalars r)
      then Ok {| da_dims := update_nth k (fun d => (fst d, il ++ ir)) (da_dims l);
                 da_scalars := da_scalars l;
                 da_values := nd_concat k (da_values l) (da_values r) |}
      else Raise Unmodelled
  | _, _ => Raise Unmodelled
  end.

(** ** Datasets *)

(** An [xarray.Dataset]: its index coordinates and its data variables. *)
Record Dataset : Type := mkDS {
  ds_coords : list (string * Index);
  ds_vars : list (string * DataArray)
}.

Fixpoint lookup {A : Type} (name : string) (l : list (string * A))
  : option A :=
  match l with
  | [] => None
  | (n, a) :: tl => if String.eqb n name then Some a else lookup name tl
  end.

(** [ds[name]] for a data variable. *)
Definition ds_var (ds : Dataset) (name : string) : result DataArray :=
  match lookup name (ds_vars ds) with
  | Some da => Ok da
  | None => Raise KeyError
  end.

(** [ds[name].values] for an index coordinate. *)
Definition ds_coord_values (ds : Dataset) (name : string) : result Index :=
  match lookup name (ds_coords ds) with
  | Some idx => Ok idx
  | None => Raise KeyError
  end.

(** ** [_standardize_anom_field] *)

(** Lines 51-55: the first of the candidate depth dimensions that the array
    has is reduced to its first label; the loop stops there. *)
Fixpoint select_surface (candidates : list string) (da : DataArray)
  : result DataArray :=
  match candidates with
  | [] => Ok da
  | d :: rest =>
      if name_in d (dim_names da) then
        x <- first_label d da ;;
        sel_label d x da
      else select_surface rest da
  end.

(** Lines 58-63: the target time moved into the coverage of the dataset.
    The minimum and maximum of an empty index are [NaT], against which every
    comparison is false, so that the target is then left as it is. *)
Definition clamp_time (times : Index) (target_time : Q) : Q :=
  match index_min times, index_max times with
  | Some tmin, Some tmax =>
      if Qlt_bool target_time tmin then tmin
      else if Qlt_bool tmax target_time then tmax
      else target_time
  | _, _ => target_time
  end.

(** Lines 66-71: [latitude] and [longitude] renamed to [lat] and [lon]. *)
Definition unify_coord_names (da : DataArray) : result DataArray :=
  let rename_map :=
    (if name_in "latitude" (coord_names da) then [("latitude", "lat")] else [])
    ++ (if name_in "longitude" (coord_names da) then [("longitude", "lon")] else [])
  in
  match rename_map with
  | [] => Ok da
  | _ :: _ => rename da rename_map
  end.

(** Lines 49-64: the field before its coordinates are renamed. *)
Definition extract_field (ds : Dataset) (target_time : Q)
  : result DataArray :=
  da <- ds_var ds "anom" ;;
  da <- select_surface ["zlev"; "depth"; "lev"] da ;;
  times <- ds_coord_values ds "time" ;;
  let target_time := clamp_time times target_time in
  da <- sel_nearest "time" target_time da ;;
  Ok (squeeze_drop da).

(** Lines 42-73. *)
Definition _standardize_anom_field (ds : Dataset) (target_time : Q)
  : result DataArray :=
  da <- extract_field ds target_time ;;
  unify_coord_names da.

(** ** The bounding-box selection of [load_anomaly] *)

(** [bbox = (lat_min, lat_max, lon_min, lon_max)]. *)
Definition BBox : Type := (Q * Q * Q * Q)%type.

(** The roundings to the dtypes of the coordinates of the field that is cut,
    by the name of the coordinate. *)
Variable casts : string -> Q -> Q.

(** Lines 99-103. *)
Definition select_lat (da : DataArray) (lat_min lat_max : Q)
  : result DataArray :=
  if Qle_bool lat_min lat_max
  then sel_slice casts "lat" lat_min lat_max da
  else sel_slice casts "lat" lat_max lat_min da.

(** Lines 105-111. *)
Definition select_lon (da : DataArray) (lon_min lon_max : Q)
  : result DataArray :=
  if Qle_bool lon_min lon_max
  then sel_slice casts "lon" lon_min lon_max da
  else
    left <- sel_slice casts "lon" lon_min 180%Q da ;;
    right <- sel_slice casts "lon" (-180)%Q lon_max da ;;
    xr_concat left right "lon".

(** Lines 95-111. *)
Definition select_bbox (da : DataArray) (bbox : option BBox)
  : result DataArray :=
  match bbox with
  | None => Ok da
  | Some (lat_min, lat_max, lon_min, lon_max) =>
      da <- select_lat da lat_min lat_max ;;
      select_lon da lon_min lon_max
  end.

End Arrays.

Arguments Cell {V} v.
Arguments Axis {V} xs.

(** ** The remote service: [_open_ds] and [load_anomaly] *)

(** What the program does to the outside world, in order. *)
Inductive event : Type :=
| EvOpen (url : string)
| EvClose.

(** A computation that talks to the service: it extends the log of events and
    returns or raises. *)
Definition IO (A : Type) : Type := list event -> list event * result A.

Definition io_ret {A : Type} (a : A) : IO A := fun log => (log, Ok a).

Definition io_bind {A B : Type} (m : IO A) (k : A -> IO B) : IO B :=
  fun log =>
    match m log with
    | (log', Ok a) => k a log'
    | (log', Raise e) => (log', Raise e)
    end.

Definition io_lift {A : Type} (r : result A) : IO A := fun log => (log, r).

(** [try: m  except Exception: h]. *)
Definition io_try {A : Type} (m : IO A) (h : IO A) : IO A :=
  fun log =>
    match m log with
    | (log', Ok a) => (log', Ok a)
    | (log', Raise _) => h log'
    end.

Notation "x <~ m ;; k" := (io_bind m (fun x => k))
  (at level 61, m at next level, right associativity).

Definition ERDDAP_URL : string :=
  "https://erddap.aoml.noaa.gov/hdb/erddap/griddap/SST_OI_DAILY_1981_PRESENT_T".

Section Remote.

Variable V : Type.

(** The service: what an open of a URL answers, given everything the program
    has done so far. *)
Variable server : list event -> string -> result (Dataset V).

(** The roundings to the dtypes of the coordinates that the service uses. *)
Variable casts : string -> Q -> Q.

(** [xr.open_dataset(url, decode_times=True)]. *)
Definition xr_open_dataset (url : string) : IO (Dataset V) :=
  fun log => (log ++ [EvOpen url], server log url).

(** [ds.close()]. *)
Definition ds_close : IO unit := fun log => (log ++ [EvClose], Ok tt).

(** Lines 35-40: the plain URL is tried; if that raises, the URL with [.nc]
    appended is tried, and whatever this second open does is the outcome. *)
Definition _open_ds (url_base : string) : IO (Dataset V) :=
  io_try (xr_open_dataset url_base)
         (xr_open_dataset (url_base ++ ".nc")%string).

(** Lines 86-114, without the [st.cache_data] decorator: one uncached call.
    An exception leaves the function before [ds.close()]. *)
Definition load_anomaly (date : Q) (bbox : option BBox) : IO (DataArray V) :=
  ds <~ _open_ds ERDDAP_URL ;;
  da <~ io_lift (_standardize_anom_field ds date) ;;
  da <~ io_lift (select_bbox casts da bbox) ;;
  _ <~ ds_close ;;
  io_ret da.

End Remote.

(** ** Vocabulary of the specification *)

(** "The inclusive range of grid latitudes lying between lat_min and lat_max":
    the labels of the index that lie between the smaller and the larger of the
    two bounds, both included, in the order of the index. *)
Definition in_closed_range (lo hi y : Q) : bool :=
  Qle_bool lo y && Qle_bool y hi.

Definition inclusive_range (a b : Q) (idx : Index) : Index :=
  filter (in_closed_range (Qmin_bool a b) (Qmax_bool a b)) idx.

(** The latitude step returns that range. *)
Definition selects_inclusive_lat_range {V : Type} (casts : string -> Q -> Q)
  (da : DataArray V) (a b : Q) : Prop :=
  exists (k : nat) (idx : Index) (out : DataArray V),
    find_dim "lat" (da_dims da) = Some (k, idx)
    /\ select_lat casts da a b = Ok out
    /\ find_dim "lat" (da_dims out) = Some (k, inclusive_range a b idx).

(** A bound that the dtype of an index holds as it is: every number on a
    float64 index, the binary fractions of up to 24 digits on a float32
    index. *)
Definition representable (cast : Q -> Q) (x : Q) : Prop :=
  (held_as cast x == x)%Q.

(** The label that a bound of a slice stands for on an index: its key, when
    the index has a label equal to the key, and otherwise the bound as it
    is. *)
Definition bound_label (cast : Q -> Q) (idx : Index) (x : Q) : Q :=
  let key := engine_key cast idx x in
  if existsb (fun y => Qeq_bool y key) idx then key else x.

(** The dtype that holds every bound as it is: float64, the dtype of the
    bounds themselves. *)
Definition float64 (name : string) (x : Q) : Q := x.

(** Timestamps any two of which are less than 2^63 nanoseconds (some 292
    years) apart. *)
Definition within_int64_span (times : Index) : Prop :=
  forall x y : Q, In x times -> In y times -> (x - y <= int64_max)%Q.

(** The canonical short form of a coordinate name. *)
Definition canonical_name (n : string) : string :=
  if String.eqb n "latitude" then "lat"
  else if String.eqb n "longitude" then "lon"
  else n.

(** The array with every coordinate under its canonical name. *)
Definition canonical {V : Type} (da : DataArray V) : DataArray V :=
  {| da_dims := map (fun d => (canonical_name (fst d), snd d)) (da_dims da);
     da_scalars :=
       map (fun c => (canonical_name (fst c), snd c)) (da_scalars da);
     da_values := da_values da |}.

(** ** Auxiliary definitions of the proofs *)

(** A mask whose true entries form one block. *)
Definition block_mask (n1 n2 n3 : nat) : list bool :=
  repeat false n1 ++ repeat true n2 ++ repeat false n3.

(** ** The input conventions of the standardizer *)

Definition depth_names : list string := ["zlev"; "depth"; "lev"].

(** The names the standardizer looks for or produces. *)
Definition reserved_names : list string :=
  ["time"; "zlev"; "depth"; "lev"; "lat"; "lon"; "latitude"; "longitude"].

(** No depth axis, or one depth axis under one of the three names, with no
    level repeated. *)
Definition depth_convention (depth : list (string * Index)) : Prop :=
  depth = []
  \/ exists (dn : string) (didx : Index),
       depth = [(dn, didx)] /\ In dn depth_names /\ is_unique didx = true.

(** The anomaly variable of a gridded dataset: the dimensions time, depth
    (if any), latitude and longitude, the last two under the short or the
    long names; its scalar coordinates, if it has any, have names of their
    own. *)
Definition follows_conventions {V : Type} (da : DataArray V)
  (tidx : Index) (depth : list (string * Index))
  (latn : string) (lati : Index) (lonn : string) (loni : Index) : Prop :=
  da_dims da = ("time", tidx) :: depth ++ [(latn, lati); (lonn, loni)]
  /\ depth_convention depth
  /\ In latn ["lat"; "latitude"]
  /\ In lonn ["lon"; "longitude"]
  /\ NoDup (map fst (da_scalars da))
  /\ (forall n, In n reserved_names -> ~ In n (map fst (da_scalars da))).

(** ** The rest of the program *)

From Stdlib Require Import Qround Permutation.

(** *** [list_available_times] *)

Section RemoteTimes.

Variable V : Type.
Variable server : list event -> string -> result (Dataset V).

(** Lines 78-83, without the [st.cache_data] decorator: the time axis of the
    dataset, read between an open and a close. *)
Definition list_available_times : IO Index :=
  ds <~ _open_ds server ERDDAP_URL ;;
  times <~ io_lift (ds_coord_values ds "time") ;;
  _ <~ ds_close ;;
  io_ret times.

End RemoteTimes.

(** *** The default date of the date picker *)

(** Nanoseconds in a day; a timestamp counts nanoseconds from the epoch. *)
Definition day_ns : Q := 86400000000000 # 1.

(** [Timestamp.date()], as the number of the day since the epoch. *)
Definition date_of (t : Q) : Z := Qfloor (t / day_ns).

(** [pd.Timestamp(date)]: the midnight that begins the day. *)
Definition timestamp_of_date (d : Z) : Q := inject_Z d * day_ns.

(** [pd.Timestamp("2024-08-15")]: day 19950 since the epoch. *)
Definition DEFAULT_START : Q := timestamp_of_date 19950.

(** Lines 166-175: the bounds [tmin] and [tmax] of the picker and the
    timestamp whose date is its initial value.  On an empty index the bounds
    are the dates of [NaT]; what the comparisons do with them is left out of
    the model. *)
Definition date_bounds (times : Index) : result (Z * Z) :=
  match index_min times, index_max times with
  | Some lo, Some hi => Ok (date_of lo, date_of hi)
  | _, _ => Raise Unmodelled
  end.

Definition default_date (times : Index) : result Q :=
  '(tmin, tmax) <- date_bounds times ;;
  if (date_of DEFAULT_START <? tmin)%Z then Ok (nth 0 times 0%Q)
  else if (tmax <? date_of DEFAULT_START)%Z then Ok (last times 0%Q)
  else Ok DEFAULT_START.

(** *** The sorting step of [plot_cartopy_anomaly] *)

(** A stable insertion sort of labelled positions: [np.lexsort] on one key. *)
Fixpoint insert_by_label (x : Q * nat) (l : list (Q * nat)) : list (Q * nat) :=
  match l with
  | [] => [x]
  | y :: tl =>
      if Qle_bool (fst x) (fst y) then x :: y :: tl
      else y :: insert_by_label x tl
  end.

Definition sort_by_label (l : list (Q * nat)) : list (Q * nat) :=
  fold_right insert_by_label [] l.

(** The positions of an index in ascending order of their labels, equal labels
    in their order of appearance. *)
Definition argsort (idx : Index) : list nat :=
  map snd (sort_by_label (combine idx (seq 0 (length idx)))).

(** The entries of a list at the given positions. *)
Definition take_positions {A : Type} (d : A) (order : list nat) (l : list A)
  : list A :=
  map (fun p => nth p l d) order.

Section Plot.

Variable V : Type.

(** [da.isel({name: order})] for an array of positions on axis [k]. *)
Definition isel_positions (k : nat) (order : list nat) (da : DataArray V)
  : DataArray V :=
  {| da_dims := update_nth k
                  (fun d => (fst d, take_positions 0%Q order (snd d)))
                  (da_dims da);
     da_scalars := da_scalars da;
     da_values := nd_on_axis (take_positions (Axis []) order) k (da_values da) |}.

(** [da.sortby(name)]: the array along the dimension of the coordinate, in
    ascending order of its labels.  A coordinate that is no dimension is not
    one-dimensional, which [sortby] refuses with [ValueError]. *)
Definition sortby (name : string) (da : DataArray V) : result (DataArray V) :=
  match find_dim name (da_dims da) with
  | Some (k, idx) => Ok (isel_positions k (argsort idx) da)
  | None =>
      if name_in name (map fst (da_scalars da)) then Raise ValueError
      else Raise KeyError
  end.

(** Lines 142-143 of [plot_cartopy_anomaly]: the field as it is handed to
    [pcolormesh]. *)
Definition sorted_for_plot (da : DataArray V) : result (DataArray V) :=
  if name_in "lon" (coord_names da) then sortby "lon" da else Ok da.

End Plot.

(** ** Vocabulary of the further properties *)

(** The grid longitudes a box selects: those of the closed range, or, for a
    box across the antimeridian, those from [lon_min] up to 180 followed by
    those from -180 up to [lon_max]. *)
Definition lon_selection (lon_min lon_max : Q) (idx : Index) : Index :=
  if Qle_bool lon_min lon_max
  then filter (in_closed_range lon_min lon_max) idx
  else filter (in_closed_range lon_min 180%Q) idx
       ++ filter (in_closed_range (-180)%Q lon_max) idx.

(** The labels that the slice from [a] to [b] keeps on an ascending index of
    any dtype: those between the labels that the two bounds stand for. *)
Definition slice_labels (cast : Q -> Q) (idx : Index) (a b : Q) : Index :=
  filter (in_closed_range (bound_label cast idx a) (bound_label cast idx b))
    idx.

Definition lon_labels (cast : Q -> Q) (lon_min lon_max : Q) (idx : Index)
  : Index :=
  if Qle_bool lon_min lon_max
  then slice_labels cast idx lon_min lon_max
  else slice_labels cast idx lon_min 180%Q
       ++ slice_labels cast idx (-180)%Q lon_max.

(** Rounding the bound [x] to the dtype of the index does not carry it past
    a label of the index: so it is for every rounding that is monotone and
    leaves the labels of the index as they are. *)
Definition rounds_within (cast : Q -> Q) (idx : Index) (x : Q) : Prop :=
  Forall (fun y => ((x <= y)%Q -> (held_as cast x <= y)%Q)
                   /\ ((y <= x)%Q -> (y <= held_as cast x)%Q)) idx.

(** A box all of whose bounds, and the two ends of the longitude range, are
    held as they are by the dtypes of the latitude and longitude axes. *)
Definition box_representable (casts : string -> Q -> Q) (bbox : BBox) : Prop :=
  let '(lat_min, lat_max, lon_min, lon_max) := bbox in
  representable (casts "lat") lat_min
  /\ representable (casts "lat") lat_max
  /\ representable (casts "lon") lon_min
  /\ representable (casts "lon") lon_max
  /\ representable (casts "lon") 180%Q
  /\ representable (casts "lon") (-180)%Q.

(** The anomaly variable at its first depth level: the variable itself when
    it has no depth axis. *)
Definition surface_of {V : Type} (da : DataArray V)
  (depth : list (string * Index)) : DataArray V :=
  match depth with
  | [] => da
  | (dn, didx) :: _ => isel_int 1 dn didx 0 false da
  end.

Unset Implicit Arguments.

(** ** Concrete data for the examples *)

Module Examples.

Definition row (l : list Z) : nd Z := Axis (map Cell l).
Definition grid (l : list (list Z)) : nd Z := Axis (map row l).

(** A dataset that answers only under the suffixed name. *)
Definition ds_empty : Dataset Z := mkDS [] [].

Definition server_nc_only (log : list event) (url : string)
  : result (Dataset Z) :=
  if String.eqb url "http://host/sst.nc" then Ok ds_empty
  else Raise (OpenError url).

(** A service that is down: every open fails, with the URL in the message. *)
Definition server_down (log : list event) (url : string)
  : result (Dataset Z) :=
  Raise (OpenError url).

(** Three days of a 2 x 2 grid under the long coordinate names, with a
    one-level depth axis. *)
Definition sst_times : Index := [100#1; 200#1; 300#1]%Q.

Definition anom_sst : DataArray Z :=
  mkDA [("time", sst_times); ("zlev", [0#1]%Q);
        ("latitude", [-10#1; 10#1]%Q); ("longitude", [0#1; 1#1]%Q)]
       []
       (Axis [Axis [grid [[1; 2]; [3; 4]]];
              Axis [grid [[5; 6]; [7; 8]]];
              Axis [grid [[9; 10]; [11; 12]]]])%Z.

Definition ds_sst : Dataset Z :=
  mkDS [("time", sst_times)] [("anom", anom_sst)].

(** A 3 x 5 field on an ascending latitude axis, and the same values on a
    descending one. *)
Definition lons : Index := [-180#1; -175#1; 0#1; 175#1; 180#1]%Q.

Definition cells : nd Z :=
  grid [[1; 2; 3; 4; 5]; [6; 7; 8; 9; 10]; [11; 12; 13; 14; 15]]%Z.

Definition field_asc : DataArray Z :=
  mkDA [("lat", [-10#1; 0#1; 10#1]%Q); ("lon", lons)] [] cells.

Definition field_desc : DataArray Z :=
  mkDA [("lat", [10#1; 0#1; -10#1]%Q); ("lon", lons)] [] cells.

(** The latitudes of [field_asc] from 0 up, and the columns of that east of
    170 and west of -170. *)
Definition north : DataArray Z := isel_slice 0 1 3 field_asc.
Definition east : DataArray Z := isel_slice 1 3 5 north.
Definition west : DataArray Z := isel_slice 1 0 2 north.

(** A field that stays clear of the antimeridian. *)
Definition field_mid : DataArray Z :=
  mkDA [("lat", [-10#1; 10#1]%Q); ("lon", [0#1; 10#1]%Q)] []
       (grid [[1; 2]; [3; 4]]%Z).

(** One day of a grid that uses the short names already and has no depth
    axis. *)
Definition ds_short : Dataset Z :=
  mkDS [("time", [100#1]%Q)]
       [("anom",
         mkDA [("time", [100#1]%Q);
               ("lat", [-10#1; 10#1]%Q); ("lon", [0#1; 1#1]%Q)]
              []
              (Axis [grid [[1; 2]; [3; 4]]])%Z)].

(** A dataset along one parallel: its latitude axis has a single entry. *)
Definition anom_one_lat : DataArray Z :=
  mkDA [("time", [100#1; 200#1]%Q);
        ("lat", [0#1]%Q); ("lon", [0#1; 1#1; 2#1]%Q)]
       []
       (Axis [grid [[1; 2; 3]]; grid [[4; 5; 6]]])%Z.

Definition ds_one_lat : Dataset Z :=
  mkDS [("time", [100#1; 200#1]%Q)] [("anom", anom_one_lat)].

(** A dataset whose depth axis lists its first level twice. *)
Definition anom_two_surfaces : DataArray Z :=
  mkDA [("time", [100#1]%Q); ("zlev", [0#1; 0#1]%Q);
        ("lat", [-10#1; 10#1]%Q); ("lon", [0#1; 1#1]%Q)]
       []
       (Axis [Axis [grid [[1; 2]; [3; 4]]; grid [[5; 6]; [7; 8]]]])%Z.

Definition ds_two_surfaces : Dataset Z :=
  mkDS [("time", [100#1]%Q)] [("anom", anom_two_surfaces)].

End Examples.

(** ** Concrete data for the further properties *)

Module Cases.

(** A service that answers the plain URL with the three-day dataset. *)
Definition server_sst (log : list event) (url : string)
  : result (Dataset Z) :=
  if String.eqb url ERDDAP_URL then Ok Examples.ds_sst
  else Raise (OpenError url).

(** A service that answers with a dataset that has no time coordinate. *)
Definition server_no_time (log : list event) (url : string)
  : result (Dataset Z) :=
  Ok Examples.ds_empty.

(** A dataset that carries a scalar coordinate [lat] beside its dimension
    [latitude]. *)
Definition anom_clash : DataArray Z :=
  mkDA [("time", [100#1]%Q);
        ("latitude", [-10#1; 10#1]%Q); ("longitude", [0#1; 1#1]%Q)]
       [("lat", 0#1)]
       (Axis [Examples.grid [[1; 2]; [3; 4]]])%Z.

Definition ds_clash : Dataset Z :=
  mkDS [("time", [100#1]%Q)] [("anom", anom_clash)].

(** Two days, both after 2024-08-15 (day 19950): days 20000 and 20001, the
    second at noon. *)
Definition late_times : Index :=
  [timestamp_of_date 20000;
   (timestamp_of_date 20001 + (43200000000000 # 1))%Q].

(** Two days of the 3 x 5 grid under the short names, and a service that
    answers the plain URL with them. *)
Definition anom_grid : DataArray Z :=
  mkDA [("time", [100#1; 200#1]%Q);
        ("lat", [-10#1; 0#1; 10#1]%Q); ("lon", Examples.lons)]
       []
       (Axis [Examples.cells;
              Examples.grid [[16; 17; 18; 19; 20]; [21; 22; 23; 24; 25];
                             [26; 27; 28; 29; 30]]%Z]).

Definition ds_grid : Dataset Z :=
  mkDS [("time", [100#1; 200#1]%Q)] [("anom", anom_grid)].

Definition server_grid (log : list event) (url : string)
  : result (Dataset Z) :=
  if String.eqb url ERDDAP_URL then Ok ds_grid else Raise (OpenError url).

End Cases.

(** ** Concrete dtypes and the data that tell them apart *)

Module Dtypes.

(** The nearest integer, ties to the even one. *)
Definition round_half_even (x : Q) : Z :=
  let f := Qfloor x in
  match Qcompare (x - inject_Z f) (1 # 2) with
  | Lt => f
  | Gt => (f + 1)%Z
  | Eq => if Z.even f then f else (f + 1)%Z
  end.

(** The binary exponent of a number other than 0: the largest [e] with
    [2^e <= |x|]. *)
Definition exponent (x : Q) : Z :=
  let a := Qabs x in
  let e0 := (Z.log2 (Qnum a) - Z.log2 (Zpos (Qden a)))%Z in
  if Qle_bool (Qpower 2 e0) a then e0 else (e0 - 1)%Z.

(** Rounding to float32, for numbers below its overflow threshold: 24
    significant binary digits, exponents from -126 up, ties to even. *)
Definition float32_of (x : Q) : Q :=
  if Qeq_bool x 0 then 0%Q
  else
    let e := Z.max (exponent x) (-126) in
    let ulp := Qpower 2 (e - 23) in
    (inject_Z (round_half_even (x / ulp)) * ulp)%Q.

(** A grid all of whose coordinates are float32. *)
Definition float32 (name : string) (x : Q) : Q := float32_of x.

(** 0.3 and 0.7 as float32 holds them: the first above, the second below the
    number. *)
Definition f32_0_3 : Q := 5033165 # 16777216.
Definition f32_0_7 : Q := 11744051 # 16777216.

(** A 2 x 2 field on the float32 labels 0 and 0.3. *)
Definition field_f32 : DataArray Z :=
  mkDA [("lat", [0#1; f32_0_3]%Q); ("lon", [0#1; f32_0_3]%Q)] []
       (Examples.grid [[1; 2]; [3; 4]]%Z).

(** A field along one parallel, its latitude kept as a scalar coordinate
    only. *)
Definition field_scalar_lat : DataArray Z :=
  mkDA [("lon", [0#1; 10#1]%Q)] [("lat", 0#1)] (Examples.row [1; 2]%Z).




End Dtypes.

(** * Properties *)

(** ** The opener *)

Section OpenerFacts.

Variable V : Type.
Variable server : list event -> string -> result (Dataset V).

Lemma open_ds_first_ok (log : list event) (url : string) (ds : Dataset V) :
  server log url = Ok ds ->
  _open_ds server url log = (log ++ [EvOpen url], Ok ds).
Proof.
  intros H. unfold _open_ds, io_try, xr_open_dataset. now rewrite H.
Qed.

Lemma open_ds_first_fails (log : list event) (url : string) (e : exn) :
  server log url = Raise e ->
  _open_ds server url log
  = xr_open_dataset server (url ++ ".nc")%string (log ++ [EvOpen url]).
Proof.
  intros H. unfold _open_ds, io_try.
  unfold xr_open_dataset at 1. now rewrite H.
Qed.

Lemma open_ds_attempts (log : list event) (url : string) :
  fst (_open_ds server url log) = log ++ [EvOpen url]
  \/ fst (_open_ds server url log)
     = log ++ [EvOpen url; EvOpen (url ++ ".nc")%string].
Proof.
  destruct (server log url) as [ds|e] eqn:H.
  - left. now rewrite (open_ds_first_ok _ _ _ H).
  - right. rewrite (open_ds_first_fails _ _ _ H).
    unfold xr_open_dataset. simpl. now rewrite <- app_assoc.
Qed.

End OpenerFacts.

Lemma append_assoc (a b c : string) :
  ((a ++ b) ++ c)%string = (a ++ (b ++ c))%string.
Proof.
  induction a as [|ch a IH]; simpl; [reflexivity | now rewrite IH].
Qed.

(** C7. When the open of the plain URL fails and the open of the URL with
    [.nc] appended succeeds, [_open_ds] returns the dataset of the suffixed
    open: its outcome is that of opening the suffixed URL directly, at the
    point the failed attempt has left the service in; and where the answers
    of the service do not depend on what went before, it is the dataset that
    opening the suffixed URL in place of the call returns. *)
Theorem open_ds_fallback_returns_suffixed
  (V : Type) (server : list event -> string -> result (Dataset V))
  (log : list event) (url : string) (e : exn) (ds : Dataset V) :
  server log url = Raise e ->
  server (log ++ [EvOpen url]) (url ++ ".nc")%string = Ok ds ->
  snd (_open_ds server url log) = Ok ds
  /\ _open_ds server url log
     = xr_open_dataset server (url ++ ".nc")%string (log ++ [EvOpen url])
  /\ ((forall (l l' : list event) (u : string), server l u = server l' u) ->
      snd (_open_ds server url log)
      = snd (xr_open_dataset server (url ++ ".nc")%string log)).
Proof.
  intros H1 H2. rewrite (open_ds_first_fails _ _ _ _ _ H1).
  split; [|split; [reflexivity|]].
  - unfold xr_open_dataset. simpl. exact H2.
  - intros Hs. unfold xr_open_dataset. simpl. apply Hs.
Qed.

Lemma open_ds_fallback_returns_suffixed_witness :
  snd (_open_ds Examples.server_nc_only "http://host/sst" [])
  = Ok Examples.ds_empty
  /\ _open_ds Examples.server_nc_only "http://host/sst" []
     = xr_open_dataset Examples.server_nc_only "http://host/sst.nc"
         [EvOpen "http://host/sst"]
  /\ snd (_open_ds Examples.server_nc_only "http://host/sst" [])
     = snd (xr_open_dataset Examples.server_nc_only "http://host/sst.nc" []).
Proof.
  destruct (open_ds_fallback_returns_suffixed Z Examples.server_nc_only []
              "http://host/sst" (OpenError "http://host/sst")
              Examples.ds_empty eq_refl eq_refl) as (H1 & H2 & H3).
  split; [exact H1|]. split; [exact H2|].
  apply H3. reflexivity.
Defined.

(** C8. When both opens fail, [_open_ds] raises, and the service has seen
    exactly two attempts: the plain URL and the suffixed one. *)
Theorem open_ds_both_fail
  (V : Type) (server : list event -> string -> result (Dataset V))
  (log : list event) (url : string) (e1 e2 : exn) :
  server log url = Raise e1 ->
  server (log ++ [EvOpen url]) (url ++ ".nc")%string = Raise e2 ->
  _open_ds server url log
  = (log ++ [EvOpen url; EvOpen (url ++ ".nc")%string], Raise e2).
Proof.
  intros H1 H2. rewrite (open_ds_first_fails _ _ _ _ _ H1).
  unfold xr_open_dataset. rewrite H2, <- app_assoc. reflexivity.
Qed.

Lemma open_ds_both_fail_witness :
  _open_ds Examples.server_down "http://host/sst" []
  = ([EvOpen "http://host/sst"; EvOpen "http://host/sst.nc"],
     Raise (OpenError "http://host/sst.nc")).
Proof.
  apply (open_ds_both_fail Z Examples.server_down [] "http://host/sst"
           (OpenError "http://host/sst") (OpenError "http://host/sst.nc"));
    reflexivity.
Defined.

(** C10. Whatever the first open raises is dropped, and the second open is
    made at the URL with [.nc] appended, also when the URL ends in [.nc]
    already (the second attempt is then at [....nc.nc]); when the second open
    raises too, its exception is the one that reaches the caller. *)
Theorem open_ds_suffix_unconditional
  (V : Type) (server : list event -> string -> result (Dataset V))
  (log : list event) (url : string) (e1 : exn) :
  server log url = Raise e1 ->
  fst (_open_ds server url log)
  = log ++ [EvOpen url; EvOpen (url ++ ".nc")%string]
  /\ snd (_open_ds server url log)
     = server (log ++ [EvOpen url]) (url ++ ".nc")%string
  /\ (forall e2 : exn,
         server (log ++ [EvOpen url]) (url ++ ".nc")%string = Raise e2 ->
         snd (_open_ds server url log) = Raise e2)
  /\ (forall base : string,
         url = (base ++ ".nc")%string ->
         fst (_open_ds server url log)
         = log ++ [EvOpen (base ++ ".nc")%string;
                   EvOpen (base ++ ".nc.nc")%string]).
Proof.
  intros H1. rewrite (open_ds_first_fails _ _ _ _ _ H1).
  unfold xr_open_dataset. simpl. rewrite <- app_assoc. simpl.
  repeat split.
  - intros e2 H2. exact H2.
  - intros base ->. now rewrite append_assoc.
Qed.

Lemma open_ds_suffix_unconditional_witness :
  fst (_open_ds Examples.server_down "http://host/sst.nc" [])
  = [EvOpen "http://host/sst.nc"; EvOpen "http://host/sst.nc.nc"]
  /\ snd (_open_ds Examples.server_down "http://host/sst.nc" [])
     = Raise (OpenError "http://host/sst.nc.nc").
Proof.
  destruct (open_ds_suffix_unconditional Z Examples.server_down []
              "http://host/sst.nc" (OpenError "http://host/sst.nc")
              eq_refl) as (H1 & H2 & _ & _).
  split; [exact H1 | exact H2].
Defined.

(** ** Labels and their comparisons *)

Lemma Qlt_bool_iff (x y : Q) : Qlt_bool x y = true <-> (x < y)%Q.
Proof.
  unfold Qlt_bool. rewrite negb_true_iff. split.
  - intros H. apply Qnot_le_lt. intros L.
    apply Qle_bool_iff in L. congruence.
  - intros H. destruct (Qle_bool y x) eqn:E; [|reflexivity].
    apply Qle_bool_iff in E. exfalso. exact (Qlt_not_le _ _ H E).
Qed.

Lemma Qlt_bool_false_iff (x y : Q) : Qlt_bool x y = false <-> (y <= x)%Q.
Proof.
  unfold Qlt_bool. rewrite negb_false_iff. apply Qle_bool_iff.
Qed.

Lemma Qle_bool_false_iff (x y : Q) : Qle_bool x y = false <-> (y < x)%Q.
Proof.
  rewrite <- Qlt_bool_iff. unfold Qlt_bool.
  destruct (Qle_bool x y); simpl; intuition congruence.
Qed.

Lemma Qeq_bool_refl (x : Q) : Qeq_bool x x = true.
Proof. apply Qeq_bool_iff. reflexivity. Qed.

Lemma Qle_bool_refl (x : Q) : Qle_bool x x = true.
Proof. apply Qle_bool_iff. apply Qle_refl. Qed.

Lemma Qlt_bool_irrefl (x : Q) : Qlt_bool x x = false.
Proof. unfold Qlt_bool. now rewrite Qle_bool_refl. Qed.

(** Every lookup of the model sees a label only through comparisons, so two
    equal rationals written differently are looked up alike. *)
Section LabelCompat.

Variables x x' : Q.
Hypothesis Hx : (x == x')%Q.

Lemma Qle_bool_compat_r (y : Q) : Qle_bool y x = Qle_bool y x'.
Proof. now rewrite Hx. Qed.

Lemma Qlt_bool_compat_r (y : Q) : Qlt_bool y x = Qlt_bool y x'.
Proof. unfold Qlt_bool. now rewrite Hx. Qed.

Lemma Qeq_bool_compat_r (y : Q) : Qeq_bool y x = Qeq_bool y x'.
Proof. now rewrite Hx. Qed.

Lemma label_mask_compat (idx : Index) : label_mask idx x = label_mask idx x'.
Proof.
  unfold label_mask. apply map_ext. intros y. apply Qeq_bool_compat_r.
Qed.

Lemma prefix_len_ext {A : Type} (p q : A -> bool) (l : list A) :
  (forall a, p a = q a) -> prefix_len p l = prefix_len q l.
Proof.
  intros E. induction l as [|a l IH]; simpl; [reflexivity|].
  rewrite E, IH. reflexivity.
Qed.

Lemma searchsorted_compat (idx : Index) (side : Side) :
  searchsorted idx x side = searchsorted idx x' side.
Proof.
  destruct side; simpl; apply prefix_len_ext; intros y.
  - apply Qlt_bool_compat_r.
  - apply Qle_bool_compat_r.
Qed.

Lemma get_loc_compat (idx : Index) : get_loc idx x = get_loc idx x'.
Proof. unfold get_loc. now rewrite label_mask_compat. Qed.

Lemma held_as_compat (cast : Q -> Q) : held_as cast x = held_as cast x'.
Proof. unfold held_as. now rewrite (Qred_complete x x' Hx). Qed.

Lemma engine_lookup_compat (cast : Q -> Q) (idx : Index) :
  get_loc idx (engine_key cast idx x) = get_loc idx (engine_key cast idx x').
Proof.
  unfold engine_key. rewrite held_as_compat.
  destruct (is_unique idx); [reflexivity|].
  destruct (is_monotonic_increasing idx); [apply get_loc_compat | reflexivity].
Qed.

Lemma get_slice_bound_compat (cast : Q -> Q) (idx : Index) (side : Side) :
  get_slice_bound cast idx x side = get_slice_bound cast idx x' side.
Proof.
  unfold get_slice_bound, _searchsorted_monotonic.
  rewrite engine_lookup_compat, !searchsorted_compat. reflexivity.
Qed.

End LabelCompat.

Lemma slice_indexer_compat (cast : Q -> Q) (idx : Index) (a a' b b' : Q) :
  (a == a')%Q -> (b == b')%Q ->
  slice_indexer cast idx a b = slice_indexer cast idx a' b'.
Proof.
  intros Ha Hb. unfold slice_indexer.
  rewrite (get_slice_bound_compat a a' Ha cast idx SideLeft).
  destruct (get_slice_bound cast idx a' SideLeft); simpl; [|reflexivity].
  now rewrite (get_slice_bound_compat b b' Hb cast idx SideRight).
Qed.

Lemma sel_slice_compat (V : Type) (casts : string -> Q -> Q) (name : string)
  (a a' b b' : Q) (da : DataArray V) :
  (a == a')%Q -> (b == b')%Q ->
  sel_slice casts name a b da = sel_slice casts name a' b' da.
Proof.
  intros Ha Hb. unfold sel_slice.
  destruct (find_dim name (da_dims da)) as [[k idx]|]; [|reflexivity].
  now rewrite (slice_indexer_compat (casts name) idx a a' b b' Ha Hb).
Qed.

(** ** Time coverage *)

Lemma fold_min_le (l : Index) (x : Q) : (fold_left Qmin_bool l x <= x)%Q.
Proof.
  revert x. induction l as [|y l IH]; intros x; simpl.
  - apply Qle_refl.
  - eapply Qle_trans; [apply IH|]. unfold Qmin_bool.
    destruct (Qle_bool x y) eqn:E.
    + apply Qle_refl.
    + apply Qle_bool_false_iff in E. now apply Qlt_le_weak.
Qed.

Lemma fold_max_ge (l : Index) (x : Q) : (x <= fold_left Qmax_bool l x)%Q.
Proof.
  revert x. induction l as [|y l IH]; intros x; simpl.
  - apply Qle_refl.
  - eapply Qle_trans; [|apply IH]. unfold Qmax_bool.
    destruct (Qle_bool x y) eqn:E.
    + now apply Qle_bool_iff.
    + apply Qle_refl.
Qed.

Lemma index_min_le_max (idx : Index) (t0 t1 : Q) :
  index_min idx = Some t0 -> index_max idx = Some t1 -> (t0 <= t1)%Q.
Proof.
  destruct idx as [|x l]; simpl; [discriminate|].
  intros [= <-] [= <-].
  eapply Qle_trans; [apply fold_min_le | apply fold_max_ge].
Qed.

(** The bounds of the coverage bound every time of the index. *)
Lemma fold_min_lower (l : Index) (x y : Q) :
  In y (x :: l) -> (fold_left Qmin_bool l x <= y)%Q.
Proof.
  revert x. induction l as [|z l IH]; intros x H; simpl.
  - destruct H as [->|[]]. apply Qle_refl.
  - assert (M : (Qmin_bool x z <= x)%Q /\ (Qmin_bool x z <= z)%Q).
    { unfold Qmin_bool. destruct (Qle_bool x z) eqn:E.
      - split; [apply Qle_refl | now apply Qle_bool_iff].
      - split; [|apply Qle_refl].
        apply Qle_bool_false_iff in E. now apply Qlt_le_weak. }
    destruct H as [->|[->|H]].
    + eapply Qle_trans; [apply fold_min_le | apply M].
    + eapply Qle_trans; [apply fold_min_le | apply M].
    + apply IH. now right.
Qed.

Lemma fold_max_upper (l : Index) (x y : Q) :
  In y (x :: l) -> (y <= fold_left Qmax_bool l x)%Q.
Proof.
  revert x. induction l as [|z l IH]; intros x H; simpl.
  - destruct H as [->|[]]. apply Qle_refl.
  - assert (M : (x <= Qmax_bool x z)%Q /\ (z <= Qmax_bool x z)%Q).
    { unfold Qmax_bool. destruct (Qle_bool x z) eqn:E.
      - split; [now apply Qle_bool_iff | apply Qle_refl].
      - split; [apply Qle_refl|].
        apply Qle_bool_false_iff in E. now apply Qlt_le_weak. }
    destruct H as [->|[->|H]].
    + eapply Qle_trans; [apply M | apply fold_max_ge].
    + eapply Qle_trans; [apply M | apply fold_max_ge].
    + apply IH. now right.
Qed.

Lemma coverage_bounds (idx : Index) (t0 t1 : Q) :
  index_min idx = Some t0 -> index_max idx = Some t1 ->
  forall t, In t idx -> (t0 <= t <= t1)%Q.
Proof.
  destruct idx as [|x l]; simpl; [discriminate|].
  intros [= <-] [= <-] t H. split.
  - now apply fold_min_lower.
  - now apply fold_max_upper.
Qed.

Lemma clamp_time_before (times : Index) (t0 t1 t : Q) :
  index_min times = Some t0 -> index_max times = Some t1 ->
  (t < t0)%Q -> clamp_time times t = t0.
Proof.
  intros H0 H1 L. unfold clamp_time. rewrite H0, H1.
  apply Qlt_bool_iff in L. now rewrite L.
Qed.

Lemma clamp_time_after (times : Index) (t0 t1 t : Q) :
  index_min times = Some t0 -> index_max times = Some t1 ->
  (t1 < t)%Q -> clamp_time times t = t1.
Proof.
  intros H0 H1 L. unfold clamp_time. rewrite H0, H1.
  pose proof (index_min_le_max _ _ _ H0 H1) as M.
  assert (E : Qlt_bool t t0 = false).
  { apply Qlt_bool_false_iff. apply Qlt_le_weak.
    eapply Qle_lt_trans; eassumption. }
  rewrite E. apply Qlt_bool_iff in L. now rewrite L.
Qed.

Lemma clamp_time_inside (times : Index) (t0 t1 t : Q) :
  index_min times = Some t0 -> index_max times = Some t1 ->
  (t0 <= t <= t1)%Q -> clamp_time times t = t.
Proof.
  intros H0 H1 [L0 L1]. unfold clamp_time. rewrite H0, H1.
  apply Qlt_bool_false_iff in L0, L1. now rewrite L0, L1.
Qed.

Lemma extract_field_clamped (V : Type) (ds : Dataset V) (times : Index)
  (t t' : Q) :
  ds_coord_values ds "time" = Ok times ->
  clamp_time times t = clamp_time times t' ->
  extract_field ds t = extract_field ds t'.
Proof.
  intros Ht E. unfold extract_field.
  destruct (ds_var ds "anom") as [da|]; cbn [bind]; [|reflexivity].
  destruct (select_surface ["zlev"; "depth"; "lev"] da) as [da'|];
    cbn [bind]; [|reflexivity].
  rewrite Ht. cbn [bind]. now rewrite E.
Qed.

(** C1. With the time coordinate of the dataset covering [[t0, t1]], a target
    before [t0] gives the field that [t0] gives and a target after [t1] the
    field that [t1] gives. *)
Theorem standardize_clamps_target_time (V : Type) (ds : Dataset V)
  (times : Index) (t0 t1 t : Q) :
  ds_coord_values ds "time" = Ok times ->
  index_min times = Some t0 ->
  index_max times = Some t1 ->
  ((t < t0)%Q ->
   _standardize_anom_field ds t = _standardize_anom_field ds t0)
  /\ ((t1 < t)%Q ->
      _standardize_anom_field ds t = _standardize_anom_field ds t1).
Proof.
  intros Ht H0 H1.
  pose proof (index_min_le_max _ _ _ H0 H1) as M.
  assert (E0 : clamp_time times t0 = t0).
  { apply (clamp_time_inside _ t0 t1); auto. split; [apply Qle_refl | exact M]. }
  assert (E1 : clamp_time times t1 = t1).
  { apply (clamp_time_inside _ t0 t1); auto. split; [exact M | apply Qle_refl]. }
  unfold _standardize_anom_field. split; intros L.
  - rewrite (extract_field_clamped V ds times t t0 Ht); [reflexivity|].
    rewrite E0. now apply (clamp_time_before _ t0 t1).
  - rewrite (extract_field_clamped V ds times t t1 Ht); [reflexivity|].
    rewrite E1. now apply (clamp_time_after _ t0 t1).
Qed.

Lemma standardize_clamps_target_time_witness :
  _standardize_anom_field Examples.ds_sst (50#1)
  = _standardize_anom_field Examples.ds_sst (100#1)
  /\ _standardize_anom_field Examples.ds_sst (1000#1)
     = _standardize_anom_field Examples.ds_sst (300#1).
Proof.
  split.
  - apply (standardize_clamps_target_time Z Examples.ds_sst
             Examples.sst_times (100#1) (300#1) (50#1)
             eq_refl eq_refl eq_refl).
    reflexivity.
  - apply (standardize_clamps_target_time Z Examples.ds_sst
             Examples.sst_times (100#1) (300#1) (1000#1)
             eq_refl eq_refl eq_refl).
    reflexivity.
Defined.

(** ** The latitude bounds in either order *)

Lemma select_lat_sym (V : Type) (casts : string -> Q -> Q)
  (da : DataArray V) (a b : Q) :
  select_lat casts da a b = select_lat casts da b a.
Proof.
  unfold select_lat.
  destruct (Qle_bool a b) eqn:Hab, (Qle_bool b a) eqn:Hba; try reflexivity.
  - apply Qle_bool_iff in Hab, Hba.
    assert (E : (a == b)%Q) by (apply Qle_antisym; assumption).
    apply sel_slice_compat; [exact E | symmetry; exact E].
  - apply Qle_bool_false_iff in Hab, Hba.
    exfalso. exact (Qlt_irrefl a (Qlt_trans _ _ _ Hba Hab)).
Qed.

(** C5. The latitude step, and with it the whole selection, does not depend
    on the order in which the two latitude bounds are given. *)
Theorem select_bbox_lat_bounds_swap (V : Type) (casts : string -> Q -> Q)
  (da : DataArray V) (a b lon_min lon_max : Q) :
  select_lat casts da a b = select_lat casts da b a
  /\ select_bbox casts da (Some (a, b, lon_min, lon_max))
     = select_bbox casts da (Some (b, a, lon_min, lon_max)).
Proof.
  split; [apply select_lat_sym|].
  unfold select_bbox. now rewrite select_lat_sym.
Qed.

(** ** Shapes *)

Lemma Forall_firstn {A : Type} (P : A -> Prop) (n : nat) (l : list A) :
  Forall P l -> Forall P (firstn n l).
Proof.
  intros H. revert n. induction H as [|x l Hx _ IH]; intros [|n]; simpl;
    constructor; auto.
Qed.

Lemma Forall_skipn {A : Type} (P : A -> Prop) (n : nat) (l : list A) :
  Forall P l -> Forall P (skipn n l).
Proof.
  intros H. revert n. induction H as [|x l Hx Hl IH]; intros [|n]; simpl;
    auto.
Qed.

Lemma py_slice_length {A : Type} (s e : nat) (l : list A) :
  length (py_slice s e l) = Nat.min e (length l) - s.
Proof. unfold py_slice. now rewrite length_skipn, length_firstn. Qed.

Lemma py_slice_Forall {A : Type} (P : A -> Prop) (s e : nat) (l : list A) :
  Forall P l -> Forall P (py_slice s e l).
Proof. intros H. unfold py_slice. now apply Forall_skipn, Forall_firstn. Qed.

Lemma mask_select_Forall {A : Type} (P : A -> Prop) (m : list bool)
  (l : list A) :
  Forall P l -> Forall P (mask_select m l).
Proof.
  intros H. revert m. induction H as [|x l Hx _ IH]; intros [|[|] m]; simpl;
    auto.
Qed.

Lemma mask_select_length {A B : Type} (m : list bool) (l : list A)
  (l' : list B) :
  length l = length l' ->
  length (mask_select m l) = length (mask_select m l').
Proof.
  revert l l'. induction m as [|b m IH]; intros [|x l] [|y l'] H;
    simpl in *; try reflexivity; try discriminate.
  destruct b; simpl; auto.
Qed.

Section Shapes.

Variable V : Type.

Lemma has_shape_axis (n : nat) (sh : list nat) (xs : list (nd V)) :
  has_shape (n :: sh) (Axis xs) = true
  <-> length xs = n /\ Forall (fun a => has_shape sh a = true) xs.
Proof.
  cbn [has_shape]. rewrite andb_true_iff, Nat.eqb_eq, forallb_forall,
    Forall_forall. reflexivity.
Qed.

(** An operation on the sub-arrays of one axis that only keeps sub-arrays it
    is given, and turns [n] of them into [m]. *)
Lemma has_shape_on_axis (f : list (nd V) -> list (nd V)) (n m : nat) :
  (forall xs : list (nd V), length xs = n -> length (f xs) = m) ->
  (forall (P : nd V -> Prop) xs, Forall P xs -> Forall P (f xs)) ->
  forall (k : nat) (sh : list nat) (v : nd V),
    has_shape sh v = true ->
    nth_error sh k = Some n ->
    has_shape (update_nth k (fun _ => m) sh) (nd_on_axis f k v) = true.
Proof.
  intros Hlen Hsub. induction k as [|k IH]; intros sh v H Hk.
  - destruct sh as [|n' sh]; [discriminate Hk|]. injection Hk as ->.
    destruct v as [c|xs]; [discriminate H|].
    apply has_shape_axis in H as [L F]. cbn [update_nth nd_on_axis].
    apply has_shape_axis. split; [now apply Hlen | now apply Hsub].
  - destruct sh as [|n' sh]; [discriminate Hk|]. cbn [nth_error] in Hk.
    destruct v as [c|xs]; [discriminate H|].
    apply has_shape_axis in H as [L F]. cbn [update_nth nd_on_axis].
    apply has_shape_axis. split; [now rewrite length_map|].
    apply Forall_map. eapply Forall_impl; [|exact F].
    intros a Ha. now apply IH.
Qed.

(** One position along an axis. *)
Lemma has_shape_take (k p : nat) :
  forall (sh : list nat) (v : nd V) (n : nat),
    has_shape sh v = true ->
    nth_error sh k = Some n ->
    p < n ->
    has_shape (remove_nth k sh) (nd_take k p v) = true.
Proof.
  induction k as [|k IH]; intros sh v n H Hk Hp.
  - destruct sh as [|n' sh]; [discriminate Hk|]. injection Hk as ->.
    destruct v as [c|xs]; [discriminate H|].
    apply has_shape_axis in H as [L F]. cbn [remove_nth nd_take].
    rewrite Forall_forall in F. apply F. apply nth_In. lia.
  - destruct sh as [|n' sh]; [discriminate Hk|]. cbn [nth_error] in Hk.
    destruct v as [c|xs]; [discriminate H|].
    apply has_shape_axis in H as [L F]. cbn [remove_nth nd_take].
    apply has_shape_axis. split; [now rewrite length_map|].
    apply Forall_map. eapply Forall_impl; [|exact F].
    intros a Ha. now apply (IH sh a n).
Qed.

Lemma zip_with_shape (f : nd V -> nd V -> nd V) (P Q R : nd V -> Prop)
  (xs ys : list (nd V)) :
  (forall a b, P a -> Q b -> R (f a b)) ->
  Forall P xs -> Forall Q ys -> length xs = length ys ->
  length (zip_with f xs ys) = length xs /\ Forall R (zip_with f xs ys).
Proof.
  intros Hf Hx. revert ys. induction Hx as [|x xs Px _ IH];
    intros ys Hy L.
  - destruct ys; [|discriminate L]. split; [reflexivity | constructor].
  - destruct ys as [|y ys]; [discriminate L|].
    inversion Hy as [|? ? Qy Hys]; subst. injection L as L.
    destruct (IH ys Hys L) as [L' F]. cbn. split; [now rewrite L'|].
    constructor; [now apply Hf | exact F].
Qed.

(** Two arrays that differ in shape along axis [k] at most, joined there. *)
Lemma has_shape_concat (k : nat) :
  forall (sh sh' : list nat) (a b : nd V) (n m : nat),
    has_shape sh a = true ->
    has_shape sh' b = true ->
    nth_error sh k = Some n ->
    nth_error sh' k = Some m ->
    remove_nth k sh = remove_nth k sh' ->
    has_shape (update_nth k (fun _ => n + m) sh) (nd_concat k a b) = true.
Proof.
  induction k as [|k IH]; intros sh sh' a b n m Ha Hb Hn Hm E.
  - destruct sh as [|n' sh]; [discriminate Hn|]. injection Hn as ->.
    destruct sh' as [|m' sh']; [discriminate Hm|]. injection Hm as ->.
    cbn [remove_nth] in E. subst sh'.
    destruct a as [c|xs]; [discriminate Ha|].
    destruct b as [c|ys]; [discriminate Hb|].
    apply has_shape_axis in Ha as [La Fa], Hb as [Lb Fb].
    cbn [update_nth nd_concat]. apply has_shape_axis.
    split; [rewrite length_app; lia | apply Forall_app; now split].
  - destruct sh as [|n' sh]; [discriminate Hn|]. cbn [nth_error] in Hn.
    destruct sh' as [|m' sh']; [discriminate Hm|]. cbn [nth_error] in Hm.
    cbn [remove_nth] in E. injection E as -> E.
    destruct a as [c|xs]; [discriminate Ha|].
    destruct b as [c|ys]; [discriminate Hb|].
    apply has_shape_axis in Ha as [La Fa], Hb as [Lb Fb].
    cbn [update_nth nd_concat]. apply has_shape_axis.
    destruct (zip_with_shape (nd_concat k)
                (fun a => has_shape sh a = true)
                (fun b => has_shape sh' b = true)
                (fun c => has_shape (update_nth k (fun _ => n + m) sh) c = true)
                xs ys) as [L F]; auto; try lia.
    + intros a b Pa Pb. now apply (IH sh sh' a b n m).
    + split; [lia | exact F].
Qed.

Lemma sizes_update_nth (g : list Q -> list Q) (dims : list (string * list Q))
  (k : nat) (idx : list Q) (name : string) :
  find_dim name dims = Some (k, idx) ->
  map (fun d => length (snd d))
      (update_nth k (fun d => (fst d, g (snd d))) dims)
  = update_nth k (fun _ => length (g idx))
      (map (fun d => length (snd d)) dims).
Proof.
  revert k. induction dims as [|[n i] dims IH]; intros k H; simpl in H.
  - discriminate.
  - destruct (String.eqb n name).
    + injection H as <- <-. reflexivity.
    + destruct (find_dim name dims) as [[k' i']|]; [|discriminate].
      injection H as <- <-. cbn [update_nth map]. now rewrite (IH k' eq_refl).
Qed.

Lemma sizes_find_dim (dims : list (string * list Q)) (k : nat) (idx : list Q)
  (name : string) :
  find_dim name dims = Some (k, idx) ->
  nth_error (map (fun d => length (snd d)) dims) k = Some (length idx)
  /\ nth_error dims k = Some (name, idx).
Proof.
  revert k. induction dims as [|[n i] dims IH]; intros k H; simpl in H.
  - discriminate.
  - destruct (String.eqb n name) eqn:En.
    + injection H as <- <-. apply String.eqb_eq in En. subst n. now split.
    + destruct (find_dim name dims) as [[k' i']|]; [|discriminate].
      injection H as <- <-. cbn [map nth_error]. now apply IH.
Qed.

Lemma sizes_remove_nth (dims : list (string * list Q)) (k : nat) :
  map (fun d => length (snd d)) (remove_nth k dims)
  = remove_nth k (map (fun d => length (snd d)) dims).
Proof.
  revert k. induction dims as [|d dims IH]; intros [|k]; simpl;
    try reflexivity.
  now rewrite IH.
Qed.

(** The array operations keep arrays well shaped. *)
Lemma isel_slice_well_shaped (da : DataArray V) (name : string) (k : nat)
  (idx : list Q) (s e : nat) :
  find_dim name (da_dims da) = Some (k, idx) ->
  well_shaped da = true ->
  well_shaped (isel_slice k s e da) = true.
Proof.
  intros Hk H. unfold well_shaped, sizes, isel_slice in *.
  cbn [da_dims da_values].
  rewrite (sizes_update_nth (py_slice s e) _ _ _ _ Hk).
  destruct (sizes_find_dim _ _ _ _ Hk) as [Hn _].
  apply (has_shape_on_axis (py_slice s e) (length idx)); auto.
  - intros xs L. now rewrite !py_slice_length, L.
  - intros P xs. apply py_slice_Forall.
Qed.

Lemma isel_mask_well_shaped (da : DataArray V) (name : string) (k : nat)
  (idx : list Q) (m : list bool) :
  find_dim name (da_dims da) = Some (k, idx) ->
  well_shaped da = true ->
  well_shaped (isel_mask k m da) = true.
Proof.
  intros Hk H. unfold well_shaped, sizes, isel_mask in *.
  cbn [da_dims da_values].
  rewrite (sizes_update_nth (mask_select m) _ _ _ _ Hk).
  destruct (sizes_find_dim _ _ _ _ Hk) as [Hn _].
  apply (has_shape_on_axis (mask_select m) (length idx)); auto.
  - intros xs L. now apply mask_select_length.
  - intros P xs. apply mask_select_Forall.
Qed.

Lemma isel_int_well_shaped (da : DataArray V) (name : string) (k p : nat)
  (idx : list Q) (drop : bool) :
  find_dim name (da_dims da) = Some (k, idx) ->
  p < length idx ->
  well_shaped da = true ->
  well_shaped (isel_int k name idx p drop da) = true.
Proof.
  intros Hk Hp H. unfold well_shaped, sizes, isel_int in *.
  cbn [da_dims da_values]. rewrite sizes_remove_nth.
  destruct (sizes_find_dim _ _ _ _ Hk) as [Hn _].
  now apply (has_shape_take k p _ _ (length idx)).
Qed.

End Shapes.

(** ** Dimensions under slicing and joining *)

Lemma find_dim_update_nth (name : string) (g : Index -> Index)
  (dims : list (string * Index)) (k : nat) (idx : Index) :
  find_dim name dims = Some (k, idx) ->
  find_dim name (update_nth k (fun d => (fst d, g (snd d))) dims)
  = Some (k, g idx).
Proof.
  revert k. induction dims as [|[n i] dims IH]; intros k H; simpl in H.
  - discriminate.
  - destruct (String.eqb n name) eqn:E.
    + injection H as <- <-. simpl. now rewrite E.
    + destruct (find_dim name dims) as [[k' i']|]; [|discriminate].
      injection H as <- <-. simpl. rewrite E.
      now rewrite (IH k' eq_refl).
Qed.

Lemma remove_nth_update_nth {A : Type} (f : A -> A) (l : list A) (k : nat) :
  remove_nth k (update_nth k f l) = remove_nth k l.
Proof.
  revert k. induction l as [|x l IH]; intros [|k]; simpl; try reflexivity.
  now rewrite IH.
Qed.

Lemma update_nth_names (g : Index -> Index) (dims : list (string * Index))
  (k : nat) :
  map fst (update_nth k (fun d => (fst d, g (snd d))) dims) = map fst dims.
Proof.
  revert k. induction dims as [|d dims IH]; intros [|k]; simpl;
    try reflexivity.
  now rewrite IH.
Qed.

Lemma index_eqb_refl (i : Index) : index_eqb i i = true.
Proof.
  unfold index_eqb. rewrite Nat.eqb_refl. simpl.
  induction i as [|x i IH]; simpl; [reflexivity|].
  now rewrite Qeq_bool_refl.
Qed.

Lemma dims_eqb_refl (dims : list (string * Index)) : dims_eqb dims dims = true.
Proof.
  induction dims as [|d dims IH]; simpl; [reflexivity|].
  unfold dim_eqb. now rewrite String.eqb_refl, index_eqb_refl.
Qed.

Lemma scalars_eqb_refl (cs : list (string * Q)) : scalars_eqb cs cs = true.
Proof.
  induction cs as [|c cs IH]; simpl; [reflexivity|].
  unfold scalar_eqb. now rewrite String.eqb_refl, Qeq_bool_refl.
Qed.

Lemma sel_slice_inv (V : Type) (casts : string -> Q -> Q) (name : string)
  (a b : Q) (da r : DataArray V) :
  sel_slice casts name a b da = Ok r ->
  exists k idx s e,
    find_dim name (da_dims da) = Some (k, idx)
    /\ slice_indexer (casts name) idx a b = Ok (s, e)
    /\ r = isel_slice k s e da.
Proof.
  unfold sel_slice. intros H.
  destruct (find_dim name (da_dims da)) as [[k idx]|] eqn:Hk.
  - destruct (slice_indexer (casts name) idx a b) as [[s e]|] eqn:Hs;
      cbn [bind] in H; [|discriminate].
    injection H as <-. now exists k, idx, s, e.
  - destruct (name_in name (map fst (da_scalars da))); discriminate.
Qed.

(** Two slices of one array along one dimension are joined without leaving
    the model of [xr_concat]. *)
Lemma concat_of_slices (V : Type) (name : string) (da : DataArray V)
  (k : nat) (idx : Index) (s e s' e' : nat) :
  find_dim name (da_dims da) = Some (k, idx) ->
  xr_concat (isel_slice k s e da) (isel_slice k s' e' da) name
  = Ok {| da_dims :=
            update_nth k
              (fun d => (fst d, py_slice s e idx ++ py_slice s' e' idx))
              (da_dims da);
          da_scalars := da_scalars da;
          da_values :=
            nd_concat k (nd_on_axis (py_slice s e) k (da_values da))
                        (nd_on_axis (py_slice s' e') k (da_values da)) |}.
Proof.
  intros H. unfold xr_concat, isel_slice. cbn [da_dims da_scalars da_values].
  rewrite (find_dim_update_nth name (py_slice s e) _ _ _ H).
  rewrite (find_dim_update_nth name (py_slice s' e') _ _ _ H).
  rewrite Nat.eqb_refl, !remove_nth_update_nth, dims_eqb_refl,
    scalars_eqb_refl.
  cbn [andb]. f_equal. f_equal.
  clear H. revert k. induction (da_dims da) as [|d l IH]; intros [|k]; simpl;
    try reflexivity.
  now rewrite IH.
Qed.

Lemma nth_error_update_nth {A : Type} (f : A -> A) (l : list A) (k : nat)
  (x : A) :
  nth_error l k = Some x -> nth_error (update_nth k f l) k = Some (f x).
Proof.
  revert k. induction l as [|y l IH]; intros [|k] H; simpl in *;
    try discriminate.
  - now injection H as ->.
  - now apply IH.
Qed.

Lemma update_nth_twice {A : Type} (f g : A -> A) (l : list A) (k : nat) :
  update_nth k f (update_nth k g l) = update_nth k (fun x => f (g x)) l.
Proof.
  revert k. induction l as [|y l IH]; intros [|k]; simpl; try reflexivity.
  now rewrite IH.
Qed.

Lemma concat_of_slices_well_shaped (V : Type) (name : string)
  (da : DataArray V) (k : nat) (idx : list Q) (s e s' e' : nat) :
  find_dim name (da_dims da) = Some (k, idx) ->
  well_shaped da = true ->
  well_shaped
    {| da_dims :=
         update_nth k
           (fun d => (fst d, py_slice s e idx ++ py_slice s' e' idx))
           (da_dims da);
       da_scalars := da_scalars da;
       da_values :=
         nd_concat k (nd_on_axis (py_slice s e) k (da_values da))
                     (nd_on_axis (py_slice s' e') k (da_values da)) |}
  = true.
Proof.
  intros Hk H.
  pose proof (isel_slice_well_shaped V da name k idx s e Hk H) as Hl.
  pose proof (isel_slice_well_shaped V da name k idx s' e' Hk H) as Hr.
  unfold well_shaped, sizes, isel_slice in *. cbn [da_dims da_values] in *.
  rewrite (sizes_update_nth (py_slice s e) _ _ _ _ Hk) in Hl.
  rewrite (sizes_update_nth (py_slice s' e') _ _ _ _ Hk) in Hr.
  rewrite (sizes_update_nth
             (fun _ => py_slice s e idx ++ py_slice s' e' idx) _ _ _ _ Hk).
  destruct (sizes_find_dim _ _ _ _ Hk) as [Hn _].
  rewrite length_app.
  pose proof (has_shape_concat V k _ _ _ _
                (length (py_slice s e idx)) (length (py_slice s' e' idx))
                Hl Hr
                (nth_error_update_nth _ _ _ _ Hn)
                (nth_error_update_nth _ _ _ _ Hn)) as Hc.
  rewrite !remove_nth_update_nth, update_nth_twice in Hc.
  now apply Hc.
Qed.


(** ** Slicing an ascending index *)

Lemma ascending_cons (x : Q) (tl : Index) :
  is_monotonic_increasing (x :: tl) = true ->
  is_monotonic_increasing tl = true /\ Forall (fun y => (x <= y)%Q) tl.
Proof.
  revert x. induction tl as [|y tl IH]; intros x H.
  - split; [reflexivity | constructor].
  - change (Qle_bool x y && is_monotonic_increasing (y :: tl) = true) in H.
    apply andb_true_iff in H as [Hxy Htl]. apply Qle_bool_iff in Hxy.
    split; [exact Htl|].
    destruct (IH y Htl) as [_ F]. constructor; [exact Hxy|].
    eapply Forall_impl; [|exact F]. intros z Hz. cbv beta in *.
    eapply Qle_trans; eassumption.
Qed.

(** An ascending index falls into the labels below [x], the labels equal to
    [x] and the labels above [x], in this order. *)
Lemma ascending_split (idx : Index) (x : Q) :
  is_monotonic_increasing idx = true ->
  exists l1 l2 l3 : Index,
    idx = l1 ++ l2 ++ l3
    /\ Forall (fun y => (y < x)%Q) l1
    /\ Forall (fun y => (y == x)%Q) l2
    /\ Forall (fun y => (x < y)%Q) l3.
Proof.
  induction idx as [|y tl IH]; intros H.
  - exists [], [], []. repeat split; constructor.
  - destruct (ascending_cons y tl H) as [Htl F].
    destruct (IH Htl) as (l1 & l2 & l3 & E & F1 & F2 & F3). subst tl.
    destruct (Q_dec y x) as [[L|G]|E].
    + exists (y :: l1), l2, l3. repeat split; auto.
    + assert (l1 = []) as ->.
      { destruct l1 as [|z l1]; [reflexivity|]. exfalso.
        inversion F1; subst. inversion F; subst. cbv beta in *. lra. }
      assert (l2 = []) as ->.
      { destruct l2 as [|z l2]; [reflexivity|]. exfalso.
        inversion F2; subst. inversion F; subst. cbv beta in *. lra. }
      exists [], [], (y :: l3). repeat split; auto.
    + assert (l1 = []) as ->.
      { destruct l1 as [|z l1]; [reflexivity|]. exfalso.
        inversion F1; subst. inversion F; subst. cbv beta in *. lra. }
      exists [], (y :: l2), l3. repeat split; auto.
Qed.

Lemma map_const {A B : Type} (f : A -> B) (c : B) (l : list A) :
  Forall (fun a => f a = c) l -> map f l = repeat c (length l).
Proof.
  induction 1 as [|a l Ha _ IH]; simpl; [reflexivity|]. now rewrite Ha, IH.
Qed.

Lemma prefix_len_app_all {A : Type} (p : A -> bool) (l r : list A) :
  Forall (fun a => p a = true) l ->
  prefix_len p (l ++ r) = length l + prefix_len p r.
Proof.
  induction 1 as [|a l Ha _ IH]; simpl; [reflexivity|]. now rewrite Ha, IH.
Qed.

Lemma prefix_len_none {A : Type} (p : A -> bool) (l : list A) :
  Forall (fun a => p a = false) l -> prefix_len p l = 0.
Proof.
  destruct 1 as [|a l Ha _]; simpl; [reflexivity|]. now rewrite Ha.
Qed.

Lemma Forall_repeat {A : Type} (P : A -> Prop) (a : A) (n : nat) :
  P a -> Forall P (repeat a n).
Proof. intros H. induction n; simpl; constructor; auto. Qed.

Lemma count_true_app (m1 m2 : list bool) :
  count_true (m1 ++ m2) = count_true m1 + count_true m2.
Proof. unfold count_true. now rewrite filter_app, length_app. Qed.

Lemma count_true_repeat (b : bool) (n : nat) :
  count_true (repeat b n) = if b then n else 0.
Proof.
  unfold count_true. induction n as [|n IH]; simpl.
  - now destruct b.
  - destruct b; simpl; now rewrite IH.
Qed.

(** The mask of a label on a split index, and what the lookups read off it. *)
Lemma label_mask_split (l1 l2 l3 : Index) (x : Q) :
  Forall (fun y => (y < x)%Q) l1 ->
  Forall (fun y => (y == x)%Q) l2 ->
  Forall (fun y => (x < y)%Q) l3 ->
  label_mask (l1 ++ l2 ++ l3) x
  = block_mask (length l1) (length l2) (length l3).
Proof.
  intros F1 F2 F3. unfold label_mask, block_mask. rewrite !map_app.
  f_equal; [|f_equal]; apply map_const.
  - eapply Forall_impl; [|exact F1]. intros y L. cbv beta in *.
    destruct (Qeq_bool y x) eqn:E; [|reflexivity].
    apply Qeq_bool_iff in E. lra.
  - eapply Forall_impl; [|exact F2]. intros y L. now apply Qeq_bool_iff.
  - eapply Forall_impl; [|exact F3]. intros y L. cbv beta in *.
    destruct (Qeq_bool y x) eqn:E; [|reflexivity].
    apply Qeq_bool_iff in E. lra.
Qed.

Lemma count_true_block (n1 n2 n3 : nat) :
  count_true (block_mask n1 n2 n3) = n2.
Proof.
  unfold block_mask. rewrite !count_true_app, !count_true_repeat. lia.
Qed.

Lemma first_true_block (n1 n2 n3 : nat) :
  0 < n2 -> prefix_len negb (block_mask n1 n2 n3) = n1.
Proof.
  intros H. unfold block_mask.
  rewrite prefix_len_app_all by (apply Forall_repeat; reflexivity).
  rewrite repeat_length. destruct n2 as [|n2]; [lia|]. simpl. lia.
Qed.

Lemma skipn_repeat_app {A : Type} (a : A) (n : nat) (r : list A) :
  skipn n (repeat a n ++ r) = r.
Proof. induction n as [|n IH]; simpl; auto. Qed.

Lemma existsb_repeat_false (n : nat) :
  existsb (fun b : bool => b) (repeat false n) = false.
Proof. induction n; simpl; auto. Qed.

Lemma booleans_to_slice_block (n1 n2 n3 : nat) :
  0 < n2 ->
  maybe_booleans_to_slice (block_mask n1 n2 n3) = Some (n1, n1 + n2).
Proof.
  intros H. unfold maybe_booleans_to_slice.
  rewrite (first_true_block n1 n2 n3 H).
  assert (L : (length (block_mask n1 n2 n3) <=? n1) = false).
  { apply Nat.leb_gt. unfold block_mask.
    rewrite !length_app, !repeat_length. lia. }
  rewrite L. unfold block_mask.
  rewrite skipn_repeat_app.
  assert (E : prefix_len (fun b : bool => b) (repeat true n2 ++ repeat false n3)
              = n2).
  { rewrite prefix_len_app_all by (apply Forall_repeat; reflexivity).
    rewrite repeat_length.
    rewrite prefix_len_none by (apply Forall_repeat; reflexivity). lia. }
  rewrite E, skipn_repeat_app, existsb_repeat_false. reflexivity.
Qed.

Lemma searchsorted_split (l1 l2 l3 : Index) (x : Q) :
  Forall (fun y => (y < x)%Q) l1 ->
  Forall (fun y => (y == x)%Q) l2 ->
  Forall (fun y => (x < y)%Q) l3 ->
  searchsorted (l1 ++ l2 ++ l3) x SideLeft = length l1
  /\ searchsorted (l1 ++ l2 ++ l3) x SideRight = length l1 + length l2.
Proof.
  intros F1 F2 F3. unfold searchsorted. split.
  - rewrite prefix_len_app_all.
    + rewrite prefix_len_none; [lia|]. apply Forall_app. split.
      * eapply Forall_impl; [|exact F2]. intros y E. cbv beta in *.
        apply Qlt_bool_false_iff. lra.
      * eapply Forall_impl; [|exact F3]. intros y E. cbv beta in *.
        apply Qlt_bool_false_iff. lra.
    + eapply Forall_impl; [|exact F1]. intros y L. now apply Qlt_bool_iff.
  - rewrite app_assoc, prefix_len_app_all.
    + rewrite prefix_len_none; [rewrite length_app; lia|].
      eapply Forall_impl; [|exact F3]. intros y E. cbv beta in *.
      now apply Qle_bool_false_iff.
    + apply Forall_app. split.
      * eapply Forall_impl; [|exact F1]. intros y L. cbv beta in *.
        apply Qle_bool_iff. lra.
      * eapply Forall_impl; [|exact F2]. intros y L. cbv beta in *.
        apply Qle_bool_iff. lra.
Qed.

(** Whether the index has the label. *)
Lemma existsb_count_true (idx : Index) (z : Q) :
  existsb (fun y => Qeq_bool y z) idx
  = negb (count_true (label_mask idx z) =? 0).
Proof.
  unfold count_true, label_mask.
  induction idx as [|y tl IH]; [reflexivity|].
  cbn [existsb map filter]. destruct (Qeq_bool y z); [reflexivity|].
  exact IH.
Qed.

(** On an ascending index every slice bound is found, and it is the insertion
    point of the label that the bound stands for: before the labels equal to
    it for the start of the slice, after them for its stop. *)
Lemma get_slice_bound_ascending_label (cast : Q -> Q) (idx : Index) (x : Q)
  (side : Side) :
  is_monotonic_increasing idx = true ->
  get_slice_bound cast idx x side
  = Ok (searchsorted idx (bound_label cast idx x) side).
Proof.
  intros H. unfold bound_label. cbv zeta.
  rewrite existsb_count_true.
  set (z := engine_key cast idx x).
  destruct (ascending_split idx z H) as (l1 & l2 & l3 & E & F1 & F2 & F3).
  destruct (searchsorted_split l1 l2 l3 z F1 F2 F3) as [SL SR].
  unfold get_slice_bound, get_loc, _searchsorted_monotonic.
  fold z. rewrite H. rewrite E in *.
  rewrite (label_mask_split l1 l2 l3 z F1 F2 F3), count_true_block.
  destruct l2 as [|y [|y' l2]].
  - reflexivity.
  - cbn [length Nat.eqb negb]. rewrite first_true_block by lia.
    destruct side; [now rewrite SL | rewrite SR; cbn [length]; f_equal; lia].
  - cbn [length Nat.eqb negb]. rewrite booleans_to_slice_block by lia.
    destruct side; [now rewrite SL | now rewrite SR].
Qed.

(** A bound that the dtype of the index holds as it is stands for itself. *)
Lemma engine_key_representable (cast : Q -> Q) (idx : Index) (x : Q) :
  representable cast x -> (engine_key cast idx x == x)%Q.
Proof.
  unfold representable, engine_key. intros R.
  destruct (is_unique idx); [exact R|].
  destruct (is_monotonic_increasing idx); [reflexivity | exact R].
Qed.

Lemma bound_label_representable (cast : Q -> Q) (idx : Index) (x : Q) :
  representable cast x -> (bound_label cast idx x == x)%Q.
Proof.
  intros R. unfold bound_label. cbv zeta.
  destruct (existsb _ idx); [now apply engine_key_representable | reflexivity].
Qed.

Lemma get_slice_bound_representable (cast : Q -> Q) (idx : Index) (x : Q)
  (side : Side) :
  representable cast x ->
  get_slice_bound cast idx x side = get_slice_bound (fun y => y) idx x side.
Proof.
  intros R. unfold get_slice_bound.
  rewrite (get_loc_compat _ _ (engine_key_representable cast idx x R) idx).
  assert (R' : representable (fun y : Q => y) x) by apply Qred_correct.
  now rewrite (get_loc_compat _ _
                 (engine_key_representable (fun y => y) idx x R') idx).
Qed.

Lemma get_slice_bound_ascending (cast : Q -> Q) (idx : Index) (x : Q)
  (side : Side) :
  is_monotonic_increasing idx = true ->
  representable cast x ->
  get_slice_bound cast idx x side = Ok (searchsorted idx x side).
Proof.
  intros H R. rewrite (get_slice_bound_ascending_label cast idx x side H).
  now rewrite (searchsorted_compat _ _
                 (bound_label_representable cast idx x R) idx side).
Qed.

Lemma slice_indexer_ascending_label (cast : Q -> Q) (idx : Index) (a b : Q) :
  is_monotonic_increasing idx = true ->
  slice_indexer cast idx a b
  = Ok (searchsorted idx (bound_label cast idx a) SideLeft,
        searchsorted idx (bound_label cast idx b) SideRight).
Proof.
  intros H. unfold slice_indexer.
  now rewrite !get_slice_bound_ascending_label by exact H.
Qed.

Lemma slice_indexer_ascending (cast : Q -> Q) (idx : Index) (a b : Q) :
  is_monotonic_increasing idx = true ->
  representable cast a ->
  representable cast b ->
  slice_indexer cast idx a b
  = Ok (searchsorted idx a SideLeft, searchsorted idx b SideRight).
Proof.
  intros H Ra Rb. unfold slice_indexer.
  rewrite (get_slice_bound_ascending cast idx a SideLeft H Ra).
  now rewrite (get_slice_bound_ascending cast idx b SideRight H Rb).
Qed.

Lemma ascending_tail_none (p : Q -> bool) (y : Q) (tl : Index) :
  (forall u v : Q, (u <= v)%Q -> p v = true -> p u = true) ->
  Forall (fun z => (y <= z)%Q) tl ->
  p y = false ->
  prefix_len p tl = 0.
Proof.
  intros Hp F Hy. apply prefix_len_none.
  eapply Forall_impl; [|exact F]. intros z Hz. cbv beta in *.
  destruct (p z) eqn:E; [|reflexivity].
  rewrite (Hp y z Hz E) in Hy. discriminate.
Qed.

Lemma below_antitone (x u v : Q) :
  (u <= v)%Q -> Qlt_bool v x = true -> Qlt_bool u x = true.
Proof. rewrite !Qlt_bool_iff. intros. lra. Qed.

Lemma at_most_antitone (x u v : Q) :
  (u <= v)%Q -> Qle_bool v x = true -> Qle_bool u x = true.
Proof. rewrite !Qle_bool_iff. intros. lra. Qed.

(** The positional slice between the two insertion points holds exactly the
    labels of the closed range. *)
Lemma py_slice_ascending (idx : Index) (a b : Q) :
  is_monotonic_increasing idx = true ->
  py_slice (searchsorted idx a SideLeft) (searchsorted idx b SideRight) idx
  = filter (in_closed_range a b) idx.
Proof.
  unfold py_slice, searchsorted, in_closed_range.
  induction idx as [|y tl IH]; intros H; [reflexivity|].
  destruct (ascending_cons y tl H) as [Htl F]. specialize (IH Htl).
  cbn [prefix_len filter].
  destruct (Qlt_bool y a) eqn:Ea, (Qle_bool y b) eqn:Eb.
  - cbn [firstn skipn]. rewrite IH.
    apply Qlt_bool_iff in Ea. apply Qle_bool_false_iff in Ea.
    now rewrite Ea.
  - rewrite <- IH.
    rewrite (ascending_tail_none _ y tl (at_most_antitone b) F Eb).
    rewrite andb_false_r. cbn [firstn]. now rewrite !skipn_nil.
  - apply Qlt_bool_false_iff in Ea. apply Qle_bool_iff in Ea. rewrite Ea.
    cbn [andb firstn skipn]. rewrite <- IH.
    apply Qle_bool_iff in Ea. apply Qlt_bool_false_iff in Ea.
    now rewrite (ascending_tail_none _ y tl (below_antitone a) F Ea).
  - rewrite andb_false_r. rewrite <- IH.
    rewrite (ascending_tail_none _ y tl (at_most_antitone b) F Eb).
    cbn [firstn]. now rewrite !skipn_nil.
Qed.

(** Which positions a prefix count covers. *)
Lemma prefix_len_positions (p : Q -> bool) (idx : Index) :
  (forall u v : Q, (u <= v)%Q -> p v = true -> p u = true) ->
  is_monotonic_increasing idx = true ->
  forall q : nat,
    q < prefix_len p idx <-> q < length idx /\ p (nth q idx 0%Q) = true.
Proof.
  intros Hp. induction idx as [|y tl IH]; intros H q.
  - simpl. split; [lia | intros [L _]; lia].
  - destruct (ascending_cons y tl H) as [Htl F]. specialize (IH Htl).
    cbn [prefix_len length]. destruct (p y) eqn:Ey.
    + destruct q as [|q]; cbn [nth].
      * split; [intros _; split; [lia | exact Ey] | lia].
      * rewrite <- Nat.succ_lt_mono, (IH q). intuition lia.
    + split; [lia|]. intros [L T]. exfalso.
      destruct q as [|q]; cbn [nth] in T; [congruence|].
      assert (Hq : (y <= nth q tl 0%Q)%Q).
      { rewrite Forall_forall in F. apply F. apply nth_In. lia. }
      rewrite (Hp _ _ Hq T) in Ey. discriminate.
Qed.

Lemma slice_positions_ascending (idx : Index) (a b : Q) :
  is_monotonic_increasing idx = true ->
  forall q : nat,
    searchsorted idx a SideLeft <= q < searchsorted idx b SideRight
    <-> q < length idx /\ (a <= nth q idx 0%Q <= b)%Q.
Proof.
  intros H q. unfold searchsorted.
  pose proof (prefix_len_positions _ idx (below_antitone a) H q) as S.
  pose proof (prefix_len_positions _ idx (at_most_antitone b) H q) as E.
  cbv beta in S, E. rewrite Qle_bool_iff in E.
  split.
  - intros [L1 L2]. apply E in L2 as [L2 L3]. split; [exact L2|].
    split; [|exact L3].
    apply Qlt_bool_false_iff.
    destruct (Qlt_bool (nth q idx 0%Q) a) eqn:T; [|reflexivity].
    exfalso. assert (q < prefix_len (fun y => Qlt_bool y a) idx) by
      (apply S; split; [assumption | reflexivity]). lia.
  - intros [L [L1 L2]]. split.
    + apply Nat.nlt_ge. intros C. apply S in C as [_ C].
      apply Qlt_bool_iff in C. lra.
    + apply E. split; assumption.
Qed.

Lemma select_lat_bounds (V : Type) (casts : string -> Q -> Q)
  (da : DataArray V) (a b : Q) :
  select_lat casts da a b
  = sel_slice casts "lat" (Qmin_bool a b) (Qmax_bool a b) da.
Proof.
  unfold select_lat, Qmin_bool, Qmax_bool. now destruct (Qle_bool a b).
Qed.

Lemma Qmin_bool_cases (P : Q -> Prop) (a b : Q) :
  P a -> P b -> P (Qmin_bool a b).
Proof. unfold Qmin_bool. now destruct (Qle_bool a b). Qed.

Lemma Qmax_bool_cases (P : Q -> Prop) (a b : Q) :
  P a -> P b -> P (Qmax_bool a b).
Proof. unfold Qmax_bool. now destruct (Qle_bool a b). Qed.

(** The dtypes of the examples: what float32 makes of some bounds. *)
Example float32_of_computed :
  (Dtypes.float32_of (3 # 10) == Dtypes.f32_0_3)%Q
  /\ (Dtypes.float32_of (7 # 10) == Dtypes.f32_0_7)%Q
  /\ (Dtypes.f32_0_7 < 7 # 10)%Q /\ (3 # 10 < Dtypes.f32_0_3)%Q
  /\ (Dtypes.float32_of Dtypes.f32_0_3 == Dtypes.f32_0_3)%Q
  /\ (Dtypes.float32_of (-170 # 1) == -170 # 1)%Q
  /\ (Dtypes.float32_of (1 # 8) == 1 # 8)%Q.
Proof. repeat split; vm_compute; reflexivity. Qed.

(** C6, as amended.  On a latitude axis sorted ascending, and for bounds that
    the dtype of the axis holds as they are (every bound on a float64 axis),
    the latitude step returns the inclusive range of the grid latitudes
    between the smaller and the larger of the two bounds: the latitudes kept
    are exactly those of the range, and the positions kept along the axis are
    exactly the positions of those latitudes. *)
Theorem select_lat_ascending_inclusive (V : Type) (casts : string -> Q -> Q)
  (da : DataArray V) (k : nat) (idx : Index) (a b : Q) :
  find_dim "lat" (da_dims da) = Some (k, idx) ->
  is_monotonic_increasing idx = true ->
  representable (casts "lat") a ->
  representable (casts "lat") b ->
  selects_inclusive_lat_range casts da a b
  /\ exists s e : nat,
       select_lat casts da a b = Ok (isel_slice k s e da)
       /\ py_slice s e idx = inclusive_range a b idx
       /\ forall q : nat,
            s <= q < e
            <-> q < length idx
                /\ (Qmin_bool a b <= nth q idx 0%Q <= Qmax_bool a b)%Q.
Proof.
  intros Hk Hasc Ra Rb.
  assert (Hsel : select_lat casts da a b
                 = Ok (isel_slice k
                         (searchsorted idx (Qmin_bool a b) SideLeft)
                         (searchsorted idx (Qmax_bool a b) SideRight) da)).
  { rewrite select_lat_bounds. unfold sel_slice.
    rewrite Hk, (slice_indexer_ascending (casts "lat") idx _ _ Hasc).
    - reflexivity.
    - now apply Qmin_bool_cases.
    - now apply Qmax_bool_cases. }
  split.
  - exists k, idx. eexists. split; [exact Hk|]. split; [exact Hsel|].
    unfold isel_slice. cbn [da_dims].
    rewrite (find_dim_update_nth "lat" (py_slice _ _) _ _ _ Hk).
    now rewrite (py_slice_ascending idx _ _ Hasc).
  - eexists. eexists. split; [exact Hsel|]. split.
    + apply (py_slice_ascending idx _ _ Hasc).
    + apply (slice_positions_ascending idx _ _ Hasc).
Qed.

Lemma select_lat_ascending_inclusive_witness :
  selects_inclusive_lat_range Dtypes.float32 Examples.field_asc (10#1) (-5#1).
Proof.
  apply (select_lat_ascending_inclusive Z Dtypes.float32 Examples.field_asc 0
           [-10#1; 0#1; 10#1]%Q (10#1) (-5#1) eq_refl eq_refl);
    vm_compute; reflexivity.
Defined.

(** C6, as stated, fails on a descending latitude axis: between -10 and 10
    the grid [10, 0, -10] has all three latitudes, and the step returns
    none.  It also fails for a bound that the dtype of the axis does not
    hold: on the float32 axis [0, 0.3f] the bounds 0 and 0.3 keep the label
    0.3f, which lies above 0.3 and outside the range. *)
Lemma select_lat_descending_counterexample :
  (is_monotonic_decreasing [10#1; 0#1; -10#1]%Q = true
   /\ select_lat float64 Examples.field_desc (-10#1) (10#1)
      = Ok (isel_slice 0 2 1 Examples.field_desc)
   /\ find_dim "lat" (da_dims (isel_slice 0 2 1 Examples.field_desc))
      = Some (0, [])
   /\ inclusive_range (-10#1) (10#1) [10#1; 0#1; -10#1]%Q
      = [10#1; 0#1; -10#1]%Q
   /\ ~ selects_inclusive_lat_range float64 Examples.field_desc
         (-10#1) (10#1))
  /\ (is_monotonic_increasing [0#1; Dtypes.f32_0_3]%Q = true
      /\ select_lat Dtypes.float32 Dtypes.field_f32 (0#1) (3#10)
         = Ok Dtypes.field_f32
      /\ inclusive_range (0#1) (3#10) [0#1; Dtypes.f32_0_3]%Q = [0#1]%Q
      /\ ~ selects_inclusive_lat_range Dtypes.float32 Dtypes.field_f32
            (0#1) (3#10)).
Proof.
  split.
  - split; [reflexivity|]. split; [reflexivity|]. split; [reflexivity|].
    split; [reflexivity|].
    intros (k & idx & out & H1 & H2 & H3).
    vm_compute in H1. injection H1 as <- <-.
    vm_compute in H2. injection H2 as <-.
    vm_compute in H3. discriminate H3.
  - split; [reflexivity|]. split; [vm_compute; reflexivity|].
    split; [reflexivity|].
    intros (k & idx & out & H1 & H2 & H3).
    vm_compute in H1. injection H1 as <- <-.
    vm_compute in H2. injection H2 as <-.
    vm_compute in H3. discriminate H3.
Qed.
(** ** The longitude step *)

(** Where the sub-arrays of a join come from: along the axis of the join the
    first positions hold those of the first array and the positions after
    them those of the second. *)
Lemma map_zip_with_left {A B C D : Type} (f : A -> B -> C) (g : C -> D)
  (h : A -> D) (P : A -> Prop) (Q : B -> Prop) (xs : list A) (ys : list B) :
  (forall a b, P a -> Q b -> g (f a b) = h a) ->
  Forall P xs -> Forall Q ys -> length xs = length ys ->
  map g (zip_with f xs ys) = map h xs.
Proof.
  intros Hf Hx. revert ys. induction Hx as [|x xs Px _ IH]; intros ys Hy L.
  - now destruct ys.
  - destruct ys as [|y ys]; [discriminate L|].
    inversion Hy as [|? ? Qy Hys]; subst. injection L as L.
    cbn. now rewrite (Hf x y Px Qy), (IH ys Hys L).
Qed.

Lemma map_zip_with_right {A B C D : Type} (f : A -> B -> C) (g : C -> D)
  (h : B -> D) (P : A -> Prop) (Q : B -> Prop) (xs : list A) (ys : list B) :
  (forall a b, P a -> Q b -> g (f a b) = h b) ->
  Forall P xs -> Forall Q ys -> length xs = length ys ->
  map g (zip_with f xs ys) = map h ys.
Proof.
  intros Hf Hx. revert ys. induction Hx as [|x xs Px _ IH]; intros ys Hy L.
  - now destruct ys.
  - destruct ys as [|y ys]; [discriminate L|].
    inversion Hy as [|? ? Qy Hys]; subst. injection L as L.
    cbn. now rewrite (Hf x y Px Qy), (IH ys Hys L).
Qed.

Lemma nd_take_concat (V : Type) (k : nat) :
  forall (sh sh' : list nat) (a b : nd V) (n m j : nat),
    has_shape sh a = true ->
    has_shape sh' b = true ->
    nth_error sh k = Some n ->
    nth_error sh' k = Some m ->
    remove_nth k sh = remove_nth k sh' ->
    (j < n -> nd_take k j (nd_concat k a b) = nd_take k j a)
    /\ (j < m -> nd_take k (n + j) (nd_concat k a b) = nd_take k j b).
Proof.
  induction k as [|k IH]; intros sh sh' a b n m j Ha Hb Hn Hm E.
  - destruct sh as [|n' sh]; [discriminate Hn|]. injection Hn as ->.
    destruct sh' as [|m' sh']; [discriminate Hm|]. injection Hm as ->.
    destruct a as [c|xs]; [discriminate Ha|].
    destruct b as [c|ys]; [discriminate Hb|].
    apply has_shape_axis in Ha as [La Fa], Hb as [Lb Fb].
    cbn [nd_concat nd_take]. split; intros Hj.
    + apply app_nth1. lia.
    + rewrite <- La. apply app_nth2_plus.
  - destruct sh as [|n' sh]; [discriminate Hn|]. cbn [nth_error] in Hn.
    destruct sh' as [|m' sh']; [discriminate Hm|]. cbn [nth_error] in Hm.
    cbn [remove_nth] in E. injection E as -> E.
    destruct a as [c|xs]; [discriminate Ha|].
    destruct b as [c|ys]; [discriminate Hb|].
    apply has_shape_axis in Ha as [La Fa], Hb as [Lb Fb].
    cbn [nd_concat nd_take]. split; intros Hj; f_equal.
    + apply (map_zip_with_left (nd_concat k) (nd_take k j) (nd_take k j)
               (fun a => has_shape sh a = true)
               (fun b => has_shape sh' b = true)); auto; try lia.
      intros a b Pa Pb.
      now apply (IH sh sh' a b n m j Pa Pb Hn Hm E).
    + apply (map_zip_with_right (nd_concat k) (nd_take k (n + j))
               (nd_take k j)
               (fun a => has_shape sh a = true)
               (fun b => has_shape sh' b = true)); auto; try lia.
      intros a b Pa Pb.
      now apply (IH sh sh' a b n m j Pa Pb Hn Hm E).
Qed.

(** The same for two slices of one well-shaped array. *)
Lemma concat_of_slices_values (V : Type) (name : string) (da : DataArray V)
  (k : nat) (idx : list Q) (s e s' e' j : nat) :
  find_dim name (da_dims da) = Some (k, idx) ->
  well_shaped da = true ->
  (j < length (py_slice s e idx) ->
   nd_take k j
     (nd_concat k (nd_on_axis (py_slice s e) k (da_values da))
                  (nd_on_axis (py_slice s' e') k (da_values da)))
   = nd_take k j (nd_on_axis (py_slice s e) k (da_values da)))
  /\ (j < length (py_slice s' e' idx) ->
      nd_take k (length (py_slice s e idx) + j)
        (nd_concat k (nd_on_axis (py_slice s e) k (da_values da))
                     (nd_on_axis (py_slice s' e') k (da_values da)))
      = nd_take k j (nd_on_axis (py_slice s' e') k (da_values da))).
Proof.
  intros Hk H.
  pose proof (isel_slice_well_shaped V da name k idx s e Hk H) as Hl.
  pose proof (isel_slice_well_shaped V da name k idx s' e' Hk H) as Hr.
  unfold well_shaped, sizes, isel_slice in *. cbn [da_dims da_values] in *.
  rewrite (sizes_update_nth (py_slice s e) _ _ _ _ Hk) in Hl.
  rewrite (sizes_update_nth (py_slice s' e') _ _ _ _ Hk) in Hr.
  destruct (sizes_find_dim _ _ _ _ Hk) as [Hn _].
  apply (nd_take_concat V k _ _ _ _ _ _ j Hl Hr
           (nth_error_update_nth _ _ _ _ Hn)
           (nth_error_update_nth _ _ _ _ Hn)).
  now rewrite !remove_nth_update_nth.
Qed.

(** The longitude step across the antimeridian. *)
Lemma select_lon_crossing (V : Type) (casts : string -> Q -> Q)
  (da1 left right : DataArray V) (lon_min lon_max : Q) :
  (lon_max < lon_min)%Q ->
  sel_slice casts "lon" lon_min 180%Q da1 = Ok left ->
  sel_slice casts "lon" (-180)%Q lon_max da1 = Ok right ->
  exists (k : nat) (il ir : list Q) (out : DataArray V),
    find_dim "lon" (da_dims left) = Some (k, il)
    /\ find_dim "lon" (da_dims right) = Some (k, ir)
    /\ select_lon casts da1 lon_min lon_max = Ok out
    /\ xr_concat left right "lon" = Ok out
    /\ find_dim "lon" (da_dims out) = Some (k, il ++ ir)
    /\ da_values out = nd_concat k (da_values left) (da_values right)
    /\ remove_nth k (da_dims out) = remove_nth k (da_dims left)
    /\ dim_names out = dim_names left
    /\ da_scalars out = da_scalars left
    /\ (well_shaped da1 = true -> well_shaped out = true)
    /\ (forall (k1 : nat) (idx : list Q),
           find_dim "lon" (da_dims da1) = Some (k1, idx) ->
           is_monotonic_increasing idx = true ->
           representable (casts "lon") lon_min ->
           representable (casts "lon") lon_max ->
           representable (casts "lon") 180%Q ->
           representable (casts "lon") (-180)%Q ->
           il = filter (in_closed_range lon_min 180%Q) idx
           /\ ir = filter (in_closed_range (-180)%Q lon_max) idx)
    /\ (well_shaped da1 = true ->
        forall j : nat,
          (j < length il ->
           nd_take k j (da_values out) = nd_take k j (da_values left))
          /\ (j < length ir ->
              nd_take k (length il + j) (da_values out)
              = nd_take k j (da_values right))).
Proof.
  intros Hlon Hl Hr.
  destruct (sel_slice_inv _ _ _ _ _ _ _ Hl) as (k & idx & s & e & Hk & Hs & ->).
  destruct (sel_slice_inv _ _ _ _ _ _ _ Hr)
    as (k' & idx' & s' & e' & Hk' & Hs' & ->).
  rewrite Hk in Hk'. injection Hk' as <- <-.
  pose proof (concat_of_slices V "lon" da1 k idx s e s' e' Hk) as Hc.
  exists k, (py_slice s e idx), (py_slice s' e' idx).
  eexists.
  split; [apply (find_dim_update_nth "lon" (py_slice s e) _ _ _ Hk)|].
  split; [apply (find_dim_update_nth "lon" (py_slice s' e') _ _ _ Hk)|].
  split.
  { unfold select_lon.
    apply Qle_bool_false_iff in Hlon. rewrite Hlon, Hl, Hr. cbn [bind].
    exact Hc. }
  split; [exact Hc|].
  cbn [da_dims da_scalars da_values isel_slice].
  split.
  { apply (find_dim_update_nth "lon"
             (fun _ => py_slice s e idx ++ py_slice s' e' idx) _ _ _ Hk). }
  split; [reflexivity|].
  split; [now rewrite !remove_nth_update_nth|].
  split.
  { unfold dim_names, isel_slice. cbn [da_dims].
    rewrite (update_nth_names
               (fun _ => py_slice s e idx ++ py_slice s' e' idx)).
    now rewrite (update_nth_names (py_slice s e)). }
  split; [reflexivity|].
  split; [apply (concat_of_slices_well_shaped V "lon" da1 k idx s e s' e' Hk)|].
  split.
  - intros k1 idx1 Hk1 Hasc R1 R2 R3 R4. rewrite Hk in Hk1.
    injection Hk1 as <- <-.
    rewrite (slice_indexer_ascending _ idx _ _ Hasc R1 R3) in Hs.
    rewrite (slice_indexer_ascending _ idx _ _ Hasc R4 R2) in Hs'.
    injection Hs as <- <-. injection Hs' as <- <-.
    split; apply (py_slice_ascending idx _ _ Hasc).
  - intros HW j.
    apply (concat_of_slices_values V "lon" da1 k idx s e s' e' j Hk HW).
Qed.




(** The same at the concrete field, computed: the two eastern columns come
    first, the two western ones after them. *)
Example select_bbox_antimeridian_computed :
  select_bbox Dtypes.float32 Examples.field_asc
    (Some (-5#1, 10#1, 170#1, -170#1)%Q)
  = Ok (mkDA [("lat", [0#1; 10#1]%Q);
              ("lon", [175#1; 180#1; -180#1; -175#1]%Q)]
             []
             (Examples.grid [[9; 10; 6; 7]; [14; 15; 11; 12]]%Z)).
Proof. vm_compute. reflexivity. Qed.

(** C9. When the two longitude slices of a box with [lon_min > lon_max] are
    both empty, the selector returns a field, and the field has no
    longitudes: its longitude axis has length zero, its other dimensions are
    those of the slices, and it is well shaped when the input is. *)
Theorem select_bbox_antimeridian_empty (V : Type)
  (casts : string -> Q -> Q) (da da1 left right : DataArray V)
  (lat_min lat_max lon_min lon_max : Q) (k k' : nat) :
  (lon_max < lon_min)%Q ->
  select_lat casts da lat_min lat_max = Ok da1 ->
  sel_slice casts "lon" lon_min 180%Q da1 = Ok left ->
  sel_slice casts "lon" (-180)%Q lon_max da1 = Ok right ->
  find_dim "lon" (da_dims left) = Some (k, []) ->
  find_dim "lon" (da_dims right) = Some (k', []) ->
  exists out : DataArray V,
    select_bbox casts da (Some (lat_min, lat_max, lon_min, lon_max)) = Ok out
    /\ find_dim "lon" (da_dims out) = Some (k, [])
    /\ nth_error (sizes out) k = Some 0
    /\ dim_names out = dim_names left
    /\ (well_shaped da1 = true -> well_shaped out = true).
Proof.
  intros Hlon Hlat Hl Hr El Er.
  destruct (select_lon_crossing V casts da1 left right lon_min lon_max
              Hlon Hl Hr)
    as (k0 & il & ir & out
        & H1 & H2 & H3 & H4 & H5 & H6 & H7 & H8 & H9 & HW & _).
  rewrite El in H1. injection H1 as <- <-.
  rewrite Er in H2. injection H2 as -> <-.
  exists out. split.
  { unfold select_bbox. rewrite Hlat. cbn [bind]. exact H3. }
  split; [exact H5|]. split.
  { destruct (sizes_find_dim _ _ _ _ H5) as [Hn _]. exact Hn. }
  split; assumption.
Qed.

Lemma select_bbox_antimeridian_empty_witness :
  exists out : DataArray Z,
    select_bbox Dtypes.float32 Examples.field_mid
      (Some (-10#1, 10#1, 170#1, -170#1)%Q) = Ok out
    /\ find_dim "lon" (da_dims out) = Some (1, [])
    /\ nth_error (sizes out) 1 = Some 0
    /\ dim_names out = dim_names (isel_slice 1 2 2 Examples.field_mid)
    /\ (well_shaped Examples.field_mid = true -> well_shaped out = true).
Proof.
  apply (select_bbox_antimeridian_empty Z Dtypes.float32 Examples.field_mid
           Examples.field_mid (isel_slice 1 2 2 Examples.field_mid)
           (isel_slice 1 0 0 Examples.field_mid)
           (-10#1) (10#1) (170#1) (-170#1) 1 1);
    vm_compute; reflexivity.
Defined.

Example select_bbox_antimeridian_empty_computed :
  select_bbox Dtypes.float32 Examples.field_mid
    (Some (-10#1, 10#1, 170#1, -170#1)%Q)
  = Ok (mkDA [("lat", [-10#1; 10#1]%Q); ("lon", [])] []
             (Axis [Axis []; Axis []])).
Proof. vm_compute. reflexivity. Qed.

(** The selection stays inside the model: the join it makes is never one that
    [xr_concat] leaves out.  A failed slice is a [KeyError], but for a name
    that is a scalar coordinate only, which is a [ValueError]. *)
Lemma get_slice_bound_raises (cast : Q -> Q) (idx : list Q) (x : Q)
  (side : Side) (e : exn) :
  get_slice_bound cast idx x side = Raise e -> e = KeyError.
Proof.
  unfold get_slice_bound.
  destruct (get_loc idx (engine_key cast idx x)) as [[p|m]|e'].
  - discriminate.
  - destruct (maybe_booleans_to_slice m) as [[s t]|]; [discriminate|].
    now intros [= <-].
  - destruct (_searchsorted_monotonic idx x side); [discriminate|].
    now intros [= <-].
Qed.

Lemma sel_slice_raises (V : Type) (casts : string -> Q -> Q) (name : string)
  (a b : Q) (da : DataArray V) (e : exn) :
  sel_slice casts name a b da = Raise e ->
  e = KeyError
  \/ (e = ValueError
      /\ find_dim name (da_dims da) = None
      /\ name_in name (map fst (da_scalars da)) = true).
Proof.
  unfold sel_slice, slice_indexer.
  destruct (find_dim name (da_dims da)) as [[k idx]|].
  - destruct (get_slice_bound (casts name) idx a SideLeft) as [s|e1] eqn:E1;
      cbn [bind].
    + destruct (get_slice_bound (casts name) idx b SideRight) as [t|e2] eqn:E2;
        cbn [bind]; [discriminate|].
      intros [= <-]. left. now apply get_slice_bound_raises in E2.
    + intros [= <-]. left. now apply get_slice_bound_raises in E1.
  - destruct (name_in name (map fst (da_scalars da))); intros [= <-];
      [right | left]; auto.
Qed.

Lemma sel_slice_dims_raises (V : Type) (casts : string -> Q -> Q)
  (name : string) (a b : Q) (da : DataArray V) (e : exn) (k : nat)
  (idx : list Q) :
  find_dim name (da_dims da) = Some (k, idx) ->
  sel_slice casts name a b da = Raise e -> e = KeyError.
Proof.
  intros Hk H. destruct (sel_slice_raises V casts name a b da e H)
    as [->|(_ & Hn & _)]; [reflexivity|]. rewrite Hk in Hn. discriminate.
Qed.

Lemma select_bbox_raises (V : Type) (casts : string -> Q -> Q)
  (da : DataArray V) (bbox : option BBox) (e : exn) :
  select_bbox casts da bbox = Raise e -> e = KeyError \/ e = ValueError.
Proof.
  destruct bbox as [[[[lat_min lat_max] lon_min] lon_max]|];
    [|discriminate].
  assert (S : forall name a b (d : DataArray V),
             sel_slice casts name a b d = Raise e ->
                                 e = KeyError \/ e = ValueError).
  { intros name a b d H.
    destruct (sel_slice_raises V casts name a b d e H) as [->|[-> _]]; auto. }
  unfold select_bbox.
  destruct (select_lat casts da lat_min lat_max) as [da1|e1] eqn:E1;
    cbn [bind].
  - unfold select_lon. destruct (Qle_bool lon_min lon_max).
    + apply S.
    + destruct (sel_slice casts "lon" lon_min 180%Q da1) as [l|e2] eqn:E2;
        cbn [bind]; [|intros [= <-]; now apply S in E2].
      destruct (sel_slice casts "lon" (-180)%Q lon_max da1) as [r|e3] eqn:E3;
        cbn [bind]; [|intros [= <-]; now apply S in E3].
      destruct (sel_slice_inv _ _ _ _ _ _ _ E2)
        as (k & idx & s & t & Hk & _ & ->).
      destruct (sel_slice_inv _ _ _ _ _ _ _ E3)
        as (k' & idx' & s' & t' & Hk' & _ & ->).
      rewrite Hk in Hk'. injection Hk' as <- <-.
      rewrite (concat_of_slices V "lon" da1 k idx s t s' t' Hk).
      discriminate.
  - intros [= <-]. unfold select_lat in E1.
    destruct (Qle_bool lat_min lat_max); now apply S in E1.
Qed.

(** ** The nearest position *)

Lemma prefix_len_le {A : Type} (p : A -> bool) (l : list A) :
  prefix_len p l <= length l.
Proof.
  induction l as [|x l IH]; simpl; [lia|]. destruct (p x); simpl; lia.
Qed.

Lemma first_true_bound (m : list bool) :
  0 < count_true m -> prefix_len negb m < length m.
Proof.
  unfold count_true. induction m as [|[|] m IH]; simpl; intros H; lia.
Qed.

Lemma exact_indexer_bound (idx : list Q) (t : Q) (p : nat) :
  exact_indexer idx t = Some p -> p < length idx.
Proof.
  unfold exact_indexer, get_loc. intros H.
  destruct (count_true (label_mask idx t)) as [|[|n]] eqn:E;
    try discriminate H.
  injection H as <-.
  pose proof (first_true_bound (label_mask idx t)) as B.
  unfold label_mask in *. rewrite length_map in B. apply B. lia.
Qed.

Lemma searchsorted_le (idx : list Q) (t : Q) (side : Side) :
  searchsorted idx t side <= length idx.
Proof. destruct side; apply prefix_len_le. Qed.

Lemma fill_indexer_bound (idx : list Q) (t : Q) (method : FillMethod)
  (p : nat) :
  _get_fill_indexer idx t method = Ok (Some p) -> p < length idx.
Proof.
  unfold _get_fill_indexer, _searchsorted_monotonic.
  destruct (is_monotonic_increasing idx).
  - destruct method.
    + pose proof (searchsorted_le idx t SideRight).
      destruct (searchsorted idx t SideRight); intros [= <-]. lia.
    + cbv zeta. destruct (searchsorted idx t SideLeft <? length idx) eqn:E;
        intros [= <-]. now apply Nat.ltb_lt.
  - destruct (is_monotonic_decreasing idx); [|discriminate].
    destruct (exact_indexer idx t) as [q|] eqn:E.
    + intros [= <-]. now apply exact_indexer_bound in E.
    + destruct method; cbn [bind].
      * destruct (length idx - searchsorted (rev idx) t (flip_side SideLeft))
          as [|q] eqn:D; intros [= <-]. lia.
      * destruct (length idx - searchsorted (rev idx) t (flip_side SideRight)
                  =? length idx) eqn:D; intros [= <-].
        apply Nat.eqb_neq in D. cbv [searchsorted flip_side] in *. lia.
Qed.

(** A position that the nearest-neighbour lookup returns is a position of
    the index. *)
Lemma nearest_position_bound (idx : list Q) (t : Q) (p : nat) :
  nearest_position idx t = Ok p -> p < length idx.
Proof.
  unfold nearest_position. destruct (is_unique idx); [|discriminate].
  unfold _get_nearest_indexer. destruct idx as [|x idx]; [discriminate|].
  destruct (_get_fill_indexer (x :: idx) t Pad) as [left|] eqn:EL;
    [|discriminate].
  destruct (_get_fill_indexer (x :: idx) t Backfill) as [right|] eqn:ER;
    [|discriminate].
  cbn [bind].
  destruct (_difference_compat (x :: idx) t left) as [dl|]; [|discriminate].
  destruct (_difference_compat (x :: idx) t right) as [dr|]; [|discriminate].
  cbn [bind].
  match goal with
  | |- context [if ?c then left else right] => destruct c
  end.
  - destruct left as [q|]; [|discriminate]. intros [= <-].
    now apply (fill_indexer_bound _ t Pad).
  - destruct right as [q|]; [|discriminate]. intros [= <-].
    now apply (fill_indexer_bound _ t Backfill).
Qed.

Lemma ascending_last_ge (x : Q) (tl : list Q) :
  is_monotonic_increasing (x :: tl) = true -> (x <= last (x :: tl) 0%Q)%Q.
Proof.
  intros H. destruct (ascending_cons x tl H) as [_ F].
  destruct tl as [|y tl]; [apply Qle_refl|].
  rewrite Forall_forall in F. apply F.
  change (last (x :: y :: tl) 0%Q) with (last (y :: tl) 0%Q).
  clear. revert y. induction tl as [|z tl IH]; intros y.
  - now left.
  - right. apply IH.
Qed.

(** A difference of timestamps that fits int64 is the difference. *)
Lemma timedelta_fits (x y : Q) :
  (- int64_max <= x - y <= int64_max)%Q -> timedelta x y = Ok (x - y)%Q.
Proof.
  intros [L U]. unfold timedelta. cbv zeta.
  apply Qle_bool_iff in L, U. now rewrite L, U.
Qed.

Lemma label_at_in (idx : list Q) (o : option nat) :
  idx <> [] ->
  match o with Some p => p < length idx | None => True end ->
  In (label_at idx o) idx.
Proof.
  intros Hne Ho. destruct o as [p|]; cbn [label_at].
  - now apply nth_In.
  - destruct idx as [|x tl]; [congruence|]. clear.
    revert x. induction tl as [|y tl IH]; intros x; [now left|].
    right. apply IH.
Qed.

(** The distance to a label of the index, when the target is within int64 of
    every label. *)
Lemma difference_compat_fits (idx : list Q) (t : Q) (o : option nat) :
  idx <> [] ->
  match o with Some p => p < length idx | None => True end ->
  Forall (fun y => (- int64_max <= y - t <= int64_max)%Q) idx ->
  _difference_compat idx t o = Ok (Qabs (label_at idx o - t)).
Proof.
  intros Hne Ho F. unfold _difference_compat.
  rewrite timedelta_fits; [reflexivity|].
  rewrite Forall_forall in F. apply F. now apply label_at_in.
Qed.

(** On a non-empty ascending index without repeated labels the lookup finds a
    position, for every target that is within int64 of every label. *)
Lemma nearest_position_ascending (idx : list Q) (t : Q) :
  idx <> [] ->
  is_unique idx = true ->
  is_monotonic_increasing idx = true ->
  Forall (fun y => (- int64_max <= y - t <= int64_max)%Q) idx ->
  exists p : nat, nearest_position idx t = Ok p.
Proof.
  intros Hne Hu Hasc Hfit. unfold nearest_position. rewrite Hu.
  unfold _get_nearest_indexer. destruct idx as [|x tl]; [congruence|].
  unfold _get_fill_indexer. rewrite Hasc. cbn [bind]. cbv zeta.
  rewrite (difference_compat_fits (x :: tl) t _ Hne); [|
    pose proof (searchsorted_le (x :: tl) t SideRight);
    destruct (searchsorted (x :: tl) t SideRight); [exact I | lia]
    | exact Hfit].
  rewrite (difference_compat_fits (x :: tl) t _ Hne); [|
    destruct (searchsorted (x :: tl) t SideLeft <? length (x :: tl)) eqn:EB;
    [now apply Nat.ltb_lt | exact I]
    | exact Hfit].
  cbn [bind].
  destruct (searchsorted (x :: tl) t SideLeft <? length (x :: tl)) eqn:EB.
  - (* a right-hand neighbour exists *)
    destruct (searchsorted (x :: tl) t SideRight) as [|q] eqn:ER.
    + (* the target lies before the whole index *)
      assert (Hx : Qle_bool x t = false).
      { unfold searchsorted in ER. cbn [prefix_len] in ER.
        destruct (Qle_bool x t); [discriminate | reflexivity]. }
      assert (EL : searchsorted (x :: tl) t SideLeft = 0).
      { unfold searchsorted. cbn [prefix_len].
        assert (L : Qlt_bool x t = false).
        { apply Qlt_bool_false_iff. apply Qle_bool_false_iff in Hx.
          now apply Qlt_le_weak. }
        now rewrite L. }
      rewrite EL. cbn [label_at nth is_none orb].
      assert (Hop : Qlt_bool (Qabs (last (x :: tl) 0%Q - t)) (Qabs (x - t))
                    = false).
      { apply Qlt_bool_false_iff. apply Qle_bool_false_iff in Hx.
        pose proof (ascending_last_ge x tl Hasc) as HL.
        rewrite !Qabs_pos by lra. lra. }
      rewrite Hop. cbn [orb]. now exists 0.
    + cbn [is_none]. rewrite orb_false_r.
      match goal with
      | |- context [if ?c then _ else _] => destruct c
      end; eexists; reflexivity.
  - (* every label lies before the target *)
    cbn [is_none]. rewrite orb_true_r.
    apply Nat.ltb_ge in EB.
    assert (ER : length (x :: tl) <= searchsorted (x :: tl) t SideRight).
    { eapply Nat.le_trans; [exact EB|]. unfold searchsorted. clear.
      induction (x :: tl) as [|y l IH]; cbn [prefix_len]; [lia|].
      destruct (Qlt_bool y t) eqn:E.
      - apply Qlt_bool_iff in E.
        assert (E' : Qle_bool y t = true) by (apply Qle_bool_iff; lra).
        rewrite E'. lia.
      - lia. }
    cbn [length] in ER.
    destruct (searchsorted (x :: tl) t SideRight) as [|q]; [lia|].
    eexists; reflexivity.
Qed.

(** ** Coordinate names *)

Lemma name_in_iff (n : string) (l : list string) :
  name_in n l = true <-> In n l.
Proof.
  unfold name_in. rewrite existsb_exists. split.
  - intros (x & Hx & E). apply String.eqb_eq in E. now subst.
  - intros H. exists n. split; [exact H | apply String.eqb_refl].
Qed.

Lemma name_in_false_iff (n : string) (l : list string) :
  name_in n l = false <-> ~ In n l.
Proof.
  rewrite <- name_in_iff. destruct (name_in n l); intuition congruence.
Qed.

Lemma name_in_app (n : string) (l r : list string) :
  name_in n (l ++ r) = name_in n l || name_in n r.
Proof. unfold name_in. apply existsb_app. Qed.

Lemma has_dup_false_iff (l : list string) : has_dup l = false <-> NoDup l.
Proof.
  induction l as [|x l IH]; simpl.
  - split; [constructor | reflexivity].
  - rewrite orb_false_iff, name_in_false_iff, IH. split.
    + intros [H1 H2]. now constructor.
    + intros H. inversion H; subst. now split.
Qed.

Lemma canonical_name_fixed (n : string) :
  n <> "latitude" -> n <> "longitude" -> canonical_name n = n.
Proof.
  intros H1 H2. unfold canonical_name.
  apply String.eqb_neq in H1, H2. now rewrite H1, H2.
Qed.

Lemma canonical_name_short (n : string) :
  canonical_name n <> "latitude" /\ canonical_name n <> "longitude".
Proof.
  unfold canonical_name.
  destruct (String.eqb n "latitude") eqn:E1; [split; discriminate|].
  destruct (String.eqb n "longitude") eqn:E2; [split; discriminate|].
  apply String.eqb_neq in E1, E2. now split.
Qed.

(** The renaming map that [unify_coord_names] builds acts on the names of the
    array as [canonical_name] does. *)
Lemma rename_map_canonical (names : list string) (n : string) :
  In n names ->
  rename_name
    ((if name_in "latitude" names then [("latitude", "lat")] else [])
     ++ (if name_in "longitude" names then [("longitude", "lon")] else []))
    n
  = canonical_name n.
Proof.
  intros Hn. unfold canonical_name.
  rewrite (String.eqb_sym n "latitude"), (String.eqb_sym n "longitude").
  destruct (name_in "latitude" names) eqn:E1,
           (name_in "longitude" names) eqn:E2;
    unfold rename_name; cbn [app find fst snd].
  - destruct (String.eqb "latitude" n); [reflexivity|].
    now destruct (String.eqb "longitude" n).
  - destruct (String.eqb "latitude" n); [reflexivity|].
    destruct (String.eqb "longitude" n) eqn:E; [|reflexivity].
    apply String.eqb_eq in E. subst n.
    apply name_in_false_iff in E2. contradiction.
  - destruct (String.eqb "latitude" n) eqn:E.
    + apply String.eqb_eq in E. subst n.
      apply name_in_false_iff in E1. contradiction.
    + now destruct (String.eqb "longitude" n).
  - destruct (String.eqb "latitude" n) eqn:E.
    + apply String.eqb_eq in E. subst n.
      apply name_in_false_iff in E1. contradiction.
    + destruct (String.eqb "longitude" n) eqn:E'; [|reflexivity].
      apply String.eqb_eq in E'. subst n.
      apply name_in_false_iff in E2. contradiction.
Qed.

Section Renaming.

Variable V : Type.

Lemma coord_names_canonical (da : DataArray V) :
  coord_names (canonical da) = map canonical_name (coord_names da).
Proof.
  unfold coord_names, dim_names, canonical. cbn [da_dims da_scalars].
  now rewrite map_app, !map_map.
Qed.

Lemma rename_canonical (da : DataArray V) (m : list (string * string)) :
  (forall n, In n (coord_names da) -> rename_name m n = canonical_name n) ->
  {| da_dims := map (fun d => (rename_name m (fst d), snd d)) (da_dims da);
     da_scalars := map (fun c => (rename_name m (fst c), snd c)) (da_scalars da);
     da_values := da_values da |}
  = canonical da.
Proof.
  intros H. unfold canonical. f_equal.
  - apply map_ext_in. intros d Hd. f_equal. apply H.
    unfold coord_names, dim_names. apply in_app_iff. left.
    now apply in_map.
  - apply map_ext_in. intros c Hc. f_equal. apply H.
    unfold coord_names. apply in_app_iff. right. now apply in_map.
Qed.

Lemma canonical_fixed (da : DataArray V) :
  name_in "latitude" (coord_names da) = false ->
  name_in "longitude" (coord_names da) = false ->
  canonical da = da.
Proof.
  intros H1 H2. apply name_in_false_iff in H1, H2.
  assert (F : forall n, In n (coord_names da) -> canonical_name n = n).
  { intros n Hn. apply canonical_name_fixed; intros ->; contradiction. }
  destruct da as [dims sc v]. unfold canonical, coord_names, dim_names in *.
  cbn [da_dims da_scalars da_values] in *. f_equal.
  - rewrite <- (map_id dims) at 2. apply map_ext_in. intros [n i] Hd.
    cbn [fst snd]. f_equal. apply F. apply in_app_iff. left.
    now apply (in_map fst) in Hd.
  - rewrite <- (map_id sc) at 2. apply map_ext_in. intros [n x] Hc.
    cbn [fst snd]. f_equal. apply F. apply in_app_iff. right.
    now apply (in_map fst) in Hc.
Qed.

(** What the renaming step does, when the canonical names do not clash. *)
Lemma unify_coord_names_canonical (da : DataArray V) :
  has_dup (map canonical_name (coord_names da)) = false ->
  unify_coord_names da = Ok (canonical da).
Proof.
  intros Hdup. unfold unify_coord_names.
  pose proof (rename_map_canonical (coord_names da)) as Hm.
  destruct (name_in "latitude" (coord_names da)) eqn:E1,
           (name_in "longitude" (coord_names da)) eqn:E2;
    cbn [app] in *.
  1-3: unfold rename; cbn [forallb fst]; rewrite ?E1, ?E2; cbn [negb andb];
       rewrite (rename_canonical da _ Hm), coord_names_canonical, Hdup;
       reflexivity.
  now rewrite canonical_fixed.
Qed.

Lemma unify_coord_names_noop (da : DataArray V) :
  name_in "latitude" (coord_names da) = false ->
  name_in "longitude" (coord_names da) = false ->
  unify_coord_names da = Ok da.
Proof. intros H1 H2. unfold unify_coord_names. now rewrite H1, H2. Qed.

End Renaming.

(** C4. Where the field that the standardizer has extracted carries the names
    [latitude] and [longitude], the field returned carries [lat] and [lon] in
    their place and has the values (and the coordinate labels) of the
    un-renamed field; where the extracted field carries neither long name,
    it is returned as it is. *)
Theorem standardize_renames_coordinates (V : Type) (ds : Dataset V) (t : Q)
  (pre : DataArray V) :
  extract_field ds t = Ok pre ->
  (name_in "latitude" (coord_names pre) = true ->
   name_in "longitude" (coord_names pre) = true ->
   has_dup (map canonical_name (coord_names pre)) = false ->
   exists out : DataArray V,
     _standardize_anom_field ds t = Ok out
     /\ da_values out = da_values pre
     /\ coord_names out = map canonical_name (coord_names pre)
     /\ map snd (da_dims out) = map snd (da_dims pre)
     /\ map snd (da_scalars out) = map snd (da_scalars pre)
     /\ name_in "lat" (coord_names out) = true
     /\ name_in "lon" (coord_names out) = true
     /\ name_in "latitude" (coord_names out) = false
     /\ name_in "longitude" (coord_names out) = false)
  /\ (name_in "latitude" (coord_names pre) = false ->
      name_in "longitude" (coord_names pre) = false ->
      _standardize_anom_field ds t = Ok pre).
Proof.
  intros Hpre. unfold _standardize_anom_field. rewrite Hpre. cbn [bind].
  split.
  - intros H1 H2 Hdup. exists (canonical pre).
    split; [now apply unify_coord_names_canonical|].
    split; [reflexivity|].
    split; [apply coord_names_canonical|].
    split; [unfold canonical; cbn [da_dims]; now rewrite map_map|].
    split; [unfold canonical; cbn [da_scalars]; now rewrite map_map|].
    rewrite (coord_names_canonical V pre).
    apply name_in_iff in H1, H2.
    split; [apply name_in_iff; now apply (in_map canonical_name) in H1|].
    split; [apply name_in_iff; now apply (in_map canonical_name) in H2|].
    split; apply name_in_false_iff; intros H;
      apply in_map_iff in H as (n & E & _);
      destruct (canonical_name_short n); congruence.
  - intros H1 H2. now apply unify_coord_names_noop.
Qed.

Lemma standardize_renames_coordinates_witness :
  (exists out : DataArray Z,
     _standardize_anom_field Examples.ds_sst (100#1) = Ok out
     /\ da_values out = Examples.grid [[1; 2]; [3; 4]]%Z
     /\ coord_names out = ["lat"; "lon"; "zlev"; "time"])
  /\ _standardize_anom_field Examples.ds_short (100#1)
     = extract_field Examples.ds_short (100#1).
Proof.
  split.
  - destruct (standardize_renames_coordinates Z Examples.ds_sst (100#1)
                (mkDA [("latitude", [-10#1; 10#1]%Q);
                       ("longitude", [0#1; 1#1]%Q)]
                      [("zlev", 0#1); ("time", 100#1)]
                      (Examples.grid [[1; 2]; [3; 4]]%Z))
                eq_refl) as [H _].
    destruct (H eq_refl eq_refl eq_refl) as (out & H1 & H2 & H3 & _).
    exists out. repeat split; assumption.
  - destruct (standardize_renames_coordinates Z Examples.ds_short (100#1)
                (mkDA [("lat", [-10#1; 10#1]%Q); ("lon", [0#1; 1#1]%Q)]
                      [("time", 100#1)]
                      (Examples.grid [[1; 2]; [3; 4]]%Z))
                eq_refl) as [_ H].
    exact (H eq_refl eq_refl).
Defined.

(** ** The dimensions of the standardized field *)

Lemma Qeq_bool_sym (x y : Q) : Qeq_bool x y = Qeq_bool y x.
Proof.
  destruct (Qeq_bool x y) eqn:E1, (Qeq_bool y x) eqn:E2; try reflexivity.
  - apply Qeq_bool_iff in E1. symmetry in E1. apply Qeq_bool_iff in E1.
    congruence.
  - apply Qeq_bool_iff in E2. symmetry in E2. apply Qeq_bool_iff in E2.
    congruence.
Qed.

(** The first label of an index that does not repeat it is found at
    position 0. *)
Lemma get_loc_first (x : Q) (rest : list Q) :
  is_unique (x :: rest) = true -> get_loc (x :: rest) x = Ok (LocInt 0).
Proof.
  cbn [is_unique]. intros H. apply andb_true_iff in H as [H _].
  apply negb_true_iff in H.
  unfold get_loc, label_mask. cbn [map]. rewrite Qeq_bool_refl.
  assert (E : count_true (map (fun y => Qeq_bool y x) rest) = 0).
  { unfold count_true. induction rest as [|y rest IH]; [reflexivity|].
    cbn [existsb] in H. apply orb_false_iff in H as [H1 H2].
    cbn [map filter]. rewrite (Qeq_bool_sym y x), H1. now apply IH. }
  unfold count_true in *. cbn [filter length]. now rewrite E.
Qed.

Section Standardized.

Variable V : Type.

Lemma well_shaped_canonical (da : DataArray V) :
  well_shaped (canonical da) = well_shaped da.
Proof.
  unfold well_shaped, sizes, canonical. cbn [da_dims da_values].
  now rewrite map_map.
Qed.

(** The depth step. *)
Lemma select_surface_conventions (da0 : DataArray V) (tidx : list Q)
  (depth : list (string * list Q)) (latn lonn : string) (lati loni : list Q) :
  da_dims da0 = ("time", tidx) :: depth ++ [(latn, lati); (lonn, loni)] ->
  depth_convention depth ->
  In latn ["lat"; "latitude"] ->
  In lonn ["lon"; "longitude"] ->
  (forall da1 : DataArray V,
      select_surface ["zlev"; "depth"; "lev"] da0 = Ok da1 ->
      da_dims da1 = [("time", tidx); (latn, lati); (lonn, loni)]
      /\ map fst (da_scalars da1) = map fst (da_scalars da0) ++ map fst depth
      /\ (well_shaped da0 = true -> well_shaped da1 = true))
  /\ ((forall dn didx, depth = [(dn, didx)] -> didx <> []) ->
      exists da1 : DataArray V,
        select_surface ["zlev"; "depth"; "lev"] da0 = Ok da1).
Proof.
  intros Hd Hdepth Hlat Hlon.
  destruct Hdepth as [-> | (dn & didx & -> & Hdn & Hu)].
  - assert (E : select_surface ["zlev"; "depth"; "lev"] da0 = Ok da0).
    { unfold select_surface, dim_names. rewrite Hd.
      destruct Hlat as [<-|[<-|[]]], Hlon as [<-|[<-|[]]]; reflexivity. }
    rewrite E. split.
    + intros da1 [= <-]. split; [exact Hd|].
      split; [now rewrite app_nil_r | auto].
    + intros _. now exists da0.
  - destruct didx as [|d0 rest].
    + assert (E : select_surface ["zlev"; "depth"; "lev"] da0
                  = Raise IndexError).
      { unfold select_surface, dim_names, first_label. rewrite Hd.
        destruct Hdn as [<-|[<-|[<-|[]]]], Hlat as [<-|[<-|[]]],
                 Hlon as [<-|[<-|[]]]; reflexivity. }
      rewrite E. split; [discriminate|].
      intros Hne. exfalso. now apply (Hne _ _ eq_refl).
    + assert (Hk : find_dim dn (da_dims da0) = Some (1, d0 :: rest)).
      { rewrite Hd.
        destruct Hdn as [<-|[<-|[<-|[]]]]; reflexivity. }
      assert (E : select_surface ["zlev"; "depth"; "lev"] da0
                  = Ok (isel_int 1 dn (d0 :: rest) 0 false da0)).
      { pose proof (get_loc_first d0 rest Hu) as G.
        unfold select_surface, dim_names, first_label, sel_label.
        rewrite Hd.
        destruct Hdn as [<-|[<-|[<-|[]]]], Hlat as [<-|[<-|[]]],
                 Hlon as [<-|[<-|[]]];
          cbn -[get_loc isel_int]; rewrite G; reflexivity. }
      rewrite E. split.
      * intros da1 [= <-]. split; [|split].
        { unfold isel_int. cbn [da_dims]. now rewrite Hd. }
        { unfold isel_int. cbn [da_scalars]. now rewrite map_app. }
        intros W.
        apply (isel_int_well_shaped V da0 dn 1 0 (d0 :: rest) false Hk);
          [cbn; lia | exact W].
      * intros _. eexists; reflexivity.
Qed.

(** The time step. *)
Lemma sel_nearest_time (da1 da2 : DataArray V) (tidx : list Q)
  (rest : list (string * list Q)) (t : Q) :
  da_dims da1 = ("time", tidx) :: rest ->
  sel_nearest "time" t da1 = Ok da2 ->
  da_dims da2 = rest
  /\ map fst (da_scalars da2) = map fst (da_scalars da1) ++ ["time"]
  /\ (well_shaped da1 = true -> well_shaped da2 = true).
Proof.
  intros Hd. unfold sel_nearest. rewrite Hd. cbn [find_dim].
  rewrite String.eqb_refl.
  destruct (nearest_position tidx t) as [p|] eqn:Hp; cbn [bind];
    [|discriminate].
  intros [= <-]. split; [|split].
  { unfold isel_int. cbn [da_dims]. now rewrite Hd. }
  { unfold isel_int. cbn [da_scalars]. now rewrite map_app. }
  intros W.
  apply (isel_int_well_shaped V da1 "time" 0 p tidx false); auto.
  - rewrite Hd. cbn [find_dim]. now rewrite String.eqb_refl.
  - now apply (nearest_position_bound tidx t).
Qed.

Lemma sel_nearest_time_ascending (da1 : DataArray V) (tidx : list Q)
  (rest : list (string * list Q)) (t : Q) :
  da_dims da1 = ("time", tidx) :: rest ->
  tidx <> [] ->
  is_unique tidx = true ->
  is_monotonic_increasing tidx = true ->
  Forall (fun y => (- int64_max <= y - t <= int64_max)%Q) tidx ->
  exists da2 : DataArray V, sel_nearest "time" t da1 = Ok da2.
Proof.
  intros Hd Hne Hu Hasc Hfit. unfold sel_nearest. rewrite Hd. cbn [find_dim].
  rewrite String.eqb_refl.
  destruct (nearest_position_ascending tidx t Hne Hu Hasc Hfit) as [p Hp].
  rewrite Hp. cbn [bind]. eexists; reflexivity.
Qed.

(** Nothing is squeezed from a field whose two axes are not of length one. *)
Lemma squeeze_drop_two_axes (da : DataArray V) (latn lonn : string)
  (lati loni : list Q) :
  da_dims da = [(latn, lati); (lonn, loni)] ->
  length lati <> 1 ->
  length loni <> 1 ->
  squeeze_drop da = da.
Proof.
  intros Hd H1 H2. destruct da as [dims sc v]. cbn [da_dims] in Hd.
  subst dims. unfold squeeze_drop. cbn [da_dims da_values squeeze_axes snd].
  apply Nat.eqb_neq in H1, H2. now rewrite H1, H2.
Qed.

Lemma map_canonical_fixed (l : list string) :
  ~ In "latitude" l -> ~ In "longitude" l -> map canonical_name l = l.
Proof.
  intros H1 H2. rewrite <- (map_id l) at 2. apply map_ext_in.
  intros n Hn. apply canonical_name_fixed; intros ->; contradiction.
Qed.

Lemma nodup_between (X S Y : list string) :
  NoDup X -> NoDup S -> NoDup Y ->
  (forall n, In n X -> ~ In n S) ->
  (forall n, In n Y -> ~ In n S) ->
  (forall n, In n X -> ~ In n Y) ->
  NoDup (X ++ S ++ Y).
Proof.
  intros HX HS HY HXS HYS HXY.
  apply NoDup_app; [exact HX | |].
  - apply NoDup_app; [exact HS | exact HY |].
    intros n Hn HnY. exact (HYS n HnY Hn).
  - intros n Hn H. apply in_app_iff in H as [H|H].
    + exact (HXS n Hn H).
    + exact (HXY n Hn H).
Qed.

(** The steps of the standardizer on a field of the conventions. *)
Lemma standardize_steps (ds : Dataset V) (da0 da1 da2 : DataArray V)
  (times tidx : list Q) (depth : list (string * list Q))
  (latn lonn : string) (lati loni : list Q) (t : Q) :
  ds_var ds "anom" = Ok da0 ->
  ds_coord_values ds "time" = Ok times ->
  follows_conventions da0 tidx depth latn lati lonn loni ->
  length lati <> 1 ->
  length loni <> 1 ->
  select_surface ["zlev"; "depth"; "lev"] da0 = Ok da1 ->
  sel_nearest "time" (clamp_time times t) da1 = Ok da2 ->
  _standardize_anom_field ds t = Ok (canonical da2)
  /\ da_dims (canonical da2) = [("lat", lati); ("lon", loni)]
  /\ (well_shaped da0 = true -> well_shaped (canonical da2) = true).
Proof.
  intros Hvar Htimes (Hd & Hdepth & Hlat & Hlon & Hnd & Hres) H1 H2 HS1 HS2.
  destruct (select_surface_conventions da0 tidx depth latn lonn lati loni
              Hd Hdepth Hlat Hlon) as [HA _].
  destruct (HA da1 HS1) as (Hd1 & Hsc1 & HW1).
  destruct (sel_nearest_time da1 da2 tidx _ _ Hd1 HS2) as (Hd2 & Hsc2 & HW2).
  assert (Hnames : map canonical_name (coord_names da2)
                   = ["lat"; "lon"]
                     ++ map fst (da_scalars da0) ++ (map fst depth ++ ["time"])).
  { unfold coord_names, dim_names. rewrite Hd2, Hsc2, Hsc1, map_app.
    rewrite <- app_assoc. f_equal.
    - destruct Hlat as [<-|[<-|[]]], Hlon as [<-|[<-|[]]]; reflexivity.
    - apply map_canonical_fixed; rewrite !in_app_iff.
      + intros [H|[H|[H|[]]]]; try discriminate H.
        * apply (Hres "latitude"); [cbn; tauto | exact H].
        * destruct Hdepth as [-> | (dn & didx & -> & Hdn & _)]; [exact H|].
          destruct Hdn as [<-|[<-|[<-|[]]]]; destruct H as [H|[]];
            discriminate H.
      + intros [H|[H|[H|[]]]]; try discriminate H.
        * apply (Hres "longitude"); [cbn; tauto | exact H].
        * destruct Hdepth as [-> | (dn & didx & -> & Hdn & _)]; [exact H|].
          destruct Hdn as [<-|[<-|[<-|[]]]]; destruct H as [H|[]];
            discriminate H. }
  assert (Hnodup : has_dup (map canonical_name (coord_names da2)) = false).
  { rewrite Hnames. apply has_dup_false_iff. apply nodup_between.
    - constructor; [intros [H|[]]; discriminate H|].
      constructor; [intros [] | constructor].
    - exact Hnd.
    - destruct Hdepth as [-> | (dn & didx & -> & Hdn & _)].
      + constructor; [intros [] | constructor].
      + destruct Hdn as [<-|[<-|[<-|[]]]];
          (constructor; [intros [H|[]]; discriminate H|];
           constructor; [intros [] | constructor]).
    - intros n [<-|[<-|[]]]; apply Hres; cbn; tauto.
    - intros n H. apply in_app_iff in H as [H|[<-|[]]].
      + destruct Hdepth as [-> | (dn & didx & -> & Hdn & _)]; [destruct H|].
        destruct H as [<-|[]].
        destruct Hdn as [<-|[<-|[<-|[]]]]; apply Hres; cbn; tauto.
      + apply Hres; cbn; tauto.
    - intros n Hn H. apply in_app_iff in H as [H|[<-|[]]].
      + destruct Hdepth as [-> | (dn & didx & -> & Hdn & _)]; [destruct H|].
        destruct H as [<-|[]].
        destruct Hdn as [<-|[<-|[<-|[]]]];
          destruct Hn as [Hn|[Hn|[]]]; discriminate Hn.
      + destruct Hn as [Hn|[Hn|[]]]; discriminate Hn. }
  split; [|split].
  - unfold _standardize_anom_field, extract_field.
    rewrite Hvar. cbn [bind]. rewrite HS1. cbn [bind].
    rewrite Htimes. cbn [bind]. rewrite HS2. cbn [bind].
    rewrite (squeeze_drop_two_axes da2 latn lonn lati loni Hd2 H1 H2).
    now apply unify_coord_names_canonical.
  - unfold canonical. cbn [da_dims]. rewrite Hd2.
    destruct Hlat as [<-|[<-|[]]], Hlon as [<-|[<-|[]]]; reflexivity.
  - intros W. rewrite well_shaped_canonical. auto.
Qed.

End Standardized.

Lemma sst_follows_conventions :
  follows_conventions Examples.anom_sst Examples.sst_times
    [("zlev", [0#1]%Q)] "latitude" [-10#1; 10#1]%Q "longitude" [0#1; 1#1]%Q.
Proof.
  split; [reflexivity|].
  split; [right; exists "zlev", [0#1]%Q; cbn; tauto|].
  split; [cbn; tauto|]. split; [cbn; tauto|].
  split; [constructor | intros n _ []].
Defined.

(** C3.  The standardizer at a dataset whose latitude axis has a single
    entry, as a grid along one parallel has: [squeeze(drop=True)] removes the
    latitude axis with the time axis, and the field returned has the one
    dimension [lon], where the claim, and the docstring of [load_anomaly],
    promise a 2D field over [lat] and [lon].  The same happens where the
    depth axis repeats its first level: both copies of the level are kept,
    and the field returned has three dimensions. *)
Lemma standardize_squeezes_single_latitude :
  follows_conventions Examples.anom_one_lat [100#1; 200#1]%Q []
    "lat" [0#1]%Q "lon" [0#1; 1#1; 2#1]%Q
  /\ _standardize_anom_field Examples.ds_one_lat (100#1)
     = Ok (mkDA [("lon", [0#1; 1#1; 2#1]%Q)] [("time", 100#1)]
                (Examples.row [1; 2; 3]%Z))
  /\ ~ (forall out : DataArray Z,
          _standardize_anom_field Examples.ds_one_lat (100#1) = Ok out ->
          dim_names out = ["lat"; "lon"])
  /\ dim_names Examples.anom_two_surfaces = ["time"; "zlev"; "lat"; "lon"]
  /\ _standardize_anom_field Examples.ds_two_surfaces (100#1)
     = Ok (mkDA [("zlev", [0#1; 0#1]%Q);
                 ("lat", [-10#1; 10#1]%Q); ("lon", [0#1; 1#1]%Q)]
                [("time", 100#1)]
                (Axis [Examples.grid [[1; 2]; [3; 4]];
                       Examples.grid [[5; 6]; [7; 8]]])%Z)
  /\ ~ (forall out : DataArray Z,
          _standardize_anom_field Examples.ds_two_surfaces (100#1) = Ok out ->
          dim_names out = ["lat"; "lon"]).
Proof.
  split.
  { split; [reflexivity|]. split; [now left|].
    split; [cbn; tauto|]. split; [cbn; tauto|].
    split; [constructor | intros n _ []]. }
  split; [reflexivity|].
  split; [intros H; specialize (H _ eq_refl); discriminate H|].
  split; [reflexivity|]. split; [reflexivity|].
  intros H. specialize (H _ eq_refl). discriminate H.
Qed.

(** ** [load_anomaly] as a whole *)

(** Once the dataset is open and standardized, what [load_anomaly] returns or
    raises is what the bounding-box selection returns or raises; the dataset
    is closed when the selection has returned. *)
Lemma load_anomaly_selects (V : Type)
  (server : list event -> string -> result (Dataset V))
  (casts : string -> Q -> Q) (date : Q) (bbox : option BBox) (log log1 : list event)
  (ds : Dataset V) (da : DataArray V) :
  _open_ds server ERDDAP_URL log = (log1, Ok ds) ->
  _standardize_anom_field ds date = Ok da ->
  load_anomaly server casts date bbox log
  = match select_bbox casts da bbox with
    | Ok out => (log1 ++ [EvClose], Ok out)
    | Raise e => (log1, Raise e)
    end.
Proof.
  intros Ho Hs. unfold load_anomaly, io_bind, io_lift, ds_close, io_ret.
  rewrite Ho, Hs. now destruct (select_bbox casts da bbox).
Qed.

Lemma load_anomaly_without_bbox (V : Type)
  (server : list event -> string -> result (Dataset V))
  (casts : string -> Q -> Q) (date : Q) (log log1 : list event) (ds : Dataset V) (da : DataArray V) :
  _open_ds server ERDDAP_URL log = (log1, Ok ds) ->
  _standardize_anom_field ds date = Ok da ->
  load_anomaly server casts date None log = (log1 ++ [EvClose], Ok da).
Proof.
  intros Ho Hs.
  now rewrite (load_anomaly_selects V server casts date None log log1 ds da Ho Hs).
Qed.

(** * Further properties *)

(** ** The opener and the two functions that open the dataset *)

Section ServiceFacts.

Variable V : Type.
Variable server : list event -> string -> result (Dataset V).

(** The events of [_open_ds] are opens. *)
Lemma open_ds_events (url : string) (log : list event) :
  exists attempts : list event,
    Forall (fun ev => ev <> EvClose) attempts
    /\ fst (_open_ds server url log) = log ++ attempts.
Proof.
  destruct (open_ds_attempts V server log url) as [H|H]; rewrite H.
  - exists [EvOpen url]. split; [|reflexivity].
    constructor; [discriminate | constructor].
  - exists [EvOpen url; EvOpen (url ++ ".nc")%string]. split; [|reflexivity].
    repeat constructor; discriminate.
Qed.

End ServiceFacts.

(** X1. [_open_ds] returns a dataset exactly when the plain open returns it,
    or the plain open fails and the suffixed open returns it; it raises
    exactly when both opens fail, and then with the exception of the second.
    So a dataset that the plain URL serves is never looked for under the
    suffixed URL. *)
Theorem open_ds_outcome (V : Type)
  (server : list event -> string -> result (Dataset V))
  (log : list event) (url : string) :
  (forall ds : Dataset V,
      snd (_open_ds server url log) = Ok ds
      <-> server log url = Ok ds
          \/ ((exists e, server log url = Raise e)
              /\ server (log ++ [EvOpen url]) (url ++ ".nc")%string = Ok ds))
  /\ (forall e : exn,
         snd (_open_ds server url log) = Raise e
         <-> (exists e1, server log url = Raise e1)
             /\ server (log ++ [EvOpen url]) (url ++ ".nc")%string = Raise e)
  /\ (forall ds : Dataset V,
         server log url = Ok ds ->
         _open_ds server url log = (log ++ [EvOpen url], Ok ds)).
Proof.
  destruct (server log url) as [ds0|e0] eqn:H.
  - rewrite (open_ds_first_ok V server log url ds0 H). cbn [snd].
    split; [|split].
    + intros ds. split.
      * intros [= <-]. now left.
      * intros [[= <-]|[[e He] _]]; [reflexivity | discriminate He].
    + intros e. split; [discriminate|]. intros [[e1 He] _]. discriminate He.
    + now intros ds [= <-].
  - rewrite (open_ds_first_fails V server log url e0 H).
    unfold xr_open_dataset. cbn [snd].
    split; [|split].
    + intros ds. split.
      * intros E. right. split; [now exists e0 | exact E].
      * intros [E|[_ E]]; [discriminate E | exact E].
    + intros e. split.
      * intros E. split; [now exists e0 | exact E].
      * now intros [_ E].
    + discriminate.
Qed.

(** X2. [list_available_times] returns the time axis of the dataset that
    [_open_ds] has opened, and closes the dataset after reading the axis.
    When the opener raises, its exception is passed on.  When the dataset has
    no time coordinate the function raises [KeyError] and the dataset is left
    open: the close comes after the lookup and is skipped by the exception. *)
Theorem list_available_times_outcome (V : Type)
  (server : list event -> string -> result (Dataset V))
  (log log1 : list event) :
  (forall e : exn,
      _open_ds server ERDDAP_URL log = (log1, Raise e) ->
      list_available_times server log = (log1, Raise e))
  /\ (forall (ds : Dataset V) (times : list Q),
         _open_ds server ERDDAP_URL log = (log1, Ok ds) ->
         lookup "time" (ds_coords ds) = Some times ->
         list_available_times server log = (log1 ++ [EvClose], Ok times))
  /\ (forall ds : Dataset V,
         _open_ds server ERDDAP_URL log = (log1, Ok ds) ->
         lookup "time" (ds_coords ds) = None ->
         list_available_times server log = (log1, Raise KeyError)
         /\ ~ In EvClose (skipn (length log) log1)).
Proof.
  unfold list_available_times, io_bind, io_lift, ds_close, io_ret,
    ds_coord_values.
  split; [|split].
  - intros e H. now rewrite H.
  - intros ds times H Ht. now rewrite H, Ht.
  - intros ds H Ht. rewrite H, Ht. split; [reflexivity|].
    destruct (open_ds_events V server ERDDAP_URL log) as (att & F & E).
    rewrite H in E. cbn [fst] in E. subst log1.
    rewrite skipn_app, Nat.sub_diag, skipn_all. cbn [skipn app].
    intros HIn. rewrite Forall_forall in F. now apply (F EvClose HIn).
Qed.

(** X3. [load_anomaly] closes the dataset exactly when it returns: the events
    of a call are the open attempts, followed by one close if the call
    returns a field and by nothing if it raises.  An exception from the
    standardizer or from the selection leaves the dataset open. *)
Theorem load_anomaly_closes_iff_returns (V : Type)
  (server : list event -> string -> result (Dataset V))
  (casts : string -> Q -> Q) (date : Q) (bbox : option BBox) (log : list event) :
  exists attempts : list event,
    Forall (fun ev => ev <> EvClose) attempts
    /\ fst (_open_ds server ERDDAP_URL log) = log ++ attempts
    /\ fst (load_anomaly server casts date bbox log)
       = log ++ attempts
         ++ match snd (load_anomaly server casts date bbox log) with
            | Ok _ => [EvClose]
            | Raise _ => []
            end.
Proof.
  destruct (open_ds_events V server ERDDAP_URL log) as (att & F & E).
  exists att. split; [exact F|]. split; [exact E|].
  unfold load_anomaly, io_bind, io_lift, ds_close, io_ret.
  destruct (_open_ds server ERDDAP_URL log) as [log1 [ds|e]];
    cbn [fst] in E; subst log1.
  - destruct (_standardize_anom_field ds date) as [da|e]; cbn [fst snd].
    + destruct (select_bbox casts da bbox) as [out|e]; cbn [fst snd].
      * now rewrite app_assoc.
      * now rewrite app_nil_r.
    + now rewrite app_nil_r.
  - cbn [fst snd]. now rewrite app_nil_r.
Qed.

(** [load_anomaly] returns a field exactly when the open, the
    standardizer and the selection all return, and the field is then the
    selection from the standardized field of the opened dataset; it raises
    exactly the exception of the first of the three that raises. *)
Theorem load_anomaly_outcome (V : Type)
  (server : list event -> string -> result (Dataset V))
  (casts : string -> Q -> Q) (date : Q) (bbox : option BBox) (log : list event) :
  (forall out : DataArray V,
      snd (load_anomaly server casts date bbox log) = Ok out
      <-> exists (ds : Dataset V) (da : DataArray V),
            snd (_open_ds server ERDDAP_URL log) = Ok ds
            /\ _standardize_anom_field ds date = Ok da
            /\ select_bbox casts da bbox = Ok out)
  /\ (forall e : exn,
         snd (load_anomaly server casts date bbox log) = Raise e
         <-> snd (_open_ds server ERDDAP_URL log) = Raise e
             \/ (exists ds : Dataset V,
                    snd (_open_ds server ERDDAP_URL log) = Ok ds
                    /\ (_standardize_anom_field ds date = Raise e
                        \/ exists da : DataArray V,
                             _standardize_anom_field ds date = Ok da
                             /\ select_bbox casts da bbox = Raise e))).
Proof.
  unfold load_anomaly, io_bind, io_lift, ds_close, io_ret.
  destruct (_open_ds server ERDDAP_URL log) as [log1 [ds|e0]]; cbn [snd].
  - destruct (_standardize_anom_field ds date) as [da|e1] eqn:Hs; cbn [snd].
    + destruct (select_bbox casts da bbox) as [o|e2] eqn:Hb; cbn [snd].
      * split.
        -- intros out. split.
           ++ intros [= <-]. exists ds, da. now rewrite Hs.
           ++ intros (ds' & da' & [= <-] & Hs' & Hb').
              rewrite Hs in Hs'. injection Hs' as <-. congruence.
        -- intros e. split; [discriminate|].
           intros [H|(ds' & [= <-] & [H|(da' & Hs' & Hb')])];
             try discriminate H.
           ++ rewrite Hs in H. discriminate H.
           ++ rewrite Hs in Hs'. injection Hs' as <-. congruence.
      * split.
        -- intros out. split; [discriminate|].
           intros (ds' & da' & [= <-] & Hs' & Hb').
           rewrite Hs in Hs'. injection Hs' as <-. congruence.
        -- intros e. split.
           ++ intros [= <-]. right. exists ds. split; [reflexivity|].
              right. exists da. now rewrite Hs.
           ++ intros [H|(ds' & [= <-] & [H|(da' & Hs' & Hb')])];
                try discriminate H.
              ** rewrite Hs in H. discriminate H.
              ** rewrite Hs in Hs'. injection Hs' as <-. congruence.
    + split.
      * intros out. split; [discriminate|].
        intros (ds' & da' & [= <-] & Hs' & _). rewrite Hs in Hs'.
        discriminate Hs'.
      * intros e. split.
        -- intros [= <-]. right. exists ds. split; [reflexivity|].
           left. exact Hs.
        -- intros [H|(ds' & [= <-] & [H|(da' & Hs' & _)])];
             try discriminate H.
           ++ rewrite Hs in H. now injection H as <-.
           ++ rewrite Hs in Hs'. discriminate Hs'.
  - split.
    + intros out. split; [discriminate|].
      intros (ds' & da' & H & _). discriminate H.
    + intros e. split.
      * intros [= <-]. now left.
      * intros [[= <-]|(ds' & H & _)]; [reflexivity | discriminate H].
Qed.

(** ** The selection on ascending grids *)

Lemma find_dim_update_nth_none (name : string) (g : list Q -> list Q)
  (dims : list (string * list Q)) (k : nat) :
  find_dim name dims = None ->
  find_dim name (update_nth k (fun d => (fst d, g (snd d))) dims) = None.
Proof.
  revert k. induction dims as [|[n i] dims IH]; intros k H;
    [now destruct k|].
  simpl in H. destruct (String.eqb n name) eqn:E; [discriminate|].
  destruct (find_dim name dims) as [[k' i']|] eqn:F; [discriminate|].
  destruct k as [|k]; simpl; rewrite E.
  - now rewrite F.
  - now rewrite (IH k eq_refl).
Qed.

Lemma find_dim_name (name : string) (dims : list (string * list Q))
  (k : nat) (idx : list Q) :
  find_dim name dims = Some (k, idx) -> nth_error dims k = Some (name, idx).
Proof.
  revert k. induction dims as [|[n i] dims IH]; intros k H; simpl in H.
  - discriminate.
  - destruct (String.eqb n name) eqn:En.
    + injection H as <- <-. apply String.eqb_eq in En. now subst.
    + destruct (find_dim name dims) as [[k' i']|]; [|discriminate].
      injection H as <- <-. now apply IH.
Qed.

(** A slice along one dimension leaves the other dimensions where and what
    they are. *)
Lemma find_dim_update_nth_other (name name' : string) (g : list Q -> list Q)
  (dims : list (string * list Q)) (k k' : nat) (idx idx' : list Q) :
  find_dim name dims = Some (k, idx) ->
  find_dim name' dims = Some (k', idx') ->
  name <> name' ->
  find_dim name' (update_nth k (fun d => (fst d, g (snd d))) dims)
  = Some (k', idx').
Proof.
  revert k k'. induction dims as [|[n i] dims IH]; intros k k' H H' Hne;
    simpl in H, H'.
  - discriminate.
  - destruct (String.eqb n name) eqn:E, (String.eqb n name') eqn:E'.
    + apply String.eqb_eq in E, E'. congruence.
    + injection H as <- <-. simpl. now rewrite E'.
    + injection H' as <- <-.
      destruct (find_dim name dims) as [[k0 i0]|]; [|discriminate].
      injection H as <- <-. simpl. now rewrite E'.
    + destruct (find_dim name dims) as [[k0 i0]|] eqn:F; [|discriminate].
      destruct (find_dim name' dims) as [[k0' i0']|] eqn:F'; [|discriminate].
      injection H as <- <-. injection H' as <- <-. simpl. rewrite E'.
      now rewrite (IH k0 k0' eq_refl eq_refl Hne).
Qed.

Lemma sel_slice_ascending (V : Type) (casts : string -> Q -> Q)
  (name : string) (da : DataArray V) (k : nat) (idx : list Q) (a b : Q) :
  find_dim name (da_dims da) = Some (k, idx) ->
  is_monotonic_increasing idx = true ->
  representable (casts name) a ->
  representable (casts name) b ->
  sel_slice casts name a b da
  = Ok (isel_slice k (searchsorted idx a SideLeft)
                     (searchsorted idx b SideRight) da)
  /\ find_dim name
       (da_dims (isel_slice k (searchsorted idx a SideLeft)
                              (searchsorted idx b SideRight) da))
     = Some (k, filter (in_closed_range a b) idx).
Proof.
  intros Hk Hasc Ra Rb. split.
  - unfold sel_slice.
    now rewrite Hk, (slice_indexer_ascending (casts name) idx a b Hasc Ra Rb).
  - unfold isel_slice. cbn [da_dims].
    rewrite (find_dim_update_nth name (py_slice _ _) _ _ _ Hk).
    now rewrite (py_slice_ascending idx a b Hasc).
Qed.

(** The same for bounds of any kind: the slice keeps the labels between the
    labels that the bounds stand for. *)
Lemma sel_slice_ascending_label (V : Type) (casts : string -> Q -> Q)
  (name : string) (da : DataArray V) (k : nat) (idx : list Q) (a b : Q) :
  find_dim name (da_dims da) = Some (k, idx) ->
  is_monotonic_increasing idx = true ->
  exists s e : nat,
    sel_slice casts name a b da = Ok (isel_slice k s e da)
    /\ py_slice s e idx = slice_labels (casts name) idx a b
    /\ find_dim name (da_dims (isel_slice k s e da))
       = Some (k, slice_labels (casts name) idx a b).
Proof.
  intros Hk Hasc.
  exists (searchsorted idx (bound_label (casts name) idx a) SideLeft),
         (searchsorted idx (bound_label (casts name) idx b) SideRight).
  assert (E : py_slice
                (searchsorted idx (bound_label (casts name) idx a) SideLeft)
                (searchsorted idx (bound_label (casts name) idx b) SideRight)
                idx
              = slice_labels (casts name) idx a b)
    by apply (py_slice_ascending idx _ _ Hasc).
  split; [|split].
  - unfold sel_slice.
    now rewrite Hk, (slice_indexer_ascending_label (casts name) idx a b Hasc).
  - exact E.
  - unfold isel_slice. cbn [da_dims].
    rewrite (find_dim_update_nth name (py_slice _ _) _ _ _ Hk).
    now rewrite E.
Qed.

Lemma in_closed_range_compat (a a' b b' y : Q) :
  (a == a')%Q -> (b == b')%Q ->
  in_closed_range a b y = in_closed_range a' b' y.
Proof.
  intros Ha Hb. unfold in_closed_range. now rewrite Ha, Hb.
Qed.

Lemma slice_labels_representable (cast : Q -> Q) (idx : list Q) (a b : Q) :
  representable cast a ->
  representable cast b ->
  slice_labels cast idx a b = filter (in_closed_range a b) idx.
Proof.
  intros Ra Rb. unfold slice_labels. apply filter_ext. intros y.
  apply in_closed_range_compat; now apply bound_label_representable.
Qed.

Lemma lon_labels_representable (cast : Q -> Q) (idx : list Q)
  (lon_min lon_max : Q) :
  representable cast lon_min ->
  representable cast lon_max ->
  representable cast 180%Q ->
  representable cast (-180)%Q ->
  lon_labels cast lon_min lon_max idx = lon_selection lon_min lon_max idx.
Proof.
  intros R1 R2 R3 R4. unfold lon_labels, lon_selection.
  now rewrite !slice_labels_representable.
Qed.

Lemma filter_ascending (p : Q -> bool) (idx : list Q) :
  is_monotonic_increasing idx = true ->
  is_monotonic_increasing (filter p idx) = true.
Proof.
  induction idx as [|x tl IH]; intros H; [reflexivity|].
  destruct (ascending_cons x tl H) as [Htl F]. specialize (IH Htl).
  cbn [filter]. destruct (p x); [|exact IH].
  assert (F' : Forall (fun y => (x <= y)%Q) (filter p tl)).
  { apply Forall_forall. intros y Hy. apply filter_In in Hy as [Hy _].
    rewrite Forall_forall in F. now apply F. }
  destruct (filter p tl) as [|y l] eqn:E; [reflexivity|].
  change (Qle_bool x y && is_monotonic_increasing (y :: l) = true).
  apply andb_true_iff. split; [|exact IH].
  apply Qle_bool_iff. now inversion F'.
Qed.

Lemma filter_none {A : Type} (p : A -> bool) (l : list A) :
  (forall y, In y l -> p y = false) -> filter p l = [].
Proof.
  induction l as [|x l IH]; intros H; [reflexivity|].
  cbn [filter]. rewrite (H x (or_introl eq_refl)).
  apply IH. intros y Hy. apply H. now right.
Qed.

(** X4. With [lon_min <= lon_max], a longitude axis sorted ascending and
    bounds that the dtype of the axis holds as they are, the longitude step
    returns the grid longitudes of the closed range [[lon_min, lon_max]], at
    their positions, and no others; when the range holds no grid longitude
    the step returns a field whose longitude axis is empty, it does not
    raise. *)
Theorem select_lon_ascending_inclusive (V : Type) (casts : string -> Q -> Q)
  (da : DataArray V) (k : nat) (idx : list Q) (lon_min lon_max : Q) :
  find_dim "lon" (da_dims da) = Some (k, idx) ->
  is_monotonic_increasing idx = true ->
  (lon_min <= lon_max)%Q ->
  representable (casts "lon") lon_min ->
  representable (casts "lon") lon_max ->
  exists s e : nat,
    select_lon casts da lon_min lon_max = Ok (isel_slice k s e da)
    /\ find_dim "lon" (da_dims (isel_slice k s e da))
       = Some (k, filter (in_closed_range lon_min lon_max) idx)
    /\ (forall q : nat,
           s <= q < e
           <-> q < length idx /\ (lon_min <= nth q idx 0%Q <= lon_max)%Q)
    /\ ((forall y, In y idx -> ~ (lon_min <= y <= lon_max)%Q) ->
        find_dim "lon" (da_dims (isel_slice k s e da)) = Some (k, [])).
Proof.
  intros Hk Hasc Hle R1 R2.
  destruct (sel_slice_ascending V casts "lon" da k idx lon_min lon_max
              Hk Hasc R1 R2) as [Hsel Hdim].
  exists (searchsorted idx lon_min SideLeft),
         (searchsorted idx lon_max SideRight).
  split.
  { unfold select_lon. apply Qle_bool_iff in Hle. now rewrite Hle. }
  split; [exact Hdim|].
  split; [apply (slice_positions_ascending idx _ _ Hasc)|].
  intros Hnone. rewrite Hdim. f_equal. f_equal.
  apply filter_none. intros y Hy.
  destruct (in_closed_range lon_min lon_max y) eqn:E; [|reflexivity].
  exfalso. apply (Hnone y Hy).
  unfold in_closed_range in E. apply andb_true_iff in E as [E1 E2].
  apply Qle_bool_iff in E1, E2. now split.
Qed.

Lemma select_lon_ascending_inclusive_witness :
  exists s e : nat,
    select_lon Dtypes.float32 Examples.field_asc (-175#1) (175#1)
    = Ok (isel_slice 1 s e Examples.field_asc)
    /\ find_dim "lon" (da_dims (isel_slice 1 s e Examples.field_asc))
       = Some (1, [-175#1; 0#1; 175#1]%Q).
Proof.
  destruct (select_lon_ascending_inclusive Z Dtypes.float32
              Examples.field_asc 1 Examples.lons (-175#1) (175#1)
              eq_refl eq_refl)
    as (s & e & H1 & H2 & _).
  - discriminate.
  - vm_compute. reflexivity.
  - vm_compute. reflexivity.
  - exists s, e. split; [exact H1 | exact H2].
Defined.

(** The longitude step on an ascending longitude axis, in either of its two
    branches and for bounds of any kind. *)
Lemma select_lon_ascending (V : Type) (casts : string -> Q -> Q)
  (da : DataArray V) (k : nat) (idx : list Q) (lon_min lon_max : Q) :
  find_dim "lon" (da_dims da) = Some (k, idx) ->
  is_monotonic_increasing idx = true ->
  exists out : DataArray V,
    select_lon casts da lon_min lon_max = Ok out
    /\ find_dim "lon" (da_dims out)
       = Some (k, lon_labels (casts "lon") lon_min lon_max idx)
    /\ (forall name k' idx',
           name <> "lon" ->
           find_dim name (da_dims da) = Some (k', idx') ->
           find_dim name (da_dims out) = Some (k', idx'))
    /\ dim_names out = dim_names da
    /\ da_scalars out = da_scalars da
    /\ (well_shaped da = true -> well_shaped out = true).
Proof.
  intros Hk Hasc. unfold select_lon, lon_labels.
  destruct (Qle_bool lon_min lon_max).
  - destruct (sel_slice_ascending_label V casts "lon" da k idx
                lon_min lon_max Hk Hasc) as (s & e & Hsel & _ & Hdim).
    eexists. split; [exact Hsel|]. split; [exact Hdim|].
    split; [|split; [|split]].
    + intros name k' idx' Hne Hn. unfold isel_slice. cbn [da_dims].
      apply (find_dim_update_nth_other "lon" name (py_slice _ _) _ k k' idx idx'
               Hk Hn). congruence.
    + unfold dim_names, isel_slice. cbn [da_dims].
      apply (update_nth_names (py_slice _ _)).
    + reflexivity.
    + apply (isel_slice_well_shaped V da "lon" k idx _ _ Hk).
  - destruct (sel_slice_ascending_label V casts "lon" da k idx
                lon_min 180%Q Hk Hasc) as (s & e & Hl & El & _).
    destruct (sel_slice_ascending_label V casts "lon" da k idx
                (-180)%Q lon_max Hk Hasc) as (s' & e' & Hr & Er & _).
    rewrite Hl, Hr. cbn [bind].
    rewrite (concat_of_slices V "lon" da k idx _ _ _ _ Hk).
    rewrite El, Er.
    eexists. split; [reflexivity|]. cbn [da_dims da_scalars].
    split; [|split; [|split; [|split]]].
    + apply (find_dim_update_nth "lon" (fun _ => _ ++ _) _ _ _ Hk).
    + intros name k' idx' Hne Hn.
      apply (find_dim_update_nth_other "lon" name (fun _ => _ ++ _) _ k k'
               idx idx' Hk Hn). congruence.
    + unfold dim_names. cbn [da_dims].
      apply (update_nth_names (fun _ => _ ++ _)).
    + reflexivity.
    + intros W.
      pose proof (concat_of_slices_well_shaped V "lon" da k idx
                    s e s' e' Hk W) as HW.
      rewrite El, Er in HW. exact HW.
Qed.

(** The selection on a grid with both axes ascending. *)
Lemma select_bbox_on_ascending_grid (V : Type) (casts : string -> Q -> Q)
  (da : DataArray V) (klat klon : nat) (lati loni : list Q)
  (lat_min lat_max lon_min lon_max : Q) :
  find_dim "lat" (da_dims da) = Some (klat, lati) ->
  find_dim "lon" (da_dims da) = Some (klon, loni) ->
  is_monotonic_increasing lati = true ->
  is_monotonic_increasing loni = true ->
  exists out : DataArray V,
    select_bbox casts da (Some (lat_min, lat_max, lon_min, lon_max)) = Ok out
    /\ dim_names out = dim_names da
    /\ find_dim "lat" (da_dims out)
       = Some (klat, slice_labels (casts "lat") lati
                       (Qmin_bool lat_min lat_max) (Qmax_bool lat_min lat_max))
    /\ find_dim "lon" (da_dims out)
       = Some (klon, lon_labels (casts "lon") lon_min lon_max loni)
    /\ da_scalars out = da_scalars da
    /\ (well_shaped da = true -> well_shaped out = true).
Proof.
  intros Hlat Hlon Alat Alon.
  destruct (sel_slice_ascending_label V casts "lat" da klat lati
              (Qmin_bool lat_min lat_max) (Qmax_bool lat_min lat_max)
              Hlat Alat) as (s & e & Hsel & _ & Hdim).
  set (da1 := isel_slice klat s e da) in *.
  assert (Hlon1 : find_dim "lon" (da_dims da1) = Some (klon, loni)).
  { unfold da1, isel_slice. cbn [da_dims].
    apply (find_dim_update_nth_other "lat" "lon" (py_slice _ _) _ klat klon
             lati loni Hlat Hlon). discriminate. }
  destruct (select_lon_ascending V casts da1 klon loni lon_min lon_max
              Hlon1 Alon)
    as (out & Ho & Hol & Hother & Hnames & Hsc & HW).
  exists out. split.
  { unfold select_bbox. rewrite select_lat_bounds, Hsel. cbn [bind].
    exact Ho. }
  split.
  { rewrite Hnames. unfold dim_names, da1, isel_slice. cbn [da_dims].
    apply (update_nth_names (py_slice _ _)). }
  split; [apply Hother; [discriminate | exact Hdim]|].
  split; [exact Hol|].
  split; [rewrite Hsc; reflexivity|].
  intros W. apply HW.
  apply (isel_slice_well_shaped V da "lat" klat lati _ _ Hlat W).
Qed.

Lemma box_labels_representable (casts : string -> Q -> Q)
  (lati loni : list Q) (lat_min lat_max lon_min lon_max : Q) :
  box_representable casts (lat_min, lat_max, lon_min, lon_max) ->
  slice_labels (casts "lat") lati
    (Qmin_bool lat_min lat_max) (Qmax_bool lat_min lat_max)
  = inclusive_range lat_min lat_max lati
  /\ lon_labels (casts "lon") lon_min lon_max loni
     = lon_selection lon_min lon_max loni.
Proof.
  intros (R1 & R2 & R3 & R4 & R5 & R6). split.
  - apply slice_labels_representable;
      [now apply Qmin_bool_cases | now apply Qmax_bool_cases].
  - now apply lon_labels_representable.
Qed.

(** X5. On a field whose latitude and longitude axes are both sorted
    ascending the selection never raises, whatever the box and whatever the
    dtype of the axes: it returns a field with the dimensions of the input
    in their order, whose scalar coordinates are those of the input, and
    which is well shaped when the input is.  For a box whose bounds the
    dtypes of the axes hold as they are, its latitudes are the grid
    latitudes between the two latitude bounds and its longitudes are the
    grid longitudes the box selects. *)
Theorem select_bbox_ascending_grid (V : Type) (casts : string -> Q -> Q)
  (da : DataArray V) (klat klon : nat) (lati loni : list Q)
  (lat_min lat_max lon_min lon_max : Q) :
  find_dim "lat" (da_dims da) = Some (klat, lati) ->
  find_dim "lon" (da_dims da) = Some (klon, loni) ->
  is_monotonic_increasing lati = true ->
  is_monotonic_increasing loni = true ->
  exists (out : DataArray V) (lats lons : list Q),
    select_bbox casts da (Some (lat_min, lat_max, lon_min, lon_max)) = Ok out
    /\ dim_names out = dim_names da
    /\ find_dim "lat" (da_dims out) = Some (klat, lats)
    /\ find_dim "lon" (da_dims out) = Some (klon, lons)
    /\ da_scalars out = da_scalars da
    /\ (well_shaped da = true -> well_shaped out = true)
    /\ (box_representable casts (lat_min, lat_max, lon_min, lon_max) ->
        lats = inclusive_range lat_min lat_max lati
        /\ lons = lon_selection lon_min lon_max loni).
Proof.
  intros Hlat Hlon Alat Alon.
  destruct (select_bbox_on_ascending_grid V casts da klat klon lati loni
              lat_min lat_max lon_min lon_max Hlat Hlon Alat Alon)
    as (out & H1 & H2 & H3 & H4 & H5 & H6).
  exists out. eexists. eexists.
  repeat (split; [eassumption|]).
  apply box_labels_representable.
Qed.

Lemma select_bbox_ascending_grid_witness :
  exists out : DataArray Z,
    select_bbox Dtypes.float32 Examples.field_asc
      (Some (10#1, -5#1, 170#1, -170#1)%Q)
    = Ok out
    /\ dim_names out = ["lat"; "lon"]
    /\ find_dim "lat" (da_dims out) = Some (0, [0#1; 10#1]%Q)
    /\ find_dim "lon" (da_dims out)
       = Some (1, [175#1; 180#1; -180#1; -175#1]%Q).
Proof.
  destruct (select_bbox_ascending_grid Z Dtypes.float32 Examples.field_asc 0 1
              [-10#1; 0#1; 10#1]%Q Examples.lons
              (10#1) (-5#1) (170#1) (-170#1)
              eq_refl eq_refl eq_refl eq_refl)
    as (out & lats & lons & H1 & H2 & H3 & H4 & _ & _ & H7).
  destruct H7 as [-> ->]; [repeat split; vm_compute; reflexivity|].
  exists out. repeat split; assumption.
Defined.

Lemma lon_selection_partition (idx : list Q) (lon_min lon_max : Q) :
  (lon_max < lon_min)%Q ->
  Forall (fun y => (-180 <= y <= 180)%Q) idx ->
  (forall y : Q,
      In y (lon_selection lon_min lon_max idx)
      <-> In y idx /\ ((lon_min <= y)%Q \/ (y <= lon_max)%Q))
  /\ length (lon_selection lon_min lon_max idx)
     + length (filter (fun y => Qlt_bool lon_max y && Qlt_bool y lon_min) idx)
     = length idx.
Proof.
  intros Hcross Hbox. unfold lon_selection.
  apply Qle_bool_false_iff in Hcross as Hb. rewrite Hb.
  split.
  - intros y. rewrite in_app_iff, !filter_In. unfold in_closed_range.
    rewrite !andb_true_iff, !Qle_bool_iff.
    rewrite Forall_forall in Hbox. split.
    + intros [[Hy [H1 H2]]|[Hy [H1 H2]]]; split; auto.
    + intros [Hy [H|H]]; destruct (Hbox y Hy); [left | right]; auto.
  - rewrite length_app.
    induction Hbox as [|y l [Hy1 Hy2] _ IH]; [reflexivity|].
    cbn [filter length].
    assert (Ee : in_closed_range lon_min 180 y = Qle_bool lon_min y).
    { unfold in_closed_range.
      assert (E : Qle_bool y 180 = true) by now apply Qle_bool_iff.
      now rewrite E, andb_true_r. }
    assert (Ew : in_closed_range (-180) lon_max y = Qle_bool y lon_max).
    { unfold in_closed_range.
      assert (E : Qle_bool (-180) y = true) by now apply Qle_bool_iff.
      now rewrite E. }
    rewrite Ee, Ew. unfold Qlt_bool in *.
    destruct (Qle_bool lon_min y) eqn:E1, (Qle_bool y lon_max) eqn:E2;
      cbn [negb andb length]; try lia.
    exfalso. apply Qle_bool_iff in E1, E2. lra.
Qed.

(** X6. On an ascending grid whose longitudes lie between -180 and 180, a
    box across the antimeridian ([lon_min > lon_max]) whose bounds the dtype
    of the axis holds as they are selects exactly the grid longitudes that
    are at least [lon_min] or at most [lon_max], each of them once: the
    selected longitudes and those strictly between [lon_max] and [lon_min]
    make up the grid. *)
Theorem select_lon_crossing_partition (V : Type) (casts : string -> Q -> Q)
  (da : DataArray V) (k : nat) (idx : list Q) (lon_min lon_max : Q) :
  find_dim "lon" (da_dims da) = Some (k, idx) ->
  is_monotonic_increasing idx = true ->
  (lon_max < lon_min)%Q ->
  Forall (fun y => (-180 <= y <= 180)%Q) idx ->
  representable (casts "lon") lon_min ->
  representable (casts "lon") lon_max ->
  representable (casts "lon") 180%Q ->
  representable (casts "lon") (-180)%Q ->
  exists (out : DataArray V) (selected : list Q),
    select_lon casts da lon_min lon_max = Ok out
    /\ find_dim "lon" (da_dims out) = Some (k, selected)
    /\ (forall y : Q,
           In y selected
           <-> In y idx /\ ((lon_min <= y)%Q \/ (y <= lon_max)%Q))
    /\ length selected
       + length (filter (fun y => Qlt_bool lon_max y && Qlt_bool y lon_min)
                   idx)
       = length idx.
Proof.
  intros Hk Hasc Hcross Hbox R1 R2 R3 R4.
  destruct (select_lon_ascending V casts da k idx lon_min lon_max Hk Hasc)
    as (out & Ho & Hl & _).
  rewrite (lon_labels_representable _ idx _ _ R1 R2 R3 R4) in Hl.
  destruct (lon_selection_partition idx lon_min lon_max Hcross Hbox)
    as [Hin Hlen].
  exists out, (lon_selection lon_min lon_max idx).
  split; [exact Ho|]. split; [exact Hl|]. split; [exact Hin | exact Hlen].
Qed.

Lemma select_lon_crossing_partition_witness :
  exists (out : DataArray Z) (selected : list Q),
    select_lon Dtypes.float32 Examples.field_asc (170#1) (-170#1) = Ok out
    /\ find_dim "lon" (da_dims out) = Some (1, selected)
    /\ length selected
       + length (filter (fun y => Qlt_bool (-170#1) y && Qlt_bool y (170#1))
                   Examples.lons)
       = 5.
Proof.
  destruct (select_lon_crossing_partition Z Dtypes.float32 Examples.field_asc
              1 Examples.lons (170#1) (-170#1) eq_refl eq_refl eq_refl)
    as (out & sel & H1 & H2 & _ & H4).
  - repeat constructor; discriminate.
  - vm_compute. reflexivity.
  - vm_compute. reflexivity.
  - vm_compute. reflexivity.
  - vm_compute. reflexivity.
  - exists out, sel. repeat split; assumption.
Defined.

(** X7. A field that lacks the dimension [lat] or the dimension [lon] cannot
    be cut by a box: for every box the selection raises [KeyError] or
    [ValueError] and never returns.  When the field has no coordinate [lat]
    at all, as after the squeeze of a single latitude, the exception is
    [KeyError]. *)
Theorem select_bbox_missing_dimension (V : Type) (casts : string -> Q -> Q)
  (da : DataArray V) (bbox : BBox) :
  find_dim "lat" (da_dims da) = None \/ find_dim "lon" (da_dims da) = None ->
  exists e : exn,
    select_bbox casts da (Some bbox) = Raise e
    /\ (e = KeyError \/ e = ValueError)
    /\ (name_in "lat" (coord_names da) = false -> e = KeyError).
Proof.
  intros H. destruct bbox as [[[lat_min lat_max] lon_min] lon_max].
  destruct (select_bbox casts da (Some (lat_min, lat_max, lon_min, lon_max)))
    as [out|e] eqn:E.
  - exfalso. unfold select_bbox in E.
    destruct (select_lat casts da lat_min lat_max) as [da1|] eqn:E1;
      cbn [bind] in E; [|discriminate E].
    rewrite select_lat_bounds in E1.
    destruct (sel_slice_inv _ _ _ _ _ _ _ E1)
      as (k & idx & s & t & Hk & _ & ->).
    destruct H as [H|H]; [congruence|].
    assert (H1 : find_dim "lon" (da_dims (isel_slice k s t da)) = None).
    { unfold isel_slice. cbn [da_dims].
      now apply (find_dim_update_nth_none "lon" (py_slice s t)). }
    unfold select_lon, sel_slice in E. rewrite H1 in E.
    destruct (Qle_bool lon_min lon_max);
      destruct (name_in "lon" (map fst (da_scalars (isel_slice k s t da))));
      discriminate E.
  - exists e. split; [exact E|].
    split; [now apply (select_bbox_raises V casts da _ e E)|].
    intros Hno. unfold coord_names in Hno. rewrite name_in_app in Hno.
    apply orb_false_iff in Hno as [Hd Hs].
    assert (Hlat : find_dim "lat" (da_dims da) = None).
    { destruct (find_dim "lat" (da_dims da)) as [[k idx]|] eqn:Hk;
        [|reflexivity].
      exfalso. apply find_dim_name in Hk. apply nth_error_In in Hk.
      apply (in_map fst) in Hk. cbn [fst] in Hk.
      apply name_in_false_iff in Hd. now apply Hd. }
    unfold select_bbox in E. rewrite select_lat_bounds in E.
    unfold sel_slice in E. rewrite Hlat, Hs in E. cbn [bind] in E.
    now injection E as <-.
Qed.

Lemma select_bbox_missing_dimension_witness :
  select_bbox Dtypes.float32
    (mkDA [("lon", [0#1; 1#1; 2#1]%Q)] [("time", 100#1)]
          (Examples.row [1; 2; 3]%Z))
    (Some (-10#1, 10#1, 0#1, 1#1)%Q)
  = Raise KeyError.
Proof.
  destruct (select_bbox_missing_dimension Z Dtypes.float32
              (mkDA [("lon", [0#1; 1#1; 2#1]%Q)] [("time", 100#1)]
                    (Examples.row [1; 2; 3]%Z))
              (-10#1, 10#1, 0#1, 1#1)%Q)
    as (e & H1 & _ & H3); [left; reflexivity|].
  rewrite <- (H3 eq_refl). exact H1.
Defined.

(** A latitude that is kept as a scalar coordinate only names no dimension
    to slice. *)
Example select_bbox_scalar_latitude_computed :
  select_bbox Dtypes.float32 Dtypes.field_scalar_lat
    (Some (-10#1, 10#1, 0#1, 1#1)%Q)
  = Raise ValueError.
Proof. reflexivity. Qed.

(** ** The standardizer on any dataset *)

Lemma open_ds_outcome_witness :
  _open_ds Cases.server_sst ERDDAP_URL []
  = ([EvOpen ERDDAP_URL], Ok Examples.ds_sst).
Proof.
  destruct (open_ds_outcome Z Cases.server_sst [] ERDDAP_URL) as (_ & _ & H).
  now apply H.
Defined.

Lemma list_available_times_outcome_witness :
  list_available_times Cases.server_sst []
  = ([EvOpen ERDDAP_URL; EvClose], Ok Examples.sst_times)
  /\ list_available_times Cases.server_no_time []
     = ([EvOpen ERDDAP_URL], Raise KeyError).
Proof.
  split.
  - destruct (list_available_times_outcome Z Cases.server_sst []
                [EvOpen ERDDAP_URL]) as (_ & H & _).
    now apply (H Examples.ds_sst Examples.sst_times).
  - destruct (list_available_times_outcome Z Cases.server_no_time []
                [EvOpen ERDDAP_URL]) as (_ & _ & H).
    now apply (H Examples.ds_empty).
Defined.

Section StandardizerFacts.

Variable V : Type.

(** Whenever the renaming step returns, it returns the array under its
    canonical names. *)
Lemma unify_coord_names_inv (da out : DataArray V) :
  unify_coord_names da = Ok out -> out = canonical da.
Proof.
  unfold unify_coord_names.
  pose proof (rename_map_canonical (coord_names da)) as Hm.
  destruct (name_in "latitude" (coord_names da)) eqn:E1,
           (name_in "longitude" (coord_names da)) eqn:E2;
    cbn [app] in *.
  1-3: unfold rename;
       match goal with
       | |- context [if negb ?c then _ else _] => destruct c
       end; cbn [negb]; [|discriminate];
       rewrite (rename_canonical V da _ Hm);
       destruct (has_dup (coord_names (canonical da))); [discriminate|];
       now intros [= <-].
  intros [= <-]. symmetry. now apply canonical_fixed.
Qed.

Lemma standardize_inv (ds : Dataset V) (t : Q) (out : DataArray V) :
  _standardize_anom_field ds t = Ok out ->
  exists pre : DataArray V,
    extract_field ds t = Ok pre /\ out = canonical pre.
Proof.
  unfold _standardize_anom_field. intros H.
  destruct (extract_field ds t) as [pre|]; cbn [bind] in H; [|discriminate H].
  exists pre. split; [reflexivity|]. now apply unify_coord_names_inv.
Qed.

Lemma extract_field_inv (ds : Dataset V) (t : Q) (pre : DataArray V) :
  extract_field ds t = Ok pre ->
  exists (da0 da1 da2 : DataArray V) (times : list Q),
    ds_var ds "anom" = Ok da0
    /\ select_surface ["zlev"; "depth"; "lev"] da0 = Ok da1
    /\ ds_coord_values ds "time" = Ok times
    /\ sel_nearest "time" (clamp_time times t) da1 = Ok da2
    /\ pre = squeeze_drop da2.
Proof.
  unfold extract_field. intros H.
  destruct (ds_var ds "anom") as [da0|]; cbn [bind] in H; [|discriminate H].
  destruct (select_surface ["zlev"; "depth"; "lev"] da0) as [da1|] eqn:E1;
    cbn [bind] in H; [|discriminate H].
  destruct (ds_coord_values ds "time") as [times|]; cbn [bind] in H;
    [|discriminate H].
  destruct (sel_nearest "time" (clamp_time times t) da1) as [da2|] eqn:E2;
    cbn [bind] in H; [|discriminate H].
  injection H as <-. now exists da0, da1, da2, times.
Qed.

Lemma squeeze_axes_dims (k : nat) (dims : list (string * list Q))
  (v : nd V) :
  fst (squeeze_axes k dims v)
  = filter (fun d => negb (length (snd d) =? 1)) dims.
Proof.
  revert k v. induction dims as [|d dims IH]; intros k v; [reflexivity|].
  cbn [squeeze_axes filter]. destruct (length (snd d) =? 1); cbn [negb].
  - apply IH.
  - specialize (IH (S k) v).
    destruct (squeeze_axes (S k) dims v) as [dims' v']. cbn [fst] in *.
    now rewrite IH.
Qed.

Lemma squeeze_drop_dims (da : DataArray V) :
  da_dims (squeeze_drop da)
  = filter (fun d => negb (length (snd d) =? 1)) (da_dims da).
Proof.
  unfold squeeze_drop.
  pose proof (squeeze_axes_dims 0 (da_dims da) (da_values da)) as H.
  destruct (squeeze_axes 0 (da_dims da) (da_values da)) as [dims v].
  exact H.
Qed.

End StandardizerFacts.

(** X8. A field that the standardizer returns never carries the name
    [latitude] or [longitude], on a dimension or on a scalar coordinate: it
    is the extracted field with every coordinate under its canonical name,
    values and labels unchanged. *)
Theorem standardize_never_long_names (V : Type) (ds : Dataset V) (t : Q)
  (out : DataArray V) :
  _standardize_anom_field ds t = Ok out ->
  ~ In "latitude" (coord_names out)
  /\ ~ In "longitude" (coord_names out)
  /\ exists pre : DataArray V,
       extract_field ds t = Ok pre
       /\ coord_names out = map canonical_name (coord_names pre)
       /\ da_values out = da_values pre
       /\ map snd (da_dims out) = map snd (da_dims pre)
       /\ map snd (da_scalars out) = map snd (da_scalars pre).
Proof.
  intros H. destruct (standardize_inv V ds t out H) as (pre & Hpre & ->).
  rewrite coord_names_canonical.
  split; [|split].
  - intros HIn. apply in_map_iff in HIn as (n & E & _).
    destruct (canonical_name_short n). congruence.
  - intros HIn. apply in_map_iff in HIn as (n & E & _).
    destruct (canonical_name_short n). congruence.
  - exists pre. split; [exact Hpre|]. split; [reflexivity|].
    split; [reflexivity|]. unfold canonical. cbn [da_dims da_scalars].
    now rewrite !map_map.
Qed.

Lemma standardize_never_long_names_witness :
  ~ In "latitude" ["lat"; "lon"; "zlev"; "time"]
  /\ ~ In "longitude" ["lat"; "lon"; "zlev"; "time"].
Proof.
  destruct (standardize_never_long_names Z Examples.ds_sst (100#1)
              (mkDA [("lat", [-10#1; 10#1]%Q); ("lon", [0#1; 1#1]%Q)]
                    [("zlev", 0#1); ("time", 100#1)]
                    (Examples.grid [[1; 2]; [3; 4]]%Z))
              eq_refl) as (H1 & H2 & _).
  split; [exact H1 | exact H2].
Defined.

Lemma map_collision (f : string -> string) (l : list string) (a b : string) :
  In a l -> In b l -> a <> b -> f a = f b -> has_dup (map f l) = true.
Proof.
  intros Ha Hb Hne Hf.
  destruct (has_dup (map f l)) eqn:E; [reflexivity|]. exfalso.
  apply has_dup_false_iff in E.
  induction l as [|x l IH]; [destruct Ha|].
  cbn [map] in E. inversion E as [|? ? Hx Hl]; subst.
  destruct Ha as [->|Ha], Hb as [->|Hb].
  - now apply Hne.
  - apply Hx. rewrite Hf. now apply in_map.
  - apply Hx. rewrite <- Hf. now apply in_map.
  - now apply IH.
Qed.

(** X9. When the extracted field has a coordinate [lat] beside a coordinate
    [latitude], or [lon] beside [longitude], the standardizer raises
    [ValueError]: the renaming would give two coordinates one name, and the
    conflict is not handled. *)
Theorem standardize_name_conflict (V : Type) (ds : Dataset V) (t : Q)
  (pre : DataArray V) :
  extract_field ds t = Ok pre ->
  (In "latitude" (coord_names pre) /\ In "lat" (coord_names pre))
  \/ (In "longitude" (coord_names pre) /\ In "lon" (coord_names pre)) ->
  _standardize_anom_field ds t = Raise ValueError.
Proof.
  intros Hpre Hclash. unfold _standardize_anom_field. rewrite Hpre.
  cbn [bind].
  assert (Hdup : has_dup (map canonical_name (coord_names pre)) = true).
  { destruct Hclash as [[H1 H2]|[H1 H2]].
    - apply (map_collision canonical_name _ "latitude" "lat" H1 H2);
        [discriminate | reflexivity].
    - apply (map_collision canonical_name _ "longitude" "lon" H1 H2);
        [discriminate | reflexivity]. }
  unfold unify_coord_names.
  pose proof (rename_map_canonical (coord_names pre)) as Hm.
  destruct (name_in "latitude" (coord_names pre)) eqn:E1,
           (name_in "longitude" (coord_names pre)) eqn:E2;
    cbn [app] in *.
  1-3: unfold rename; cbn [forallb fst]; rewrite ?E1, ?E2; cbn [negb andb];
       rewrite (rename_canonical V pre _ Hm), coord_names_canonical, Hdup;
       reflexivity.
  exfalso. apply name_in_false_iff in E1, E2.
  destruct Hclash as [[H _]|[H _]]; contradiction.
Qed.

Lemma standardize_name_conflict_witness :
  _standardize_anom_field Cases.ds_clash (100#1) = Raise ValueError.
Proof.
  apply (standardize_name_conflict Z Cases.ds_clash (100#1)
           (mkDA [("latitude", [-10#1; 10#1]%Q); ("longitude", [0#1; 1#1]%Q)]
                 [("lat", 0#1); ("time", 100#1)]
                 (Examples.grid [[1; 2]; [3; 4]]%Z))
           eq_refl).
  left. split; cbn; tauto.
Defined.

(** X10. No dimension of a field that the standardizer returns has length
    one, whatever the dataset: every such axis has been squeezed away. *)
Theorem standardize_no_singleton_dimension (V : Type) (ds : Dataset V)
  (t : Q) (out : DataArray V) :
  _standardize_anom_field ds t = Ok out ->
  Forall (fun d => length (snd d) <> 1) (da_dims out).
Proof.
  intros H. destruct (standardize_inv V ds t out H) as (pre & Hpre & ->).
  destruct (extract_field_inv V ds t pre Hpre)
    as (da0 & da1 & da2 & times & _ & _ & _ & _ & ->).
  unfold canonical. cbn [da_dims]. rewrite squeeze_drop_dims.
  apply Forall_map. apply Forall_forall. intros d Hd. cbn [snd].
  apply filter_In in Hd as [_ Hd]. apply negb_true_iff in Hd.
  now apply Nat.eqb_neq.
Qed.

Lemma standardize_no_singleton_dimension_witness :
  Forall (fun d : string * list Q => length (snd d) <> 1)
    [("lon", [0#1; 1#1; 2#1]%Q)].
Proof.
  apply (standardize_no_singleton_dimension Z Examples.ds_one_lat (100#1)
           (mkDA [("lon", [0#1; 1#1; 2#1]%Q)] [("time", 100#1)]
                 (Examples.row [1; 2; 3]%Z))).
  reflexivity.
Defined.

(** ** The nearest time *)






(** ** The standardized field, explicitly *)

Lemma fold_min_in (l : list Q) (x : Q) : In (fold_left Qmin_bool l x) (x :: l).
Proof.
  revert x. induction l as [|y l IH]; intros x; [now left|].
  cbn [fold_left]. specialize (IH (Qmin_bool x y)).
  unfold Qmin_bool in *. destruct (Qle_bool x y).
  - destruct IH as [<-|IH]; [now left | right; now right].
  - destruct IH as [<-|IH]; [right; now left | right; now right].
Qed.

Lemma fold_max_in (l : list Q) (x : Q) : In (fold_left Qmax_bool l x) (x :: l).
Proof.
  revert x. induction l as [|y l IH]; intros x; [now left|].
  cbn [fold_left]. specialize (IH (Qmax_bool x y)).
  unfold Qmax_bool in *. destruct (Qle_bool x y).
  - destruct IH as [<-|IH]; [right; now left | right; now right].
  - destruct IH as [<-|IH]; [now left | right; now right].
Qed.

Lemma index_min_in (idx : list Q) (m : Q) :
  index_min idx = Some m -> In m idx.
Proof.
  destruct idx as [|x l]; [discriminate|]. intros [= <-]. apply fold_min_in.
Qed.

Lemma index_max_in (idx : list Q) (m : Q) :
  index_max idx = Some m -> In m idx.
Proof.
  destruct idx as [|x l]; [discriminate|]. intros [= <-]. apply fold_max_in.
Qed.


(** After the clamp the target is within int64 of every label of a time
    axis that lies, with the coverage, within one int64 span. *)
Lemma clamp_time_in_reach (tidx times : list Q) (t : Q) :
  times <> [] ->
  within_int64_span (tidx ++ times) ->
  Forall (fun y => (- int64_max <= y - clamp_time times t <= int64_max)%Q)
    tidx.
Proof.
  intros Hne Hspan. unfold clamp_time.
  destruct (index_min times) as [tmin|] eqn:Emin;
    [|destruct times; [congruence | discriminate Emin]].
  destruct (index_max times) as [tmax|] eqn:Emax;
    [|destruct times; [congruence | discriminate Emax]].
  pose proof (index_min_le_max times tmin tmax Emin Emax) as Hmm.
  apply Forall_forall. intros y Hy.
  assert (Hlo : (y - tmin <= int64_max)%Q).
  { apply Hspan; apply in_app_iff; [now left | right].
    now apply index_min_in. }
  assert (Hhi : (tmax - y <= int64_max)%Q).
  { apply Hspan; apply in_app_iff; [right | now left].
    now apply index_max_in. }
  destruct (Qlt_bool t tmin) eqn:E1; [lra|].
  destruct (Qlt_bool tmax t) eqn:E2; [lra|].
  apply Qlt_bool_false_iff in E1, E2. lra.
Qed.



Section Explicit.

Variable V : Type.

(** The depth step, explicitly. *)
Lemma select_surface_explicit (da0 da1 : DataArray V) (tidx : list Q)
  (depth : list (string * list Q)) (latn lonn : string) (lati loni : list Q) :
  da_dims da0 = ("time", tidx) :: depth ++ [(latn, lati); (lonn, loni)] ->
  depth_convention depth ->
  In latn ["lat"; "latitude"] ->
  In lonn ["lon"; "longitude"] ->
  select_surface ["zlev"; "depth"; "lev"] da0 = Ok da1 ->
  da1 = surface_of da0 depth.
Proof.
  intros Hd Hdepth Hlat Hlon.
  destruct Hdepth as [-> | (dn & didx & -> & Hdn & Hu)].
  - unfold select_surface, dim_names. rewrite Hd.
    destruct Hlat as [<-|[<-|[]]], Hlon as [<-|[<-|[]]];
      cbn; now intros [= <-].
  - destruct didx as [|d0 rest].
    + unfold select_surface, dim_names, first_label. rewrite Hd.
      destruct Hdn as [<-|[<-|[<-|[]]]], Hlat as [<-|[<-|[]]],
               Hlon as [<-|[<-|[]]]; cbn; discriminate.
    + pose proof (get_loc_first d0 rest Hu) as G.
      unfold select_surface, dim_names, first_label, sel_label.
      rewrite Hd.
      destruct Hdn as [<-|[<-|[<-|[]]]], Hlat as [<-|[<-|[]]],
               Hlon as [<-|[<-|[]]];
        cbn -[get_loc isel_int]; rewrite G; cbn [bind];
        now intros [= <-].
Qed.

Lemma sel_nearest_inv (da1 da2 : DataArray V) (tidx : list Q)
  (rest : list (string * list Q)) (t : Q) :
  da_dims da1 = ("time", tidx) :: rest ->
  sel_nearest "time" t da1 = Ok da2 ->
  exists p : nat,
    nearest_position tidx t = Ok p
    /\ p < length tidx
    /\ da2 = isel_int 0 "time" tidx p false da1.
Proof.
  intros Hd. unfold sel_nearest. rewrite Hd. cbn [find_dim].
  rewrite String.eqb_refl.
  destruct (nearest_position tidx t) as [p|] eqn:Hp; cbn [bind];
    [|discriminate].
  intros [= <-]. exists p. split; [reflexivity|].
  split; [now apply (nearest_position_bound tidx t) | reflexivity].
Qed.

(** The standardized field of a dataset of the conventions. *)
Lemma standardize_explicit (ds : Dataset V) (da0 out : DataArray V)
  (times tidx : list Q) (depth : list (string * list Q))
  (latn lonn : string) (lati loni : list Q) (t : Q) :
  ds_var ds "anom" = Ok da0 ->
  ds_coord_values ds "time" = Ok times ->
  follows_conventions da0 tidx depth latn lati lonn loni ->
  length lati <> 1 ->
  length loni <> 1 ->
  _standardize_anom_field ds t = Ok out ->
  exists p : nat,
    nearest_position tidx (clamp_time times t) = Ok p
    /\ p < length tidx
    /\ out = canonical (isel_int 0 "time" tidx p false (surface_of da0 depth))
    /\ da_dims out = [("lat", lati); ("lon", loni)].
Proof.
  intros Hvar Htimes Hconv H1 H2 Hout.
  pose proof Hconv as (Hd & Hdepth & Hlat & Hlon & _ & _).
  destruct (standardize_inv V ds t out Hout) as (pre & Hpre & ->).
  destruct (extract_field_inv V ds t pre Hpre)
    as (da0' & da1 & da2 & times' & Hv & HS1 & Ht & HS2 & ->).
  rewrite Hvar in Hv. injection Hv as <-.
  rewrite Htimes in Ht. injection Ht as <-.
  destruct (select_surface_conventions V da0 tidx depth latn lonn lati loni
              Hd Hdepth Hlat Hlon) as [HA _].
  destruct (HA da1 HS1) as (Hd1 & _ & _).
  pose proof (select_surface_explicit da0 da1 tidx depth latn lonn lati loni
                Hd Hdepth Hlat Hlon HS1) as E1.
  destruct (sel_nearest_inv da1 da2 tidx _ _ Hd1 HS2) as (p & Hp & Lp & E2).
  destruct (sel_nearest_time V da1 da2 tidx _ _ Hd1 HS2) as (Hd2 & _ & _).
  destruct (standardize_steps V ds da0 da1 da2 times tidx depth latn lonn
              lati loni t Hvar Htimes Hconv H1 H2 HS1 HS2) as (_ & Hdims & _).
  exists p. split; [exact Hp|]. split; [exact Lp|].
  rewrite (squeeze_drop_two_axes V da2 latn lonn lati loni Hd2 H1 H2).
  split; [now rewrite E2, E1 | exact Hdims].
Qed.

End Explicit.

(** X11. On a dataset of the conventions whose latitude and longitude axes
    are not of length one, a field that the standardizer returns holds the
    values of the anomaly variable at its first depth level and at the
    position that the nearest-time lookup gives for the clamped target; its
    dimensions are [lat] and [lon] with the latitudes and longitudes of the
    dataset, and the selected time is kept as the scalar coordinate [time],
    the selected level as a scalar coordinate under the name of the depth
    axis. *)
Theorem standardize_surface_at_time (V : Type) (ds : Dataset V)
  (da0 out : DataArray V) (times tidx : list Q)
  (depth : list (string * list Q)) (latn lonn : string)
  (lati loni : list Q) (t : Q) :
  ds_var ds "anom" = Ok da0 ->
  ds_coord_values ds "time" = Ok times ->
  follows_conventions da0 tidx depth latn lati lonn loni ->
  length lati <> 1 ->
  length loni <> 1 ->
  _standardize_anom_field ds t = Ok out ->
  exists p : nat,
    nearest_position tidx (clamp_time times t) = Ok p
    /\ p < length tidx
    /\ da_dims out = [("lat", lati); ("lon", loni)]
    /\ da_values out = nd_take 0 p (da_values (surface_of da0 depth))
    /\ In ("time", nth p tidx 0%Q) (da_scalars out)
    /\ (forall dn d0 rest,
           depth = [(dn, d0 :: rest)] -> In (dn, d0) (da_scalars out))
    /\ (depth = [] -> da_values out = nd_take 0 p (da_values da0))
    /\ (forall dn didx,
           depth = [(dn, didx)] ->
           da_values out = nd_take 0 p (nd_take 1 0 (da_values da0))).
Proof.
  intros Hvar Htimes Hconv H1 H2 Hout.
  destruct (standardize_explicit V ds da0 out times tidx depth latn lonn
              lati loni t Hvar Htimes Hconv H1 H2 Hout)
    as (p & Hp & Lp & E & Hdims).
  subst out. exists p. split; [exact Hp|]. split; [exact Lp|].
  split; [exact Hdims|].
  unfold canonical, isel_int. cbn [da_values da_scalars].
  split; [reflexivity|]. split.
  { apply in_map_iff. exists ("time", nth p tidx 0%Q). split; [reflexivity|].
    apply in_app_iff. right. now left. }
  split.
  { intros dn d0 rest ->. apply in_map_iff. exists (dn, d0).
    pose proof Hconv as (_ & Hdepth & _).
    split.
    - cbn [fst snd]. f_equal.
      destruct Hdepth as [E | (dn' & didx & [= <- <-] & Hdn & _)];
        [discriminate E|].
      destruct Hdn as [<-|[<-|[<-|[]]]]; reflexivity.
    - cbn [surface_of isel_int da_scalars]. apply in_app_iff. left.
      apply in_app_iff. right. now left. }
  split.
  - now intros ->.
  - now intros dn didx ->.
Qed.

Lemma standardize_surface_at_time_witness :
  exists p : nat,
    nearest_position Examples.sst_times
      (clamp_time Examples.sst_times (249#1)) = Ok p
    /\ p < 3
    /\ In ("time", nth p Examples.sst_times 0%Q)
          [("zlev", 0#1); ("time", 200#1)]
    /\ Examples.grid [[5; 6]; [7; 8]]%Z
       = nd_take 0 p (nd_take 1 0 (da_values Examples.anom_sst)).
Proof.
  destruct (standardize_surface_at_time Z Examples.ds_sst Examples.anom_sst
              (mkDA [("lat", [-10#1; 10#1]%Q); ("lon", [0#1; 1#1]%Q)]
                    [("zlev", 0#1); ("time", 200#1)]
                    (Examples.grid [[5; 6]; [7; 8]]%Z))
              Examples.sst_times Examples.sst_times [("zlev", [0#1]%Q)]
              "latitude" "longitude" [-10#1; 10#1]%Q [0#1; 1#1]%Q (249#1)
              eq_refl eq_refl sst_follows_conventions)
    as (p & H1 & H2 & _ & _ & H5 & _ & _ & H8);
    [cbn; lia | cbn; lia | reflexivity |].
  exists p. split; [exact H1|]. split; [exact H2|]. split; [exact H5|].
  exact (H8 "zlev" [0#1]%Q eq_refl).
Defined.



(** The tie of the witness, computed: 250 is as far from 200 as from 300, and
    the field of 300 is returned. *)
Example standardize_tie_computed :
  _standardize_anom_field Examples.ds_sst (250#1)
  = Ok (mkDA [("lat", [-10#1; 10#1]%Q); ("lon", [0#1; 1#1]%Q)]
             [("zlev", 0#1); ("time", 300#1)]
             (Examples.grid [[9; 10]; [11; 12]]%Z)).
Proof. reflexivity. Qed.

(** ** Lookups that fail *)




(** ** Sorting for the plot *)

Lemma ascending_cons_iff (x y : Q) (l : list Q) :
  is_monotonic_increasing (x :: y :: l) = true
  <-> (x <= y)%Q /\ is_monotonic_increasing (y :: l) = true.
Proof.
  change (is_monotonic_increasing (x :: y :: l))
    with (Qle_bool x y && is_monotonic_increasing (y :: l)).
  now rewrite andb_true_iff, Qle_bool_iff.
Qed.

Lemma insert_by_label_head (x : Q * nat) (l : list (Q * nat)) :
  exists (h : Q * nat) (r : list (Q * nat)),
    insert_by_label x l = h :: r
    /\ (h = x \/ exists tl, l = h :: tl /\ (fst h <= fst x)%Q).
Proof.
  destruct l as [|y tl]; cbn [insert_by_label].
  - exists x, []. split; [reflexivity | now left].
  - destruct (Qle_bool (fst x) (fst y)) eqn:E.
    + exists x, (y :: tl). split; [reflexivity | now left].
    + exists y, (insert_by_label x tl). split; [reflexivity|].
      right. exists tl. split; [reflexivity|].
      apply Qle_bool_false_iff in E. now apply Qlt_le_weak.
Qed.

Lemma insert_by_label_ascending (x : Q * nat) (l : list (Q * nat)) :
  is_monotonic_increasing (map fst l) = true ->
  is_monotonic_increasing (map fst (insert_by_label x l)) = true.
Proof.
  induction l as [|y tl IH]; intros H; [reflexivity|].
  cbn [insert_by_label]. destruct (Qle_bool (fst x) (fst y)) eqn:E.
  - cbn [map]. apply ascending_cons_iff. split; [|exact H].
    now apply Qle_bool_iff.
  - destruct (ascending_cons (fst y) (map fst tl) H) as [Htl F].
    specialize (IH Htl).
    destruct (insert_by_label_head x tl) as (h & r & Eh & Hh).
    rewrite Eh in *. cbn [map] in *. apply ascending_cons_iff.
    split; [|exact IH].
    destruct Hh as [->|(tl' & -> & _)].
    + apply Qle_bool_false_iff in E. now apply Qlt_le_weak.
    + cbn [map] in F. now inversion F.
Qed.

Lemma sort_by_label_ascending (l : list (Q * nat)) :
  is_monotonic_increasing (map fst (sort_by_label l)) = true.
Proof.
  induction l as [|x l IH]; [reflexivity|].
  now apply insert_by_label_ascending.
Qed.

Lemma insert_by_label_perm (x : Q * nat) (l : list (Q * nat)) :
  Permutation (insert_by_label x l) (x :: l).
Proof.
  induction l as [|y tl IH]; cbn [insert_by_label]; [reflexivity|].
  destruct (Qle_bool (fst x) (fst y)); [reflexivity|].
  rewrite IH. apply perm_swap.
Qed.

Lemma sort_by_label_perm (l : list (Q * nat)) :
  Permutation (sort_by_label l) l.
Proof.
  induction l as [|x l IH]; [reflexivity|].
  cbn [sort_by_label fold_right]. rewrite insert_by_label_perm.
  now apply perm_skip.
Qed.

(** The pairs of an index with its positions, from position [n] on. *)
Lemma combine_seq_label (idx : list Q) (pre : list Q) :
  Forall (fun xp : Q * nat => nth (snd xp) (pre ++ idx) 0%Q = fst xp)
    (combine idx (seq (length pre) (length idx))).
Proof.
  revert pre. induction idx as [|x idx IH]; intros pre; [constructor|].
  cbn [length seq combine]. constructor.
  - cbn [fst snd]. rewrite app_nth2 by lia. now rewrite Nat.sub_diag.
  - specialize (IH (pre ++ [x])). rewrite <- app_assoc in IH.
    rewrite length_app in IH. cbn [length app] in IH.
    now rewrite Nat.add_1_r in IH.
Qed.

Lemma map_fst_combine_seq (idx : list Q) (n : nat) :
  map fst (combine idx (seq n (length idx))) = idx.
Proof.
  revert n. induction idx as [|x idx IH]; intros n; [reflexivity|].
  cbn [length seq combine map fst]. now rewrite IH.
Qed.

Lemma map_snd_combine_seq (idx : list Q) (n : nat) :
  map snd (combine idx (seq n (length idx))) = seq n (length idx).
Proof.
  revert n. induction idx as [|x idx IH]; intros n; [reflexivity|].
  cbn [length seq combine map snd]. now rewrite IH.
Qed.

(** The labels taken in sorted order are the sorted labels. *)
Lemma take_argsort (idx : list Q) :
  take_positions 0%Q (argsort idx) idx
  = map fst (sort_by_label (combine idx (seq 0 (length idx)))).
Proof.
  unfold take_positions, argsort. rewrite map_map.
  apply map_ext_in. intros xp Hxp.
  pose proof (combine_seq_label idx []) as F. cbn [length app] in F.
  rewrite Forall_forall in F. apply F.
  eapply Permutation_in; [apply sort_by_label_perm | exact Hxp].
Qed.

Lemma argsort_perm (idx : list Q) :
  Permutation (argsort idx) (seq 0 (length idx)).
Proof.
  unfold argsort. rewrite <- (map_snd_combine_seq idx 0) at 2.
  apply Permutation_map. apply sort_by_label_perm.
Qed.

Lemma argsort_length (idx : list Q) : length (argsort idx) = length idx.
Proof.
  rewrite (Permutation_length (argsort_perm idx)). apply length_seq.
Qed.

Lemma argsort_bound (idx : list Q) :
  Forall (fun p => p < length idx) (argsort idx).
Proof.
  apply Forall_forall. intros p Hp.
  apply (Permutation_in _ (argsort_perm idx)) in Hp.
  apply in_seq in Hp. lia.
Qed.

Lemma take_argsort_ascending (idx : list Q) :
  is_monotonic_increasing (take_positions 0%Q (argsort idx) idx) = true.
Proof. rewrite take_argsort. apply sort_by_label_ascending. Qed.

Lemma take_argsort_perm (idx : list Q) :
  Permutation (take_positions 0%Q (argsort idx) idx) idx.
Proof.
  rewrite take_argsort.
  eapply Permutation_trans;
    [apply Permutation_map, sort_by_label_perm|].
  now rewrite map_fst_combine_seq.
Qed.

Section PlotFacts.

Variable V : Type.

Lemma take_positions_Forall (P : nd V -> Prop) (order : list nat)
  (xs : list (nd V)) :
  Forall (fun p => p < length xs) order ->
  Forall P xs ->
  Forall P (take_positions (Axis []) order xs).
Proof.
  intros Ho Hx. unfold take_positions. apply Forall_map.
  eapply Forall_impl; [|exact Ho]. intros p Hp. cbv beta in *.
  rewrite Forall_forall in Hx. apply Hx. now apply nth_In.
Qed.

(** Positions taken along one axis, all of them positions of the axis. *)
Lemma has_shape_take_positions (order : list nat) (n : nat) :
  Forall (fun p => p < n) order ->
  forall (k : nat) (sh : list nat) (v : nd V),
    has_shape sh v = true ->
    nth_error sh k = Some n ->
    has_shape (update_nth k (fun _ => length order) sh)
      (nd_on_axis (take_positions (Axis []) order) k v) = true.
Proof.
  intros Ho. induction k as [|k IH]; intros sh v H Hk.
  - destruct sh as [|n' sh]; [discriminate Hk|]. injection Hk as ->.
    destruct v as [c|xs]; [discriminate H|].
    apply has_shape_axis in H as [L F]. cbn [update_nth nd_on_axis].
    apply has_shape_axis. split.
    + unfold take_positions. now rewrite length_map.
    + apply take_positions_Forall; [now rewrite L | exact F].
  - destruct sh as [|n' sh]; [discriminate Hk|]. cbn [nth_error] in Hk.
    destruct v as [c|xs]; [discriminate H|].
    apply has_shape_axis in H as [L F]. cbn [update_nth nd_on_axis].
    apply has_shape_axis. split; [now rewrite length_map|].
    apply Forall_map. eapply Forall_impl; [|exact F].
    intros a Ha. now apply IH.
Qed.

(** The sorting step on a field that has the dimension [lon]. *)
Lemma sorted_for_plot_lon (da : DataArray V) (k : nat) (idx : list Q) :
  find_dim "lon" (da_dims da) = Some (k, idx) ->
  sorted_for_plot da = Ok (isel_positions k (argsort idx) da)
  /\ find_dim "lon" (da_dims (isel_positions k (argsort idx) da))
     = Some (k, take_positions 0%Q (argsort idx) idx)
  /\ dim_names (isel_positions k (argsort idx) da) = dim_names da
  /\ (forall name k' idx',
         name <> "lon" ->
         find_dim name (da_dims da) = Some (k', idx') ->
         find_dim name (da_dims (isel_positions k (argsort idx) da))
         = Some (k', idx'))
  /\ (well_shaped da = true ->
      well_shaped (isel_positions k (argsort idx) da) = true).
Proof.
  intros Hk. split; [|split; [|split; [|split]]].
  - unfold sorted_for_plot, sortby.
    assert (E : name_in "lon" (coord_names da) = true).
    { apply name_in_iff. unfold coord_names, dim_names.
      apply in_app_iff. left. apply find_dim_name in Hk.
      apply nth_error_In in Hk. now apply (in_map fst) in Hk. }
    now rewrite E, Hk.
  - unfold isel_positions. cbn [da_dims].
    apply (find_dim_update_nth "lon" (take_positions 0%Q (argsort idx))
             _ _ _ Hk).
  - unfold dim_names, isel_positions. cbn [da_dims].
    apply (update_nth_names (take_positions 0%Q (argsort idx))).
  - intros name k' idx' Hne Hn. unfold isel_positions. cbn [da_dims].
    apply (find_dim_update_nth_other "lon" name
             (take_positions 0%Q (argsort idx)) _ k k' idx idx' Hk Hn).
    congruence.
  - intros W. unfold well_shaped, sizes, isel_positions in *.
    cbn [da_dims da_values].
    rewrite (sizes_update_nth (take_positions 0%Q (argsort idx))
               _ _ _ _ Hk).
    destruct (sizes_find_dim _ _ _ _ Hk) as [Hn _].
    unfold take_positions at 1. rewrite length_map.
    apply (has_shape_take_positions (argsort idx) (length idx)
             (argsort_bound idx) k _ _ W Hn).
Qed.

End PlotFacts.

(** X14. For a field with the dimension [lon], the sorting step of
    [plot_cartopy_anomaly] returns the field with its longitudes in ascending
    order: the longitudes are those of the input, each as often as there,
    the values along the longitude axis are rearranged by the same order as
    the longitudes, the other dimensions are untouched, and a well-shaped
    field stays well shaped. *)
Theorem sorted_for_plot_ascending (V : Type) (da : DataArray V) (k : nat)
  (idx : list Q) :
  find_dim "lon" (da_dims da) = Some (k, idx) ->
  exists (out : DataArray V) (order : list nat),
    sorted_for_plot da = Ok out
    /\ Permutation order (seq 0 (length idx))
    /\ find_dim "lon" (da_dims out) = Some (k, take_positions 0%Q order idx)
    /\ da_values out
       = nd_on_axis (take_positions (Axis []) order) k (da_values da)
    /\ is_monotonic_increasing (take_positions 0%Q order idx) = true
    /\ Permutation (take_positions 0%Q order idx) idx
    /\ dim_names out = dim_names da
    /\ (forall name k' idx',
           name <> "lon" ->
           find_dim name (da_dims da) = Some (k', idx') ->
           find_dim name (da_dims out) = Some (k', idx'))
    /\ (well_shaped da = true -> well_shaped out = true).
Proof.
  intros Hk.
  destruct (sorted_for_plot_lon V da k idx Hk) as (H1 & H2 & H3 & H4 & H5).
  exists (isel_positions k (argsort idx) da), (argsort idx).
  split; [exact H1|]. split; [apply argsort_perm|]. split; [exact H2|].
  split; [reflexivity|]. split; [apply take_argsort_ascending|].
  split; [apply take_argsort_perm|]. split; [exact H3|].
  split; [exact H4 | exact H5].
Qed.

Lemma sorted_for_plot_ascending_witness :
  exists (out : DataArray Z) (order : list nat),
    sorted_for_plot
      (mkDA [("lat", [0#1; 10#1]%Q);
             ("lon", [175#1; 180#1; -180#1; -175#1]%Q)]
            [] (Examples.grid [[9; 10; 6; 7]; [14; 15; 11; 12]]%Z))
    = Ok out
    /\ Permutation order (seq 0 4)
    /\ find_dim "lon" (da_dims out)
       = Some (1, take_positions 0%Q order
                    [175#1; 180#1; -180#1; -175#1]%Q).
Proof.
  destruct (sorted_for_plot_ascending Z
              (mkDA [("lat", [0#1; 10#1]%Q);
                     ("lon", [175#1; 180#1; -180#1; -175#1]%Q)]
                    [] (Examples.grid [[9; 10; 6; 7]; [14; 15; 11; 12]]%Z))
              1 [175#1; 180#1; -180#1; -175#1]%Q eq_refl)
    as (out & order & H1 & H2 & H3 & _).
  exists out, order. repeat split; assumption.
Defined.

Example sorted_for_plot_computed :
  sorted_for_plot
    (mkDA [("lat", [0#1; 10#1]%Q);
           ("lon", [175#1; 180#1; -180#1; -175#1]%Q)]
          [] (Examples.grid [[9; 10; 6; 7]; [14; 15; 11; 12]]%Z))
  = Ok (mkDA [("lat", [0#1; 10#1]%Q);
              ("lon", [-180#1; -175#1; 175#1; 180#1]%Q)]
             [] (Examples.grid [[6; 7; 9; 10]; [11; 12; 14; 15]]%Z)).
Proof. reflexivity. Qed.

(** ** Sorting a selection across the antimeridian *)

Lemma insert_by_label_front (x : Q * nat) (l : list (Q * nat)) :
  is_monotonic_increasing (fst x :: map fst l) = true ->
  insert_by_label x l = x :: l.
Proof.
  destruct l as [|y tl]; [reflexivity|]. cbn [map]. intros H.
  apply ascending_cons_iff in H as [H _]. apply Qle_bool_iff in H.
  cbn [insert_by_label]. now rewrite H.
Qed.

Lemma sort_by_label_sorted (l : list (Q * nat)) :
  is_monotonic_increasing (map fst l) = true -> sort_by_label l = l.
Proof.
  induction l as [|x tl IH]; intros H; [reflexivity|].
  cbn [map] in H. destruct (ascending_cons _ _ H) as [Htl _].
  cbn [sort_by_label fold_right]. fold (sort_by_label tl).
  rewrite (IH Htl). now apply insert_by_label_front.
Qed.

Lemma insert_by_label_after (x : Q * nat) (w r : list (Q * nat)) :
  Forall (fun y => (fst y < fst x)%Q) w ->
  insert_by_label x (w ++ r) = w ++ insert_by_label x r.
Proof.
  induction 1 as [|y w Hy _ IH]; [reflexivity|].
  cbn [app insert_by_label]. apply Qle_bool_false_iff in Hy.
  now rewrite Hy, IH.
Qed.

Lemma fold_insert_above (w e : list (Q * nat)) :
  is_monotonic_increasing (map fst e) = true ->
  Forall (fun x => Forall (fun y => (fst y < fst x)%Q) w) e ->
  fold_right insert_by_label w e = w ++ e.
Proof.
  induction e as [|x e IH]; intros H F; [now rewrite app_nil_r|].
  cbn [map] in H. destruct (ascending_cons _ _ H) as [He _].
  inversion F as [|? ? Fx Fe]; subst.
  cbn [fold_right]. rewrite (IH He Fe).
  rewrite (insert_by_label_after x w e Fx).
  now rewrite (insert_by_label_front x e H).
Qed.

(** Two ascending runs, the second wholly below the first, are sorted by
    exchanging them. *)
Lemma sort_by_label_two_runs (e w : list (Q * nat)) :
  is_monotonic_increasing (map fst e) = true ->
  is_monotonic_increasing (map fst w) = true ->
  Forall (fun x => Forall (fun y => (fst y < fst x)%Q) w) e ->
  sort_by_label (e ++ w) = w ++ e.
Proof.
  intros He Hw F. unfold sort_by_label. rewrite fold_right_app.
  fold (sort_by_label w). rewrite (sort_by_label_sorted w Hw).
  now apply fold_insert_above.
Qed.

Lemma combine_app_same {A B : Type} (e w : list A) (s s' : list B) :
  length s = length e ->
  combine (e ++ w) (s ++ s') = combine e s ++ combine w s'.
Proof.
  revert s. induction e as [|x e IH]; intros s Hs.
  - destruct s; [reflexivity | discriminate Hs].
  - destruct s as [|p s]; [discriminate Hs|]. injection Hs as Hs.
    cbn [app combine]. f_equal. now apply IH.
Qed.

Lemma combine_app_seq (e w : list Q) :
  combine (e ++ w) (seq 0 (length (e ++ w)))
  = combine e (seq 0 (length e)) ++ combine w (seq (length e) (length w)).
Proof.
  rewrite length_app, seq_app. cbn [Nat.add].
  apply combine_app_same. apply length_seq.
Qed.

Lemma argsort_two_runs (e w : list Q) :
  is_monotonic_increasing e = true ->
  is_monotonic_increasing w = true ->
  Forall (fun x => Forall (fun y => (y < x)%Q) w) e ->
  argsort (e ++ w) = seq (length e) (length w) ++ seq 0 (length e)
  /\ take_positions 0%Q (argsort (e ++ w)) (e ++ w) = w ++ e.
Proof.
  intros He Hw F.
  assert (S : sort_by_label (combine (e ++ w) (seq 0 (length (e ++ w))))
              = combine w (seq (length e) (length w))
                ++ combine e (seq 0 (length e))).
  { rewrite combine_app_seq. apply sort_by_label_two_runs.
    - now rewrite map_fst_combine_seq.
    - now rewrite map_fst_combine_seq.
    - apply Forall_forall. intros [x p] Hx. apply in_combine_l in Hx.
      apply Forall_forall. intros [y q] Hy. apply in_combine_l in Hy.
      cbn [fst]. rewrite Forall_forall in F. specialize (F x Hx).
      rewrite Forall_forall in F. now apply F. }
  split.
  - unfold argsort. now rewrite S, map_app, !map_snd_combine_seq.
  - now rewrite take_argsort, S, map_app, !map_fst_combine_seq.
Qed.

Lemma take_seq_middle {A : Type} (d : A) (pre a r : list A) :
  take_positions d (seq (length pre) (length a)) (pre ++ a ++ r) = a.
Proof.
  unfold take_positions. revert pre.
  induction a as [|x a IH]; intros pre; [reflexivity|].
  cbn [length seq map]. f_equal.
  - rewrite app_nth2 by lia. now rewrite Nat.sub_diag.
  - specialize (IH (pre ++ [x])). rewrite length_app in IH.
    cbn [length] in IH. rewrite Nat.add_1_r, <- app_assoc in IH. exact IH.
Qed.

Lemma take_two_runs {A : Type} (d : A) (a b : list A) :
  take_positions d (seq (length a) (length b) ++ seq 0 (length a)) (a ++ b)
  = b ++ a.
Proof.
  unfold take_positions. rewrite map_app. f_equal.
  - pose proof (take_seq_middle d a b []) as H.
    unfold take_positions in H. now rewrite app_nil_r in H.
  - exact (take_seq_middle d [] a b).
Qed.

Section Rotation.

Variable V : Type.

Lemma map_zip_with_swap (g : nd V -> nd V) (h h' : nd V -> nd V -> nd V)
  (P Q : nd V -> Prop) (xs ys : list (nd V)) :
  (forall a b, P a -> Q b -> g (h a b) = h' b a) ->
  Forall P xs -> Forall Q ys -> length xs = length ys ->
  map g (zip_with h xs ys) = zip_with h' ys xs.
Proof.
  intros Hg Hx. revert ys. induction Hx as [|x xs Px _ IH]; intros ys Hy L.
  - destruct ys; [reflexivity | discriminate L].
  - destruct ys as [|y ys]; [discriminate L|].
    inversion Hy as [|? ? Qy Hys]; subst. injection L as L.
    cbn. f_equal; [now apply Hg | now apply IH].
Qed.

(** Joined arrays, rearranged so that the columns of the second come first,
    are the arrays joined the other way round. *)
Lemma nd_concat_rotate (k : nat) :
  forall (shL shR : list nat) (L R : nd V) (ne nw : nat),
    has_shape shL L = true ->
    has_shape shR R = true ->
    nth_error shL k = Some ne ->
    nth_error shR k = Some nw ->
    remove_nth k shL = remove_nth k shR ->
    nd_on_axis (take_positions (Axis []) (seq ne nw ++ seq 0 ne)) k
      (nd_concat k L R)
    = nd_concat k R L.
Proof.
  induction k as [|k IH]; intros shL shR L R ne nw HL HR Hne Hnw E.
  - destruct shL as [|n shL]; [discriminate Hne|]. injection Hne as ->.
    destruct shR as [|m shR]; [discriminate Hnw|]. injection Hnw as ->.
    destruct L as [c|xs]; [discriminate HL|].
    destruct R as [c|ys]; [discriminate HR|].
    apply has_shape_axis in HL as [Lx _], HR as [Ly _].
    cbn [nd_concat nd_on_axis]. subst ne nw. now rewrite take_two_runs.
  - destruct shL as [|n shL]; [discriminate Hne|]. cbn [nth_error] in Hne.
    destruct shR as [|m shR]; [discriminate Hnw|]. cbn [nth_error] in Hnw.
    cbn [remove_nth] in E. injection E as -> E.
    destruct L as [c|xs]; [discriminate HL|].
    destruct R as [c|ys]; [discriminate HR|].
    apply has_shape_axis in HL as [Lx Fx], HR as [Ly Fy].
    cbn [nd_concat nd_on_axis]. f_equal.
    apply (map_zip_with_swap _ _ _
             (fun a => has_shape shL a = true)
             (fun b => has_shape shR b = true)); auto; [|lia].
    intros a b Pa Pb. now apply (IH shL shR a b ne nw).
Qed.

End Rotation.

Lemma update_nth_ext {A : Type} (f g : A -> A) (l : list A) (k : nat) :
  (forall x, f x = g x) -> update_nth k f l = update_nth k g l.
Proof.
  intros H. revert k. induction l as [|x l IH]; intros [|k]; simpl;
    try reflexivity.
  - now rewrite H.
  - now rewrite IH.
Qed.

(** X15. What the plot does to a selection across the antimeridian: on a
    well-shaped field with an ascending longitude axis, and for bounds that
    the dtype of the axis holds as they are, sorting the selection that
    [load_anomaly] has joined east-then-west gives exactly the field that
    joining the western slice before the eastern slice gives; its longitudes
    are the grid longitudes of [[-180, lon_max]] followed by those of
    [[lon_min, 180]], in ascending order, each column with its values. *)
Theorem sorted_crossing_selection (V : Type) (casts : string -> Q -> Q)
  (da : DataArray V) (k : nat) (idx : list Q) (lon_min lon_max : Q) :
  find_dim "lon" (da_dims da) = Some (k, idx) ->
  is_monotonic_increasing idx = true ->
  (lon_max < lon_min)%Q ->
  well_shaped da = true ->
  representable (casts "lon") lon_min ->
  representable (casts "lon") lon_max ->
  representable (casts "lon") 180%Q ->
  representable (casts "lon") (-180)%Q ->
  exists east west sel out : DataArray V,
    sel_slice casts "lon" lon_min 180%Q da = Ok east
    /\ sel_slice casts "lon" (-180)%Q lon_max da = Ok west
    /\ select_lon casts da lon_min lon_max = Ok sel
    /\ sorted_for_plot sel = Ok out
    /\ xr_concat west east "lon" = Ok out
    /\ find_dim "lon" (da_dims out)
       = Some (k, filter (in_closed_range (-180)%Q lon_max) idx
                  ++ filter (in_closed_range lon_min 180%Q) idx)
    /\ is_monotonic_increasing
         (filter (in_closed_range (-180)%Q lon_max) idx
          ++ filter (in_closed_range lon_min 180%Q) idx) = true.
Proof.
  intros Hk Hasc Hcross W R1 R2 R3 R4.
  destruct (sel_slice_ascending V casts "lon" da k idx lon_min 180%Q
              Hk Hasc R1 R3) as [He _].
  destruct (sel_slice_ascending V casts "lon" da k idx (-180)%Q lon_max
              Hk Hasc R4 R2) as [Hw _].
  set (sE := searchsorted idx lon_min SideLeft) in *.
  set (eE := searchsorted idx 180%Q SideRight) in *.
  set (sW := searchsorted idx (-180)%Q SideLeft) in *.
  set (eW := searchsorted idx lon_max SideRight) in *.
  pose proof (py_slice_ascending idx lon_min 180%Q Hasc) as EE.
  pose proof (py_slice_ascending idx (-180)%Q lon_max Hasc) as EW.
  fold sE eE in EE. fold sW eW in EW.
  pose proof (concat_of_slices V "lon" da k idx sE eE sW eW Hk) as Hsel.
  pose proof (concat_of_slices V "lon" da k idx sW eW sE eE Hk) as Hout.
  (* the two runs *)
  assert (AE : is_monotonic_increasing (py_slice sE eE idx) = true).
  { rewrite EE. now apply filter_ascending. }
  assert (AW : is_monotonic_increasing (py_slice sW eW idx) = true).
  { rewrite EW. now apply filter_ascending. }
  assert (Below : Forall (fun x => Forall (fun y => (y < x)%Q)
                                     (py_slice sW eW idx))
                    (py_slice sE eE idx)).
  { rewrite EE, EW. apply Forall_forall. intros x Hx.
    apply filter_In in Hx as [_ Hx]. unfold in_closed_range in Hx.
    apply andb_true_iff in Hx as [Hx _]. apply Qle_bool_iff in Hx.
    apply Forall_forall. intros y Hy.
    apply filter_In in Hy as [_ Hy]. unfold in_closed_range in Hy.
    apply andb_true_iff in Hy as [_ Hy]. apply Qle_bool_iff in Hy. lra. }
  destruct (argsort_two_runs _ _ AE AW Below) as [Hord Htake].
  (* the sorted selection *)
  set (sel := {| da_dims :=
                   update_nth k
                     (fun d => (fst d, py_slice sE eE idx ++ py_slice sW eW idx))
                     (da_dims da);
                 da_scalars := da_scalars da;
                 da_values :=
                   nd_concat k (nd_on_axis (py_slice sE eE) k (da_values da))
                     (nd_on_axis (py_slice sW eW) k (da_values da)) |}) in *.
  assert (Hks : find_dim "lon" (da_dims sel)
                = Some (k, py_slice sE eE idx ++ py_slice sW eW idx)).
  { apply (find_dim_update_nth "lon" (fun _ => _ ++ _) _ _ _ Hk). }
  destruct (sorted_for_plot_lon V sel k _ Hks) as (Hsort & _).
  assert (Eout : isel_positions k
                   (argsort (py_slice sE eE idx ++ py_slice sW eW idx)) sel
                 = {| da_dims :=
                        update_nth k
                          (fun d => (fst d,
                                     py_slice sW eW idx ++ py_slice sE eE idx))
                          (da_dims da);
                      da_scalars := da_scalars da;
                      da_values :=
                        nd_concat k
                          (nd_on_axis (py_slice sW eW) k (da_values da))
                          (nd_on_axis (py_slice sE eE) k (da_values da)) |}).
  { unfold isel_positions, sel. cbn [da_dims da_scalars da_values]. f_equal.
    - rewrite update_nth_twice. apply update_nth_ext. intros d.
      cbn [fst snd]. now rewrite Htake.
    - rewrite Hord.
      pose proof (isel_slice_well_shaped V da "lon" k idx sE eE Hk W) as WE.
      pose proof (isel_slice_well_shaped V da "lon" k idx sW eW Hk W) as WW.
      unfold well_shaped, sizes, isel_slice in WE, WW.
      cbn [da_dims da_values] in WE, WW.
      rewrite (sizes_update_nth (py_slice sE eE) _ _ _ _ Hk) in WE.
      rewrite (sizes_update_nth (py_slice sW eW) _ _ _ _ Hk) in WW.
      destruct (sizes_find_dim _ _ _ _ Hk) as [Hn _].
      apply (nd_concat_rotate V k _ _ _ _ _ _ WE WW
               (nth_error_update_nth _ _ _ _ Hn)
               (nth_error_update_nth _ _ _ _ Hn)).
      now rewrite !remove_nth_update_nth. }
  exists (isel_slice k sE eE da), (isel_slice k sW eW da), sel,
         (isel_positions k
            (argsort (py_slice sE eE idx ++ py_slice sW eW idx)) sel).
  split; [exact He|]. split; [exact Hw|]. split.
  { unfold select_lon. apply Qle_bool_false_iff in Hcross.
    rewrite Hcross, He, Hw. cbn [bind]. exact Hsel. }
  split; [exact Hsort|]. rewrite Eout. split; [exact Hout|].
  cbn [da_dims]. split.
  - rewrite <- EW, <- EE.
    apply (find_dim_update_nth "lon" (fun _ => _ ++ _) _ _ _ Hk).
  - rewrite <- EW, <- EE, <- Htake. apply take_argsort_ascending.
Qed.

Lemma sorted_crossing_selection_witness :
  exists east west sel out : DataArray Z,
    sel_slice Dtypes.float32 "lon" (170#1) 180%Q Examples.north = Ok east
    /\ sel_slice Dtypes.float32 "lon" (-180)%Q (-170#1) Examples.north
       = Ok west
    /\ select_lon Dtypes.float32 Examples.north (170#1) (-170#1) = Ok sel
    /\ sorted_for_plot sel = Ok out
    /\ xr_concat west east "lon" = Ok out
    /\ find_dim "lon" (da_dims out)
       = Some (1, [-180#1; -175#1; 175#1; 180#1]%Q).
Proof.
  destruct (sorted_crossing_selection Z Dtypes.float32 Examples.north 1
              Examples.lons (170#1) (-170#1) eq_refl eq_refl eq_refl eq_refl)
    as (east & west & sel & out & H1 & H2 & H3 & H4 & H5 & H6 & _);
    [vm_compute; reflexivity | vm_compute; reflexivity
     | vm_compute; reflexivity | vm_compute; reflexivity |].
  exists east, west, sel, out. repeat split; assumption.
Defined.

(** ** The default date of the picker *)

Lemma date_of_mono (a b : Q) : (a <= b)%Q -> (date_of a <= date_of b)%Z.
Proof.
  intros H. unfold date_of. apply Qfloor_resp_le.
  unfold Qdiv. apply Qmult_le_compat_r; [exact H|]. discriminate.
Qed.

Lemma date_of_timestamp (d : Z) : date_of (timestamp_of_date d) = d.
Proof.
  unfold date_of, timestamp_of_date.
  assert (E : (inject_Z d * day_ns / day_ns == inject_Z d)%Q).
  { unfold Qdiv. rewrite <- Qmult_assoc, Qmult_inv_r; [|discriminate].
    apply Qmult_1_r. }
  rewrite E. apply Qfloor_Z.
Qed.

Lemma last_in (x : Q) (l : list Q) : In (last (x :: l) 0%Q) (x :: l).
Proof.
  revert x. induction l as [|y l IH]; intros x; [now left|].
  right. apply IH.
Qed.

(** X16. For every non-empty list of available times, in whatever order, the
    date that the picker starts from lies between its bounds [tmin] and
    [tmax], so that the picker is never given an initial value outside its
    range; the start is 2024-08-15 whenever that day lies between the
    bounds, and otherwise a time of the list. *)
Theorem default_date_within_bounds (times : list Q) :
  times <> [] ->
  exists (tmin tmax : Z) (d : Q),
    date_bounds times = Ok (tmin, tmax)
    /\ default_date times = Ok d
    /\ (tmin <= date_of d <= tmax)%Z
    /\ ((tmin <= date_of DEFAULT_START <= tmax)%Z -> d = DEFAULT_START)
    /\ (~ (tmin <= date_of DEFAULT_START <= tmax)%Z -> In d times).
Proof.
  intros Hne. destruct times as [|x l] eqn:E; [congruence|].
  rewrite <- E in *.
  destruct (index_min times) as [lo|] eqn:Emin; [|subst; discriminate Emin].
  destruct (index_max times) as [hi|] eqn:Emax; [|subst; discriminate Emax].
  pose proof (coverage_bounds times lo hi Emin Emax) as Hcov.
  pose proof (index_min_le_max times lo hi Emin Emax) as Hle.
  assert (Hfirst : In (nth 0 times 0%Q) times) by (subst; now left).
  assert (Hlast : In (last times 0%Q) times) by (subst; apply last_in).
  exists (date_of lo), (date_of hi).
  unfold default_date, date_bounds. rewrite Emin, Emax. cbn [bind].
  destruct (date_of DEFAULT_START <? date_of lo)%Z eqn:E1.
  - exists (nth 0 times 0%Q). apply Z.ltb_lt in E1.
    split; [reflexivity|]. split; [reflexivity|].
    destruct (Hcov _ Hfirst) as [H1 H2].
    split; [split; now apply date_of_mono|].
    split; [lia | intros _; exact Hfirst].
  - apply Z.ltb_ge in E1.
    destruct (date_of hi <? date_of DEFAULT_START)%Z eqn:E2.
    + exists (last times 0%Q). apply Z.ltb_lt in E2.
      split; [reflexivity|]. split; [reflexivity|].
      destruct (Hcov _ Hlast) as [H1 H2].
      split; [split; now apply date_of_mono|].
      split; [lia | intros _; exact Hlast].
    + exists DEFAULT_START. apply Z.ltb_ge in E2.
      split; [reflexivity|]. split; [reflexivity|].
      split; [lia|]. split; [reflexivity | lia].
Qed.

Lemma default_date_within_bounds_witness :
  exists (tmin tmax : Z) (d : Q),
    date_bounds Cases.late_times = Ok (tmin, tmax)
    /\ default_date Cases.late_times = Ok d
    /\ (tmin <= date_of d <= tmax)%Z.
Proof.
  destruct (default_date_within_bounds Cases.late_times)
    as (tmin & tmax & d & H1 & H2 & H3 & _); [discriminate|].
  exists tmin, tmax, d. repeat split; try assumption; apply H3.
Defined.

(** The witness, computed: every time of the list lies after 2024-08-15, and
    the picker starts from the first time of the list. *)
Example default_date_computed :
  default_date Cases.late_times = Ok (timestamp_of_date 20000)
  /\ date_bounds Cases.late_times = Ok (20000, 20001)%Z.
Proof. split; reflexivity. Qed.

(** ** The whole of [load_anomaly] on a dataset of the conventions *)




Example load_anomaly_computed :
  load_anomaly Cases.server_grid Dtypes.float32 (200#1)
    (Some (-5#1, 10#1, 170#1, -170#1)%Q) []
  = ([EvOpen ERDDAP_URL; EvClose],
     Ok (mkDA [("lat", [0#1; 10#1]%Q);
               ("lon", [175#1; 180#1; -180#1; -175#1]%Q)]
              [("time", 200#1)]
              (Examples.grid [[24; 25; 21; 22]; [29; 30; 26; 27]]%Z))).
Proof. vm_compute. reflexivity. Qed.

(** *** The latitude step on a descending grid *)

Lemma descending_cons (x : Q) (tl : Index) :
  is_monotonic_decreasing (x :: tl) = true ->
  is_monotonic_decreasing tl = true /\ Forall (fun y => (y <= x)%Q) tl.
Proof.
  revert x. induction tl as [|y tl IH]; intros x H.
  - split; [reflexivity | constructor].
  - change (Qle_bool y x && is_monotonic_decreasing (y :: tl) = true) in H.
    apply andb_true_iff in H as [Hxy Htl]. apply Qle_bool_iff in Hxy.
    split; [exact Htl|].
    destruct (IH y Htl) as [_ F]. constructor; [exact Hxy|].
    eapply Forall_impl; [|exact F]. intros z Hz. cbv beta in *.
    eapply Qle_trans; eassumption.
Qed.

(** A descending index falls into the labels above [x], the labels equal to
    [x] and the labels below [x], in this order. *)
Lemma descending_split (idx : Index) (x : Q) :
  is_monotonic_decreasing idx = true ->
  exists l1 l2 l3 : Index,
    idx = l1 ++ l2 ++ l3
    /\ Forall (fun y => (x < y)%Q) l1
    /\ Forall (fun y => (y == x)%Q) l2
    /\ Forall (fun y => (y < x)%Q) l3.
Proof.
  induction idx as [|y tl IH]; intros H.
  - exists [], [], []. repeat split; constructor.
  - destruct (descending_cons y tl H) as [Htl F].
    destruct (IH Htl) as (l1 & l2 & l3 & E & F1 & F2 & F3). subst tl.
    destruct (Q_dec y x) as [[L|G]|E].
    + assert (l1 = []) as ->.
      { destruct l1 as [|z l1]; [reflexivity|]. exfalso.
        inversion F1; subst. inversion F; subst. cbv beta in *. lra. }
      assert (l2 = []) as ->.
      { destruct l2 as [|z l2]; [reflexivity|]. exfalso.
        inversion F2; subst. inversion F; subst. cbv beta in *. lra. }
      exists [], [], (y :: l3). repeat split; auto.
    + exists (y :: l1), l2, l3. repeat split; auto.
    + assert (l1 = []) as ->.
      { destruct l1 as [|z l1]; [reflexivity|]. exfalso.
        inversion F1; subst. inversion F; subst. cbv beta in *. lra. }
      exists [], (y :: l2), l3. repeat split; auto.
Qed.

Lemma label_mask_split_descending (l1 l2 l3 : Index) (x : Q) :
  Forall (fun y => (x < y)%Q) l1 ->
  Forall (fun y => (y == x)%Q) l2 ->
  Forall (fun y => (y < x)%Q) l3 ->
  label_mask (l1 ++ l2 ++ l3) x
  = block_mask (length l1) (length l2) (length l3).
Proof.
  intros F1 F2 F3. unfold label_mask, block_mask. rewrite !map_app.
  f_equal; [|f_equal]; apply map_const.
  - eapply Forall_impl; [|exact F1]. intros y L. cbv beta in *.
    destruct (Qeq_bool y x) eqn:E; [|reflexivity].
    apply Qeq_bool_iff in E. lra.
  - eapply Forall_impl; [|exact F2]. intros y L. now apply Qeq_bool_iff.
  - eapply Forall_impl; [|exact F3]. intros y L. cbv beta in *.
    destruct (Qeq_bool y x) eqn:E; [|reflexivity].
    apply Qeq_bool_iff in E. lra.
Qed.

(** The labels above [x], and the labels at least [x], are counted by the
    prefixes on which the comparison holds. *)
Lemma prefix_len_split_descending (l1 l2 l3 : Index) (x : Q) :
  Forall (fun y => (x < y)%Q) l1 ->
  Forall (fun y => (y == x)%Q) l2 ->
  Forall (fun y => (y < x)%Q) l3 ->
  prefix_len (fun y => Qlt_bool x y) (l1 ++ l2 ++ l3) = length l1
  /\ prefix_len (fun y => Qle_bool x y) (l1 ++ l2 ++ l3)
     = length l1 + length l2.
Proof.
  intros F1 F2 F3. split.
  - rewrite prefix_len_app_all.
    + rewrite prefix_len_none; [lia|]. apply Forall_app. split.
      * eapply Forall_impl; [|exact F2]. intros y E. cbv beta in *.
        apply Qlt_bool_false_iff. lra.
      * eapply Forall_impl; [|exact F3]. intros y E. cbv beta in *.
        apply Qlt_bool_false_iff. lra.
    + eapply Forall_impl; [|exact F1]. intros y L. now apply Qlt_bool_iff.
  - rewrite app_assoc, prefix_len_app_all.
    + rewrite prefix_len_none; [rewrite length_app; lia|].
      eapply Forall_impl; [|exact F3]. intros y E. cbv beta in *.
      now apply Qle_bool_false_iff.
    + apply Forall_app. split.
      * eapply Forall_impl; [|exact F1]. intros y L. cbv beta in *.
        apply Qle_bool_iff. lra.
      * eapply Forall_impl; [|exact F2]. intros y L. cbv beta in *.
        apply Qle_bool_iff. lra.
Qed.

(** On an index that is descending and not ascending, and for a bound that
    the dtype of the index holds as it is, the start of a slice is the number
    of labels above its bound and the stop of a slice the number of labels
    at least its bound: the binary search runs on the reversed index and
    mirrors the position back. *)
Lemma get_slice_bound_descending (cast : Q -> Q) (idx : Index) (x : Q)
  (side : Side) :
  is_monotonic_increasing idx = false ->
  is_monotonic_decreasing idx = true ->
  representable cast x ->
  get_slice_bound cast idx x side
  = Ok (match side with
        | SideLeft => prefix_len (fun y => Qlt_bool x y) idx
        | SideRight => prefix_len (fun y => Qle_bool x y) idx
        end).
Proof.
  intros Hi Hd R.
  destruct (descending_split idx x Hd) as (l1 & l2 & l3 & E & F1 & F2 & F3).
  destruct (prefix_len_split_descending l1 l2 l3 x F1 F2 F3) as [PL PR].
  unfold get_slice_bound.
  rewrite (get_loc_compat _ _ (engine_key_representable cast idx x R) idx).
  unfold get_loc, _searchsorted_monotonic.
  rewrite Hi, Hd. subst idx. rewrite PL, PR.
  rewrite (label_mask_split_descending l1 l2 l3 x F1 F2 F3), count_true_block.
  destruct l2 as [|y [|z l2]].
  - assert (Erev : rev (l1 ++ [] ++ l3) = rev l3 ++ rev [] ++ rev l1).
    { cbn [app rev]. now rewrite rev_app_distr. }
    rewrite Erev.
    destruct (searchsorted_split (rev l3) (rev []) (rev l1) x) as [SL SR].
    + now apply Forall_rev.
    + constructor.
    + now apply Forall_rev.
    + cbn [app rev] in *. rewrite !length_app, !length_rev in *.
      destruct side; cbn [flip_side length].
      * rewrite SR. cbn [length]. f_equal. lia.
      * rewrite SL. f_equal. lia.
  - cbn [length]. rewrite first_true_block by lia.
    destruct side; f_equal; lia.
  - cbn [length]. rewrite booleans_to_slice_block by lia.
    destruct side; reflexivity.
Qed.

Lemma slice_indexer_descending (cast : Q -> Q) (idx : Index) (a b : Q) :
  is_monotonic_increasing idx = false ->
  is_monotonic_decreasing idx = true ->
  representable cast a ->
  representable cast b ->
  slice_indexer cast idx a b
  = Ok (prefix_len (fun y => Qlt_bool a y) idx,
        prefix_len (fun y => Qle_bool b y) idx).
Proof.
  intros Hi Hd Ra Rb. unfold slice_indexer.
  rewrite (get_slice_bound_descending cast idx a SideLeft Hi Hd Ra).
  now rewrite (get_slice_bound_descending cast idx b SideRight Hi Hd Rb).
Qed.

Lemma descending_tail_none (p : Q -> bool) (y : Q) (tl : Index) :
  (forall u v : Q, (u <= v)%Q -> p u = true -> p v = true) ->
  Forall (fun z => (z <= y)%Q) tl ->
  p y = false ->
  prefix_len p tl = 0.
Proof.
  intros Hp F Hy. apply prefix_len_none.
  eapply Forall_impl; [|exact F]. intros z Hz. cbv beta in *.
  destruct (p z) eqn:E; [|reflexivity].
  rewrite (Hp z y Hz E) in Hy. discriminate.
Qed.

Lemma above_monotone (x u v : Q) :
  (u <= v)%Q -> Qlt_bool x u = true -> Qlt_bool x v = true.
Proof. rewrite !Qlt_bool_iff. intros. lra. Qed.

Lemma at_least_monotone (x u v : Q) :
  (u <= v)%Q -> Qle_bool x u = true -> Qle_bool x v = true.
Proof. rewrite !Qle_bool_iff. intros. lra. Qed.

(** The positional slice that [slice(a, b)] gives on a descending index holds
    the labels from [b] up to [a]: the closed range with its bounds the other
    way round. *)
Lemma py_slice_descending (idx : Index) (a b : Q) :
  is_monotonic_decreasing idx = true ->
  py_slice (prefix_len (fun y => Qlt_bool a y) idx)
           (prefix_len (fun y => Qle_bool b y) idx) idx
  = filter (in_closed_range b a) idx.
Proof.
  unfold py_slice, in_closed_range.
  induction idx as [|y tl IH]; intros H; [reflexivity|].
  destruct (descending_cons y tl H) as [Htl F]. specialize (IH Htl).
  cbn [prefix_len filter].
  destruct (Qlt_bool a y) eqn:Ea, (Qle_bool b y) eqn:Eb.
  - cbn [firstn skipn]. rewrite IH.
    apply Qlt_bool_iff in Ea. apply Qle_bool_false_iff in Ea.
    now rewrite Ea.
  - rewrite <- IH.
    rewrite (descending_tail_none (fun z => Qle_bool b z) y tl
               (at_least_monotone b) F Eb).
    cbn [andb firstn]. now rewrite !skipn_nil.
  - apply Qlt_bool_false_iff in Ea. apply Qle_bool_iff in Ea. rewrite Ea.
    cbn [andb firstn skipn]. rewrite <- IH.
    apply Qle_bool_iff in Ea. apply Qlt_bool_false_iff in Ea.
    now rewrite (descending_tail_none (fun z => Qlt_bool a z) y tl
                   (above_monotone a) F Ea).
  - rewrite <- IH.
    rewrite (descending_tail_none (fun z => Qle_bool b z) y tl
               (at_least_monotone b) F Eb).
    cbn [andb firstn]. now rewrite !skipn_nil.
Qed.

Lemma reversed_range_empty (a b : Q) (idx : Index) :
  ~ (a == b)%Q ->
  filter (in_closed_range (Qmax_bool a b) (Qmin_bool a b)) idx = [].
Proof.
  intros Hne. apply filter_none. intros y _.
  unfold in_closed_range, Qmax_bool, Qmin_bool.
  destruct (Qle_bool a b) eqn:E.
  - apply Qle_bool_iff in E.
    destruct (Qle_bool b y) eqn:E1; [|reflexivity].
    apply Qle_bool_iff in E1. cbn [andb]. apply Qle_bool_false_iff. lra.
  - apply Qle_bool_false_iff in E.
    destruct (Qle_bool a y) eqn:E1; [|reflexivity].
    apply Qle_bool_iff in E1. cbn [andb]. apply Qle_bool_false_iff. lra.
Qed.

(** X18. On a latitude axis sorted descending (and not also ascending), and
    for bounds that the dtype of the axis holds as they are, the latitude
    step succeeds and keeps the grid latitudes [y] with
    [max(lat_min, lat_max) <= y <= min(lat_min, lat_max)]: the bounds are
    applied the wrong way round, so whenever the two bounds differ no
    latitude at all is kept. *)
Theorem select_lat_descending_reversed (V : Type) (casts : string -> Q -> Q)
  (da : DataArray V) (k : nat) (idx : Index) (a b : Q) :
  find_dim "lat" (da_dims da) = Some (k, idx) ->
  is_monotonic_increasing idx = false ->
  is_monotonic_decreasing idx = true ->
  representable (casts "lat") a ->
  representable (casts "lat") b ->
  exists out : DataArray V,
    select_lat casts da a b = Ok out
    /\ find_dim "lat" (da_dims out)
       = Some (k, filter (in_closed_range (Qmax_bool a b) (Qmin_bool a b))
                    idx)
    /\ (~ (a == b)%Q -> find_dim "lat" (da_dims out) = Some (k, [])).
Proof.
  intros Hk Hi Hd Ra Rb.
  exists (isel_slice k
            (prefix_len (fun y => Qlt_bool (Qmin_bool a b) y) idx)
            (prefix_len (fun y => Qle_bool (Qmax_bool a b) y) idx) da).
  assert (Hdim : find_dim "lat"
                   (da_dims
                      (isel_slice k
                         (prefix_len (fun y => Qlt_bool (Qmin_bool a b) y) idx)
                         (prefix_len (fun y => Qle_bool (Qmax_bool a b) y) idx)
                         da))
                 = Some (k, filter (in_closed_range (Qmax_bool a b)
                                      (Qmin_bool a b)) idx)).
  { unfold isel_slice. cbn [da_dims].
    rewrite (find_dim_update_nth "lat" (py_slice _ _) _ _ _ Hk).
    now rewrite (py_slice_descending idx _ _ Hd). }
  split; [|split].
  - rewrite select_lat_bounds. unfold sel_slice.
    rewrite Hk, (slice_indexer_descending (casts "lat") idx _ _ Hi Hd).
    + reflexivity.
    + now apply Qmin_bool_cases.
    + now apply Qmax_bool_cases.
  - exact Hdim.
  - intros Hne. rewrite Hdim. now rewrite (reversed_range_empty a b idx Hne).
Qed.

Lemma select_lat_descending_reversed_witness :
  exists out : DataArray Z,
    select_lat Dtypes.float32 Examples.field_desc (-5#1) (10#1) = Ok out
    /\ find_dim "lat" (da_dims out) = Some (0, []).
Proof.
  destruct (select_lat_descending_reversed Z Dtypes.float32
              Examples.field_desc 0
              [10#1; 0#1; -10#1]%Q (-5#1) (10#1) eq_refl eq_refl eq_refl)
    as (out & H1 & _ & H3);
    [vm_compute; reflexivity | vm_compute; reflexivity |].
  exists out. split; [exact H1|]. apply H3. discriminate.
Defined.

(** ** The standardizer on the conventions, and where int64 ends *)

(** X19. On a dataset of the conventions (the anomaly variable has the
    dimensions time, depth if any, latitude and longitude in this order, the
    last two under the short or the long names, at most one depth axis under
    one of the three names and without repeated levels, and scalar
    coordinates under names of their own) whose latitude and longitude axes
    are not of length one, a field that the standardizer returns has the two
    dimensions [lat] and [lon], in this order and with the latitudes and
    longitudes of the dataset, and its values form a two-dimensional array
    of that shape; and the standardizer does return a field when the time
    axis is non-empty and ascending without repeats, lies with the time
    coverage of the dataset within one span of 2^63 nanoseconds, and the
    depth axis, if there is one, is non-empty. *)
Theorem standardize_output_dims (V : Type) (ds : Dataset V)
  (da0 : DataArray V) (times tidx : list Q)
  (depth : list (string * list Q)) (latn lonn : string)
  (lati loni : list Q) (t : Q) :
  ds_var ds "anom" = Ok da0 ->
  ds_coord_values ds "time" = Ok times ->
  follows_conventions da0 tidx depth latn lati lonn loni ->
  length lati <> 1 ->
  length loni <> 1 ->
  (forall out : DataArray V,
      _standardize_anom_field ds t = Ok out ->
      da_dims out = [("lat", lati); ("lon", loni)]
      /\ dim_names out = ["lat"; "lon"]
      /\ (well_shaped da0 = true ->
          has_shape [length lati; length loni] (da_values out) = true))
  /\ (tidx <> [] ->
      is_unique tidx = true ->
      is_monotonic_increasing tidx = true ->
      times <> [] ->
      within_int64_span (tidx ++ times) ->
      (forall dn didx, depth = [(dn, didx)] -> didx <> []) ->
      exists out : DataArray V, _standardize_anom_field ds t = Ok out).
Proof.
  intros Hvar Htimes Hconv H1 H2.
  pose proof Hconv as (Hd & Hdepth & Hlat & Hlon & _ & _).
  destruct (select_surface_conventions V da0 tidx depth latn lonn lati loni
              Hd Hdepth Hlat Hlon) as [HA HA'].
  split.
  - intros out Hout.
    destruct (standardize_inv V ds t out Hout) as (pre & Hpre & Hren).
    destruct (extract_field_inv V ds t pre Hpre)
      as (da0' & da1 & da2 & times' & Hv & HS1 & Ht & HS2 & ->).
    rewrite Hvar in Hv. injection Hv as <-.
    rewrite Htimes in Ht. injection Ht as <-.
    destruct (standardize_steps V ds da0 da1 da2 times tidx depth latn lonn
                lati loni t Hvar Htimes Hconv H1 H2 HS1 HS2)
      as (E & Hdims & HW).
    rewrite E in Hout. injection Hout as <-.
    split; [exact Hdims|]. split.
    + unfold dim_names. now rewrite Hdims.
    + intros W. specialize (HW W). unfold well_shaped, sizes in HW.
      now rewrite Hdims in HW.
  - intros Hne Hu Hasc Htne Hspan Hdne.
    destruct (HA' Hdne) as [da1 HS1].
    destruct (HA da1 HS1) as (Hd1 & _ & _).
    destruct (sel_nearest_time_ascending V da1 tidx _ (clamp_time times t)
                Hd1 Hne Hu Hasc (clamp_time_in_reach tidx times t Htne Hspan))
      as [da2 HS2].
    destruct (standardize_steps V ds da0 da1 da2 times tidx depth latn lonn
                lati loni t Hvar Htimes Hconv H1 H2 HS1 HS2) as (E & _ & _).
    now exists (canonical da2).
Qed.

Lemma standardize_output_dims_witness :
  (forall out : DataArray Z,
      _standardize_anom_field Examples.ds_sst (250#1) = Ok out ->
      da_dims out = [("lat", [-10#1; 10#1]%Q); ("lon", [0#1; 1#1]%Q)]
      /\ dim_names out = ["lat"; "lon"]
      /\ (well_shaped Examples.anom_sst = true ->
          has_shape [2; 2] (da_values out) = true))
  /\ exists out : DataArray Z,
       _standardize_anom_field Examples.ds_sst (250#1) = Ok out.
Proof.
  destruct (standardize_output_dims Z Examples.ds_sst Examples.anom_sst
              Examples.sst_times Examples.sst_times [("zlev", [0#1]%Q)]
              "latitude" "longitude" [-10#1; 10#1]%Q [0#1; 1#1]%Q (250#1)
              eq_refl eq_refl sst_follows_conventions)
    as [H1 H2]; [cbn; lia | cbn; lia |].
  split; [exact H1|].
  apply H2; [discriminate | reflexivity | reflexivity | discriminate | |].
  - intros x y Hx Hy. cbn in Hx, Hy.
    destruct Hx as [<-|[<-|[<-|[<-|[<-|[<-|[]]]]]]],
             Hy as [<-|[<-|[<-|[<-|[<-|[<-|[]]]]]]];
      vm_compute; discriminate.
  - intros dn didx [= <- <-]. discriminate.
Defined.







(** ** Bounds that the dtype of an axis rounds *)

(** A rounding that is monotone and leaves the labels of the index as they
    are does not carry a bound past a label. *)
Lemma rounds_within_monotone (cast : Q -> Q) (idx : list Q) (x : Q) :
  (forall u v : Q, (u <= v)%Q -> (held_as cast u <= held_as cast v)%Q) ->
  Forall (representable cast) idx ->
  rounds_within cast idx x.
Proof.
  intros Hmono Hfix. unfold rounds_within.
  eapply Forall_impl; [|exact Hfix]. intros y Hy. unfold representable in Hy.
  split; intros H; apply Hmono in H; lra.
Qed.

(** On an ascending index without repeated labels the label that a bound
    stands for lies on the same side of every label as the rounded bound. *)
Lemma bound_label_rounded (cast : Q -> Q) (idx : list Q) (x y : Q) :
  is_unique idx = true ->
  rounds_within cast idx x ->
  In y idx ->
  Qle_bool (bound_label cast idx x) y = Qle_bool (held_as cast x) y
  /\ Qle_bool y (bound_label cast idx x) = Qle_bool y (held_as cast x).
Proof.
  intros Hu Hr Hy. unfold bound_label, engine_key. rewrite Hu. cbv zeta.
  destruct (existsb (fun z => Qeq_bool z (held_as cast x)) idx) eqn:E;
    [split; reflexivity|].
  unfold rounds_within in Hr. rewrite Forall_forall in Hr.
  destruct (Hr y Hy) as [Hup Hdown].
  assert (Hneq : ~ (y == held_as cast x)%Q).
  { intros C. apply Qeq_bool_iff in C.
    assert (T : existsb (fun z => Qeq_bool z (held_as cast x)) idx = true).
    { apply existsb_exists. now exists y. }
    rewrite T in E. discriminate. }
  split.
  - destruct (Qle_bool x y) eqn:E1.
    + apply Qle_bool_iff in E1. symmetry. apply Qle_bool_iff. auto.
    + apply Qle_bool_false_iff in E1. symmetry. apply Qle_bool_false_iff.
      assert (y <= held_as cast x)%Q by (apply Hdown; lra).
      destruct (Qlt_le_dec y (held_as cast x)) as [C|C]; [exact C|].
      exfalso. apply Hneq. lra.
  - destruct (Qle_bool y x) eqn:E1.
    + apply Qle_bool_iff in E1. symmetry. apply Qle_bool_iff. auto.
    + apply Qle_bool_false_iff in E1. symmetry. apply Qle_bool_false_iff.
      assert (held_as cast x <= y)%Q by (apply Hup; lra).
      destruct (Qlt_le_dec (held_as cast x) y) as [C|C]; [exact C|].
      exfalso. apply Hneq. lra.
Qed.

Lemma slice_labels_rounded (cast : Q -> Q) (idx : list Q) (a b : Q) :
  is_unique idx = true ->
  rounds_within cast idx a ->
  rounds_within cast idx b ->
  slice_labels cast idx a b
  = filter (in_closed_range (held_as cast a) (held_as cast b)) idx.
Proof.
  intros Hu Ra Rb. unfold slice_labels. apply filter_ext_in. intros y Hy.
  unfold in_closed_range.
  destruct (bound_label_rounded cast idx a y Hu Ra Hy) as [-> _].
  destruct (bound_label_rounded cast idx b y Hu Rb Hy) as [_ ->].
  reflexivity.
Qed.

(** X21. On a latitude axis sorted ascending without repeated labels the
    latitude step returns, for bounds of any kind, the grid latitudes
    between the two bounds as the dtype of the axis holds them: the range
    from the smaller bound rounded to the larger bound rounded.  A bound
    that the dtype does not hold as it is thus lets in the label it rounds
    to, also when that label lies outside the bounds as they were given. *)
Theorem select_lat_rounds_bounds (V : Type) (casts : string -> Q -> Q)
  (da : DataArray V) (k : nat) (idx : list Q) (a b : Q) :
  find_dim "lat" (da_dims da) = Some (k, idx) ->
  is_monotonic_increasing idx = true ->
  is_unique idx = true ->
  rounds_within (casts "lat") idx a ->
  rounds_within (casts "lat") idx b ->
  exists out : DataArray V,
    select_lat casts da a b = Ok out
    /\ find_dim "lat" (da_dims out)
       = Some (k, filter (in_closed_range
                            (held_as (casts "lat") (Qmin_bool a b))
                            (held_as (casts "lat") (Qmax_bool a b))) idx)
    /\ dim_names out = dim_names da
    /\ (well_shaped da = true -> well_shaped out = true).
Proof.
  intros Hk Hasc Hu Ra Rb.
  destruct (sel_slice_ascending_label V casts "lat" da k idx
              (Qmin_bool a b) (Qmax_bool a b) Hk Hasc)
    as (s & e & Hsel & _ & Hdim).
  exists (isel_slice k s e da). split; [|split; [|split]].
  - now rewrite select_lat_bounds.
  - rewrite Hdim. f_equal. f_equal. apply slice_labels_rounded.
    + exact Hu.
    + now apply Qmin_bool_cases.
    + now apply Qmax_bool_cases.
  - unfold dim_names, isel_slice. cbn [da_dims].
    apply (update_nth_names (py_slice _ _)).
  - apply (isel_slice_well_shaped V da "lat" k idx _ _ Hk).
Qed.

Lemma select_lat_rounds_bounds_witness :
  exists out : DataArray Z,
    select_lat Dtypes.float32 Dtypes.field_f32 (0#1) (3#10) = Ok out
    /\ find_dim "lat" (da_dims out) = Some (0, [0#1; Dtypes.f32_0_3]%Q).
Proof.
  destruct (select_lat_rounds_bounds Z Dtypes.float32 Dtypes.field_f32 0
              [0#1; Dtypes.f32_0_3]%Q (0#1) (3#10) eq_refl eq_refl eq_refl)
    as (out & H1 & H2 & _).
  - repeat constructor; intros H; vm_compute; vm_compute in H;
      try discriminate; try (exfalso; apply H; reflexivity).
  - repeat constructor; intros H; vm_compute; vm_compute in H;
      try discriminate; try (exfalso; apply H; reflexivity).
  - exists out. split; [exact H1|]. rewrite H2. reflexivity.
Defined.

(** The same computed, with the longitude step: of the float32 labels 0 and
    0.3f the bounds 0 and 0.3 keep both, and the bounds 0.3 and 1 keep
    0.3f. *)
Example select_bbox_float32_computed :
  select_bbox Dtypes.float32 Dtypes.field_f32
    (Some (0#1, 3#10, 0#1, 3#10)%Q) = Ok Dtypes.field_f32
  /\ select_bbox Dtypes.float32 Dtypes.field_f32
       (Some (3#10, 1#1, 0#1, 1#1)%Q)
     = Ok (mkDA [("lat", [Dtypes.f32_0_3]); ("lon", [0#1; Dtypes.f32_0_3]%Q)]
                [] (Examples.grid [[3; 4]]%Z))
  /\ select_bbox float64 Dtypes.field_f32
       (Some (0#1, 3#10, 0#1, 3#10)%Q)
     = Ok (mkDA [("lat", [0#1]%Q); ("lon", [0#1]%Q)] []
                (Examples.grid [[1]]%Z)).
Proof. repeat split; vm_compute; reflexivity. Qed.
